(** * EcoGisTools: spatial partitioning of vector layers (src/ecogis.py)

    Shallow embedding of [LatLonPartition], [Layer.partition] and
    [Source.partition].  Coordinates (the floats returned by OGR's
    [GetExtent] / [GetEnvelope]) are IEEE-754 doubles, [spec_float] of the
    Standard Library: the arithmetic of Python on them ([+], [-], [/],
    [//], [math.ceil], [math.floor], [int], comparisons, and the
    conversion of an [int] operand to [float]) is written out following
    CPython, each operation computing the exact rational result and
    rounding it to the nearest double, ties to even.  Side effects (the
    file system touched through [pathlib] and OGR, and the [logging]
    calls) are threaded through a small state-and-exception monad. *)

From Stdlib Require Import QArith Qround Qabs Qpower ZArith List Ascii String Bool Lia Lqa.
From Stdlib Require Import SpecFloat.
Import ListNotations.


(** ** Python values and exceptions *)

Inductive py_exn : Type :=
| ZeroDivisionError
| IndexError
| KeyError
| TypeError
| AttributeError
| OverflowError
| ValueError.

Inductive py_result (A : Type) : Type :=
| Ok (a : A)
| Raise (e : py_exn).
Arguments Ok {A} a.
Arguments Raise {A} e.

Definition rbind {A B} (r : py_result A) (k : A -> py_result B) : py_result B :=
  match r with Ok a => k a | Raise e => Raise e end.

Notation "'let?' x ':=' m 'in' k" := (rbind m (fun x => k))
  (at level 200, x name, m at level 100, k at level 200).

(** Python's [a < b] on rationals. *)
Definition Qlt_bool (a b : Q) : bool := negb (Qle_bool b a).

(** ** Doubles *)

(** binary64: 53 bits of precision, exponents up to 1024. *)
Definition b64_prec : Z := 53.
Definition b64_emax : Z := 1024.
Definition b64_emin : Z := (3 - b64_emax - b64_prec)%Z.

Definition pow2 (e : Z) : Q := Qpower 2 e.

(** [floor (log2 a)] for [a > 0]. *)
Definition Qlog2 (a : Q) : Z :=
  let k := (Z.log2 (Qnum a) - Z.log2 (Zpos (Qden a)))%Z in
  if Qle_bool (pow2 k) a then k else (k - 1)%Z.

(** The exponent of the last bit of a double of magnitude [|q|]. *)
Definition b64_exp (q : Q) : Z := Z.max (Qlog2 (Qabs q) - (b64_prec - 1)) b64_emin.

(** Rounding to an integer, ties to even. *)
Definition rne (x : Q) : Z :=
  let f := Qfloor x in
  let d := x - inject_Z f in
  if Qlt_bool d (1#2) then f
  else if Qlt_bool (1#2) d then Z.succ f
  else if Z.even f then f else Z.succ f.

(** The value of [q] rounded to the precision of a double (no overflow). *)
Definition rval (q : Q) : Q := inject_Z (rne (q / pow2 (b64_exp q))) * pow2 (b64_exp q).

(** The double nearest to [q], ties to even, [inf] past the largest
    double; an exact zero gets the sign [sz]. *)
Definition round_q (sz : bool) (q : Q) : spec_float :=
  let e := b64_exp q in
  let s := Qlt_bool q 0 in
  match rne (Qabs q / pow2 e) with
  | Zpos p =>
    let '(p', e') := if Pos.eqb p (2 ^ 53) then ((2 ^ 52)%positive, Z.succ e) else (p, e) in
    if Z.ltb (b64_emax - b64_prec) e' then S754_infinity s else S754_finite s p' e'
  | _ => S754_zero (if Qeq_bool q 0 then sz else s)
  end.

(** The rational value of a finite double. *)
Definition val (f : spec_float) : Q :=
  match f with
  | S754_finite s m e => (if s then - inject_Z (Zpos m) else inject_Z (Zpos m)) * pow2 e
  | _ => 0
  end.

(** The largest double. *)
Definition maxfloat : Q := inject_Z (2 ^ 53 - 1) * pow2 971.

Definition is_fin (f : spec_float) : bool :=
  match f with S754_zero _ | S754_finite _ _ _ => true | _ => false end.

(** [f] is the finite double nearest to [q]. *)
Definition rounds_to (f : spec_float) (q : Q) : Prop := is_fin f = true /\ val f == rval q.

(** A finite double, given by its value. *)
Definition dbl (f : spec_float) : Prop :=
  is_fin f = true /\ rval (val f) == val f /\ Qabs (val f) <= maxfloat.

(** [q] lies between [0] and [x]. *)
Definition between0 (x q : Q) : Prop := (0 <= x -> 0 <= q <= x) /\ (x <= 0 -> x <= q <= 0).

(** Extended reals, for the comparisons. *)
Inductive xq : Type := XNeg | XFin (q : Q) | XPos.

Definition xval (f : spec_float) : option xq :=
  match f with
  | S754_nan => None
  | S754_infinity s => Some (if s then XNeg else XPos)
  | _ => Some (XFin (val f))
  end.

Definition xlt (a b : xq) : bool :=
  match a, b with
  | XNeg, XNeg => false | XNeg, _ => true
  | XFin p, XFin q => Qlt_bool p q | XFin _, XPos => true
  | _, _ => false
  end.

Definition xle (a b : xq) : bool :=
  match a, b with
  | XNeg, _ => true | _, XPos => true
  | XFin p, XFin q => Qle_bool p q
  | _, _ => false
  end.

(** [x < y] and [x <= y] on floats: [False] as soon as one is a NaN. *)
Definition flt (x y : spec_float) : bool :=
  match xval x, xval y with Some a, Some b => xlt a b | _, _ => false end.

Definition fle (x y : spec_float) : bool :=
  match xval x, xval y with Some a, Some b => xle a b | _, _ => false end.

Definition fsign (f : spec_float) : bool :=
  match f with S754_zero s | S754_infinity s | S754_finite s _ _ => s | S754_nan => false end.

(** [bool(f)] *)
Definition truthy (f : spec_float) : bool :=
  match f with S754_zero _ => false | _ => true end.

Definition fopp (f : spec_float) : spec_float :=
  match f with
  | S754_zero s => S754_zero (negb s) | S754_infinity s => S754_infinity (negb s)
  | S754_finite s m e => S754_finite (negb s) m e | S754_nan => S754_nan
  end.

(** [x + y] *)
Definition fadd (x y : spec_float) : spec_float :=
  match x, y with
  | S754_nan, _ | _, S754_nan => S754_nan
  | S754_infinity a, S754_infinity b => if Bool.eqb a b then x else S754_nan
  | S754_infinity _, _ => x
  | _, S754_infinity _ => y
  | S754_zero a, S754_zero b => S754_zero (a && b)
  | _, _ => round_q false (val x + val y)
  end.

(** [x - y] *)
Definition fsub (x y : spec_float) : spec_float := fadd x (fopp y).

(** [x / y] of C ([Python] checks for a zero divisor before). *)
Definition fdiv (x y : spec_float) : spec_float :=
  match x, y with
  | S754_nan, _ | _, S754_nan => S754_nan
  | S754_infinity _, S754_infinity _ | S754_zero _, S754_zero _ => S754_nan
  | S754_infinity a, _ => S754_infinity (xorb a (fsign y))
  | _, S754_infinity b => S754_zero (xorb (fsign x) b)
  | _, S754_zero b => S754_infinity (xorb (fsign x) b)
  | S754_zero a, _ => S754_zero (xorb a (fsign y))
  | _, _ => round_q (xorb (fsign x) (fsign y)) (val x / val y)
  end.

(** Truncation towards zero. *)
Definition Qtrunc (q : Q) : Z := if Qlt_bool q 0 then Qceiling q else Qfloor q.

(** The exact remainder [x - trunc(x / y) * y] of C's [fmod]. *)
Definition trunc_rem (x y : Q) : Q := x - inject_Z (Qtrunc (x / y)) * y.

(** C's [fmod] (exact, the result has the sign of [x]). *)
Definition fmod (x y : spec_float) : spec_float :=
  match x, y with
  | S754_nan, _ | _, S754_nan | S754_infinity _, _ | _, S754_zero _ => S754_nan
  | S754_zero _, _ => x
  | _, S754_infinity _ => x
  | _, _ => round_q (fsign x) (val x - inject_Z (Qtrunc (val x / val y)) * val y)
  end.

(** C's [floor]. *)
Definition ffloor (x : spec_float) : spec_float :=
  match x with
  | S754_finite s _ _ => round_q s (inject_Z (Qfloor (val x)))
  | _ => x
  end.

Definition f_zero : spec_float := S754_zero false.
Definition f_one : spec_float := round_q false 1.
Definition f_two : spec_float := round_q false 2.
Definition f_half : spec_float := round_q false (1 # 2).

(** A float literal of the source: the double nearest to its decimal
    value. *)
Definition py_float (q : Q) : spec_float := round_q false q.

(** [float_floor_div] of CPython (Objects/floatobject.c, [_float_div_mod])
    for a non-zero divisor. *)
Definition floordiv_core (vx wx : spec_float) : spec_float :=
  let md := fmod vx wx in
  let dv := fdiv (fsub vx md) wx in
  let dv := if truthy md
            then if Bool.eqb (flt wx f_zero) (flt md f_zero) then dv else fsub dv f_one
            else dv in
  if truthy dv then
    let fl := ffloor dv in
    if flt f_half (fsub dv fl) then fadd fl f_one else fl
  else S754_zero (fsign (fdiv vx wx)).

Definition fis_zero (f : spec_float) : bool := negb (truthy f).

(** [a // b] on floats. *)
Definition py_floordiv (vx wx : spec_float) : py_result spec_float :=
  if fis_zero wx then Raise ZeroDivisionError else Ok (floordiv_core vx wx).

(** An [int] operand converted to [float] ([OverflowError] past the
    largest double). *)
Definition int_to_float (z : Z) : py_result spec_float :=
  match round_q false (inject_Z z) with
  | S754_infinity _ => Raise OverflowError
  | f => Ok f
  end.

(** [a / b] on ints (correctly rounded). *)
Definition int_truediv (a b : Z) : py_result spec_float :=
  if Z.eqb b 0 then Raise ZeroDivisionError
  else match round_q (xorb (Z.ltb a 0) (Z.ltb b 0)) (inject_Z a / inject_Z b) with
       | S754_infinity _ => Raise OverflowError
       | f => Ok f
       end.

(** [int(x)], [math.ceil(x)] and [math.floor(x)] on a float. *)
Definition float_to_int (r : Q -> Z) (x : spec_float) : py_result Z :=
  match x with
  | S754_nan => Raise ValueError
  | S754_infinity _ => Raise OverflowError
  | _ => Ok (r (val x))
  end.

Definition py_int := float_to_int Qtrunc.
Definition py_ceil := float_to_int Qceiling.
Definition py_floor := float_to_int Qfloor.

(** [range(n)] for a Python int [n] (empty when [n <= 0]). *)
Definition py_range (n : Z) : list Z := map Z.of_nat (seq 0 (Z.to_nat n)).

(** A list comprehension whose body may raise. *)
Fixpoint map_py {A B} (f : A -> py_result B) (xs : list A) : py_result (list B) :=
  match xs with
  | [] => Ok []
  | x :: rest => let? b := f x in let? bs := map_py f rest in Ok (b :: bs)
  end.

(** ** Data model *)

(** A rectangle [(minX, maxX, minY, maxY)], as returned by [GetExtent]
    and [GetEnvelope] and stored in [LatLonPartition.partitions]. *)
Definition tile : Type := (spec_float * spec_float * spec_float * spec_float)%type.

Definition t_minX (p : tile) : spec_float := let '(a, _, _, _) := p in a.
Definition t_maxX (p : tile) : spec_float := let '(_, b, _, _) := p in b.
Definition t_minY (p : tile) : spec_float := let '(_, _, c, _) := p in c.
Definition t_maxY (p : tile) : spec_float := let '(_, _, _, d) := p in d.

(** A tile of float literals. *)
Definition ftile (a b c d : Q) : tile := (py_float a, py_float b, py_float c, py_float d).

(** An OGR feature: only its geometry is read by the partitioner; a
    feature is identified by its index [fidx] in its layer.  [None] is a
    NULL geometry; [Some env] is a geometry whose [GetEnvelope()] is
    [env]. *)
Record ogr_feature : Type := mk_feature {
  f_envelope : option tile
}.

(** An OGR layer: [GetName()], [GetExtent()] and [GetFeature(fidx)] for
    [fidx] in [range(GetFeatureCount())]. *)
Record ogr_layer : Type := mk_layer {
  l_name : string;
  l_extent : tile;
  l_features : list ogr_feature
}.

(** The tile identifier [f"{layer.GetName()}:{p0}-{p1}-{p2}-{p3}"], kept as
    the pair of the layer name and the four formatted bounds. *)
Record tile_id : Type := mk_tile_id {
  id_layer : string;
  id_bounds : tile
}.

(** Equality of the texts [f"{a}"] and [f"{b}"] of two floats: [repr]
    is the shortest text that reads back as the same double, so two
    finite non-zero floats print the same exactly when they are equal;
    [0.0] and [-0.0] print differently, as do [inf] and [-inf]; every NaN
    prints as [nan]. *)
Definition frepr_eqb (a b : spec_float) : bool :=
  match a, b with
  | S754_zero s, S754_zero s' => Bool.eqb s s'
  | S754_infinity s, S754_infinity s' => Bool.eqb s s'
  | S754_nan, S754_nan => true
  | S754_finite _ _ _, S754_finite _ _ _ => Qeq_bool (val a) (val b)
  | _, _ => false
  end.

(** String equality of two identifiers: same name and same printed
    bounds. *)
Definition tile_eqb (p q : tile) : bool :=
  frepr_eqb (t_minX p) (t_minX q) && frepr_eqb (t_maxX p) (t_maxX q)
  && frepr_eqb (t_minY p) (t_minY q) && frepr_eqb (t_maxY p) (t_maxY q).

Definition tile_id_eqb (a b : tile_id) : bool :=
  String.eqb (id_layer a) (id_layer b) && tile_eqb (id_bounds a) (id_bounds b).

(** The attributes of a [LatLonPartition] object.  [super(Partition)
    .__init__()] does not run [Partition.__init__] on the object, so
    [self.layer] does not exist until [set_layer] is called: [None] is
    this missing attribute, whose reading raises [AttributeError]. *)
Record latlon : Type := mk_latlon {
  pl_layer : option ogr_layer;
  pl_count : Z;
  pl_partitions : option (list tile)
}.

(** [LatLonPartition(count)] *)
Definition new_latlon (count : Z) : latlon := mk_latlon None count None.

(** [Partition.set_layer] *)
Definition set_layer (l : ogr_layer) (p : latlon) : latlon :=
  mk_latlon (Some l) (pl_count p) (pl_partitions p).

(** [LatLonPartition.partition_to_layer_name] for the layer [l]. *)
Definition partition_to_layer_name (l : ogr_layer) (part : tile) : tile_id :=
  mk_tile_id (l_name l) part.

(** ** Tile scheme (the computing branch of [create_partitions]) *)

(** The list of [partitions] computed from [extent] for [self.count],
    lines 73-104: [count / 2] is a true division of ints, [ceil] and
    [floor] of the resulting float give ints, [(extent[1] - extent[0]) //
    top] converts [top] to a float, [int(...)] truncates the float
    quotient, and [extent[0] + x * dt] converts the int [x * dt] to a
    float before the addition. *)
Definition compute_partitions (count : Z) (extent : tile) : py_result (list tile) :=
  let '(minX, maxX, minY, maxY) := extent in
  if Z.eqb count 1 then Ok [extent]
  else if Z.eqb count 2 then
    Ok [(minX, fdiv maxX f_two, minY, maxY); (fdiv maxX f_two, maxX, minY, maxY)]
  else
    let? half := int_truediv count 2 in
    let? top := py_ceil half in
    let? bottom := py_floor half in
    let? ft := int_to_float top in
    let? qt := py_floordiv (fsub maxX minX) ft in
    let? dt := py_int qt in
    let? fb := int_to_float bottom in
    let? qb := py_floordiv (fsub maxX minX) fb in
    let? db := py_int qb in
    let? tops := map_py (fun x =>
        let? a := int_to_float (x * dt) in
        let? b := int_to_float (dt * (x + 1)) in
        Ok (fadd minX a, fadd minX b, minY, fadd (floordiv_core (fsub maxY minY) f_two) minY))
      (py_range top) in
    let? bots := map_py (fun x =>
        let? a := int_to_float (x * db) in
        let? b := int_to_float (db * (x + 1)) in
        Ok (fadd minX a, fadd minX b, fadd (floordiv_core (fsub maxY minY) f_two) minY, maxY))
      (py_range bottom) in
    Ok (tops ++ bots).

(** ** Classification of one feature (body of [LatLonPartition.__call__]) *)

Inductive log_level : Type := LWarning | LError.

(** Observable effects: log records, file-system and OGR write calls, and
    the points where the partition generator yields an item. *)
Inductive event : Type :=
| EvLog (lvl : log_level) (msg : string)
| EvGetExtent
| EvMkdir (dir : string)
| EvRemove (dir : string) (key : tile_id)
| EvCreateDS (handle : nat) (dir : string) (key : tile_id)
| EvYield (fidx : nat)
| EvCreateFeature (handle : nat) (fidx : nat)
| EvSync (handle : nat).

(** The representative point [((minX + maxX) // 2, (minY + maxY) // 2)]:
    a float sum, then a floor division by the int [2] (converted to the
    non-zero float [2.0], so it cannot raise). *)
Definition rep_point (env : tile) : spec_float * spec_float :=
  let '(minX, maxX, minY, maxY) := env in
  (floordiv_core (fadd minX maxX) f_two, floordiv_core (fadd minY maxY) f_two).

(** [pMinX < x <= pMaxX and pMinY < y <= pMaxY] *)
Definition in_partition (part : tile) (x y : spec_float) : bool :=
  let '(pMinX, pMaxX, pMinY, pMaxY) := part in
  flt pMinX x && fle x pMaxX && flt pMinY y && fle y pMaxY.

(** The [for partition in self.partitions: ... break] scan. *)
Fixpoint scan (parts : list tile) (x y : spec_float) : option tile :=
  match parts with
  | [] => None
  | part :: rest => if in_partition part x y then Some part else scan rest x y
  end.

(** [self.partitions[-1]] *)
Definition py_last (parts : list tile) : py_result tile :=
  match rev parts with
  | [] => Raise IndexError
  | p :: _ => Ok p
  end.

(** The log records emitted and the key yielded for one feature, lines
    117-136; [None] is the [(None, None)] item. *)
Definition classify (l : ogr_layer) (parts : list tile) (f : ogr_feature)
  : list event * py_result (option tile_id) :=
  match f_envelope f with
  | None => ([EvLog LWarning "Found a NULL geometry"%string], Ok None)
  | Some env =>
    let '(x, y) := rep_point env in
    match scan parts x y with
    | Some part => ([], Ok (Some (partition_to_layer_name l part)))
    | None =>
      match py_last parts with
      | Ok part => ([], Ok (Some (partition_to_layer_name l part)))
      | Raise e => ([], Raise e)
      end
    end
  end.

(** ** The driver's state: file system, trace of effects, partition object *)

(** Paths under the output tree: a directory [Path(name)] and the file
    [Path(name) / f"{key}.fgb"]. *)
Inductive path : Type :=
| PDir (d : string)
| PFile (d : string) (key : tile_id).

Definition path_eqb (a b : path) : bool :=
  match a, b with
  | PDir d, PDir d' => String.eqb d d'
  | PFile d k, PFile d' k' => String.eqb d d' && tile_id_eqb k k'
  | _, _ => false
  end.

Record world : Type := mk_world {
  w_fs : list path;
  w_trace : list event;
  w_part : latlon
}.

(** State and exception monad: a raised exception keeps the effects
    performed before it. *)
Definition M (A : Type) : Type := world -> py_result A * world.

Definition ret {A} (a : A) : M A := fun w => (Ok a, w).

Definition bind {A B} (m : M A) (k : A -> M B) : M B :=
  fun w =>
    match m w with
    | (Ok a, w') => k a w'
    | (Raise e, w') => (Raise e, w')
    end.

Notation "x <- m ;; k" := (bind m (fun x => k))
  (at level 61, m at next level, right associativity).
Notation "m ;; k" := (bind m (fun _ => k))
  (at level 61, right associativity).

Definition raise {A} (e : py_exn) : M A := fun w => (Raise e, w).

Definition emit (e : event) : M unit :=
  fun w => (Ok tt, mk_world (w_fs w) (w_trace w ++ [e]) (w_part w)).

Definition get_part : M latlon := fun w => (Ok (w_part w), w).

Definition put_part (p : latlon) : M unit :=
  fun w => (Ok tt, mk_world (w_fs w) (w_trace w) p).

(** [Path.exists()] *)
Definition path_exists (p : path) : M bool :=
  fun w => (Ok (existsb (path_eqb p) (w_fs w)), w).

(** [dir.mkdir(parents=True)] *)
Definition mkdir (d : string) : M unit :=
  fun w => (Ok tt, mk_world (w_fs w ++ [PDir d]) (w_trace w ++ [EvMkdir d]) (w_part w)).

(** [os.remove(str(path))] *)
Definition remove_file (d : string) (k : tile_id) : M unit :=
  fun w => (Ok tt, mk_world (filter (fun q => negb (path_eqb (PFile d k) q)) (w_fs w))
                            (w_trace w ++ [EvRemove d k]) (w_part w)).

(** [driver.CreateDataSource(str(path))] followed by [ds.CreateLayer]; the
    returned handle [h] is the position of the key in [layer_names()].
    The [AlterFieldDefn] loop re-applies the new layer's own field
    definitions to itself and has no further effect. *)
Definition create_ds (h : nat) (d : string) (k : tile_id) : M unit :=
  fun w => (Ok tt, mk_world (w_fs w ++ [PFile d k]) (w_trace w ++ [EvCreateDS h d k]) (w_part w)).

(** ** [LatLonPartition] methods *)

(** [create_partitions], lines 64-104 ([GetExtent] is recorded as
    [EvGetExtent]); [self.layer is None] reads the missing attribute. *)
Definition create_partitions : M unit :=
  p <- get_part ;;
  match pl_layer p with
  | None => raise AttributeError
  | Some l =>
    match pl_partitions p with
    | Some _ => ret tt
    | None =>
      emit EvGetExtent ;;
      match compute_partitions (pl_count p) (l_extent l) with
      | Raise e => raise e
      | Ok ps => put_part (mk_latlon (pl_layer p) (pl_count p) (Some ps))
      end
    end
  end.

(** [LatLonPartition.layer_names], lines 106-109: iterating a [None]
    [partitions] raises [TypeError]; [partition_to_layer_name] reads
    [self.layer]. *)
Definition layer_names : M (list tile_id) :=
  create_partitions ;;
  p <- get_part ;;
  match pl_partitions p with
  | None => raise TypeError
  | Some [] => ret []
  | Some ps =>
    match pl_layer p with
    | None => raise AttributeError
    | Some l => ret (map (partition_to_layer_name l) ps)
    end
  end.

(** Start of the generator [LatLonPartition.__call__] (first [next]):
    [create_partitions()] then [range(self.layer.GetFeatureCount())]. *)
Definition latlon_call_start : M nat :=
  create_partitions ;;
  p <- get_part ;;
  match pl_layer p with
  | None => raise AttributeError
  | Some l => ret (List.length (l_features l))
  end.

(** One iteration of the generator's loop, up to its [yield]: the
    classification of feature [fidx], recorded by [EvYield fidx]. *)
Definition gen_item (fidx : nat) : M (option tile_id) :=
  p <- get_part ;;
  match pl_layer p with
  | None => raise AttributeError
  | Some l =>
    match nth_error (l_features l) fidx with
    | None => raise AttributeError
    | Some f =>
      match pl_partitions p, f_envelope f with
      | None, Some _ => raise TypeError
      | _, _ =>
        let '(logs, r) := classify l (match pl_partitions p with
                                      | Some ps => ps | None => [] end) f in
        fold_right (fun e m => emit e ;; m) (ret tt) logs ;;
        match r with
        | Raise e => raise e
        | Ok key => emit (EvYield fidx) ;; ret key
        end
      end
    end
  end.

(** ** [Layer.partition] and [Source.partition] *)

(** The dict [partitions: Dict[str, (DataSource, Layer)]] of the driver, in
    insertion order; a value is the handle of the data source. *)
Definition dict : Type := list (tile_id * nat).

(** [d[k] = v]: an existing key keeps its position and its key object. *)
Fixpoint dict_set (k : tile_id) (v : nat) (d : dict) : dict :=
  match d with
  | [] => [(k, v)]
  | (k', v') :: rest =>
    if tile_id_eqb k k' then (k', v) :: rest else (k', v') :: dict_set k v rest
  end.

(** [d[k]], [None] standing for a [KeyError]. *)
Fixpoint dict_lookup (k : tile_id) (d : dict) : option nat :=
  match d with
  | [] => None
  | (k', v) :: rest => if tile_id_eqb k k' then Some v else dict_lookup k rest
  end.

(** The [for key in partition.layer_names()] loop, lines 153-167. *)
Fixpoint create_outputs (dir : string) (h : nat) (keys : list tile_id) (d : dict)
  : M dict :=
  match keys with
  | [] => ret d
  | k :: rest =>
    b <- path_exists (PFile dir k) ;;
    (if b then remove_file dir k else ret tt) ;;
    create_ds h dir k ;;
    create_outputs dir (S h) rest (dict_set k h d)
  end.

(** The [for (key, feature) in tqdm(partition(), ...)] loop, lines 169-178:
    the generator runs one iteration per item the loop requests. *)
Fixpoint feed (d : dict) (fidxs : list nat) : M unit :=
  match fidxs with
  | [] => ret tt
  | fidx :: rest =>
    key <- gen_item fidx ;;
    match key with
    | None => ret tt
    | Some k =>
      match dict_lookup k d with
      | None => raise KeyError
      | Some h => emit (EvCreateFeature h fidx)
      end
    end ;;
    feed d rest
  end.

(** [for (ds, __) in partitions.values(): ds.SyncToDisk()] *)
Fixpoint sync_all (d : dict) : M unit :=
  match d with
  | [] => ret tt
  | (_, h) :: rest => emit (EvSync h) ;; sync_all rest
  end.

(** [Layer(self_layer).partition(partition, name)], lines 143-183; the
    partition object is [w_part]. *)
Definition layer_partition (self_layer : ogr_layer) (name : string)
  : M (list tile_id) :=
  b <- path_exists (PDir name) ;;
  if b then
    emit (EvLog LError (name ++ " already exists")%string) ;;
    ret []
  else
    mkdir name ;;
    p <- get_part ;;
    put_part (set_layer self_layer p) ;;
    keys <- layer_names ;;
    d <- create_outputs name 0 keys [] ;;
    n <- latlon_call_start ;;
    feed d (seq 0 n) ;;
    sync_all d ;;
    ret (map fst d).

(** [Source.partition], lines 205-215: every layer of the source is
    partitioned with the same partition object and the same [name]. *)
Fixpoint source_partition (layers : list ogr_layer) (name : string)
  : M (list tile_id) :=
  match layers with
  | [] => ret []
  | l :: rest =>
    ks <- layer_partition l name ;;
    ks' <- source_partition rest name ;;
    ret (ks ++ ks')
  end.

(** The command-line check of lines 338-339, run before [main]. *)
Definition cli_check (layers : Z) : option string :=
  if Z.ltb layers 1 then Some "You must have at least 1 output layer"%string else None.

(** ** Observations on traces *)

(** Events of the per-feature phase: a generator step and a feature
    write. *)
Definition is_feature_event (e : event) : bool :=
  match e with
  | EvYield _ | EvCreateFeature _ _ => true
  | _ => false
  end.

(** Calls that write to the output tree. *)
Definition is_write (e : event) : bool :=
  match e with
  | EvRemove _ _ | EvCreateDS _ _ _ | EvCreateFeature _ _ | EvSync _ => true
  | _ => false
  end.

(** "Every write happens after every classification" on a trace. *)
Definition writes_after_classification (tr : list event) : Prop :=
  forall i j e fidx,
    nth_error tr i = Some e -> is_write e = true ->
    nth_error tr j = Some (EvYield fidx) -> (j < i)%nat.

(** The events of one iteration of the driver's loop for feature [fidx]
    when the scheme is [ps] and the output dict is [d]: the generator's
    log records, its [yield], then the [CreateFeature] of the driver. *)
Definition feature_events (l : ogr_layer) (ps : list tile) (d : dict) (fidx : nat)
  : list event :=
  match nth_error (l_features l) fidx with
  | None => []
  | Some f =>
    let '(logs, r) := classify l ps f in
    match r with
    | Raise _ => logs
    | Ok None => logs ++ [EvYield fidx]
    | Ok (Some k) =>
      logs ++ EvYield fidx ::
        match dict_lookup k d with
        | Some h => [EvCreateFeature h fidx]
        | None => []
        end
    end
  end.

(** The indices of the features written by [CreateFeature], in the order
    of the calls. *)
Fixpoint written (tr : list event) : list nat :=
  match tr with
  | [] => []
  | EvCreateFeature _ fidx :: rest => fidx :: written rest
  | _ :: rest => written rest
  end.

(** [feature.geometry() is not None] for the feature of index [fidx]. *)
Definition has_geometry (l : ogr_layer) (fidx : nat) : bool :=
  match nth_error (l_features l) fidx with
  | Some f => match f_envelope f with Some _ => true | None => false end
  | None => false
  end.

(** No two identifiers of the list are equal as strings. *)
Fixpoint keys_distinct (ks : list tile_id) : Prop :=
  match ks with
  | [] => True
  | k :: rest => Forall (fun k' => tile_id_eqb k k' = false) rest /\ keys_distinct rest
  end.

(** A computation that leaves the file system as it finds it. *)
Definition keeps_fs {A} (m : M A) : Prop :=
  forall w r w', m w = (r, w') -> w_fs w' = w_fs w.

(** ** [shape_file_regex.fullmatch(file)], line 218 *)

(** [.] matches any character but a newline. *)
Fixpoint newline_free (s : string) : bool :=
  match s with
  | EmptyString => true
  | String c rest => negb (Ascii.eqb c "010"%char) && newline_free rest
  end.

(** The pattern [.+\.(shp|fgb)$] matched against the whole of [s]: after
    [.+] has consumed at least one character ([consumed]), the rest may be
    [\.(shp|fgb)] at the end of the string; otherwise [.+] takes one more
    character, which is not a newline. *)
Fixpoint dotplus_ext (consumed : bool) (s : string) : bool :=
  (consumed && (String.eqb s ".shp" || String.eqb s ".fgb")) ||
  match s with
  | EmptyString => false
  | String c rest => negb (Ascii.eqb c "010"%char) && dotplus_ext true rest
  end.

Definition shape_file_fullmatch (file : string) : bool := dotplus_ext false file.

(** ** Rounding to doubles *)

Lemma pow2_pos (e : Z) : 0 < pow2 e.
Proof. unfold pow2; apply Qpower_0_lt; reflexivity. Qed.

Lemma pow2_nonzero (e : Z) : ~ pow2 e == 0.
Proof. intros H; pose proof (pow2_pos e) as P; rewrite H in P; discriminate. Qed.

Lemma pow2_add (a b : Z) : pow2 (a + b) == pow2 a * pow2 b.
Proof. unfold pow2; apply Qpower_plus; discriminate. Qed.

Lemma pow2_le (a b : Z) : (a <= b)%Z -> pow2 a <= pow2 b.
Proof. intros H; unfold pow2; apply Qpower_le_compat_l; [exact H|discriminate]. Qed.

Lemma pow2_lt (a b : Z) : (a < b)%Z -> pow2 a < pow2 b.
Proof. intros H; unfold pow2; apply Qpower_lt_compat_l; [exact H|reflexivity]. Qed.

Lemma pow2_le_inv (a b : Z) : pow2 a <= pow2 b -> (a <= b)%Z.
Proof. intros H; unfold pow2 in H; apply Qpower_le_compat_l_inv in H; [exact H|reflexivity]. Qed.

Lemma pow2_lt_inv (a b : Z) : pow2 a < pow2 b -> (a < b)%Z.
Proof. intros H; unfold pow2 in H; apply Qpower_lt_compat_l_inv in H; [exact H|reflexivity]. Qed.

Lemma pow2_Z (e : Z) : (0 <= e)%Z -> pow2 e == inject_Z (2 ^ e).
Proof. intros H; unfold pow2; rewrite Zpower_Qpower by exact H; reflexivity. Qed.

Lemma pow2_succ (e : Z) : pow2 (Z.succ e) == 2 * pow2 e.
Proof. rewrite <- Z.add_1_r, pow2_add; unfold pow2 at 2; simpl; ring. Qed.

Lemma Qlog2_spec (a : Q) : 0 < a -> pow2 (Qlog2 a) <= a /\ a < pow2 (Qlog2 a + 1).
Proof.
  destruct a as [n d]; intros Ha.
  assert (Hn : (0 < n)%Z).
  { unfold Qlt in Ha; simpl in Ha; lia. }
  unfold Qlog2; cbn [Qnum Qden].
  set (ln := Z.log2 n); set (ld := Z.log2 (Z.pos d)); set (k := (ln - ld)%Z).
  destruct (Z.log2_spec n Hn) as [N1 N2]; fold ln in N1, N2.
  destruct (Z.log2_spec (Z.pos d) ltac:(lia)) as [D1 D2]; fold ld in D1, D2.
  assert (Lln : (0 <= ln)%Z) by apply Z.log2_nonneg.
  assert (Lld : (0 <= ld)%Z) by apply Z.log2_nonneg.
  assert (Ea : n # d == inject_Z n / inject_Z (Z.pos d)) by (rewrite Qmake_Qdiv; reflexivity).
  assert (Hd : 0 < inject_Z (Z.pos d)) by (unfold Qlt; simpl; lia).
  (* pow2 (k - 1) < a *)
  assert (A : pow2 (k - 1) < n # d).
  { rewrite Ea; apply Qlt_shift_div_l; [exact Hd|].
    apply Qlt_le_trans with (pow2 (k - 1) * pow2 (ld + 1)).
    - apply Qmult_lt_l; [apply pow2_pos|].
      rewrite pow2_Z by lia; rewrite <- Zlt_Qlt; replace (ld + 1)%Z with (Z.succ ld) by lia; exact D2.
    - rewrite <- pow2_add; replace (k - 1 + (ld + 1))%Z with ln by lia.
      rewrite pow2_Z by lia; rewrite <- Zle_Qle; exact N1. }
  assert (B : n # d < pow2 (k + 1)).
  { rewrite Ea; apply Qlt_shift_div_r; [exact Hd|].
    apply Qlt_le_trans with (pow2 (k + 1) * pow2 ld).
    - rewrite <- pow2_add; replace (k + 1 + ld)%Z with (Z.succ ln) by lia.
      rewrite pow2_Z by lia; rewrite <- Zlt_Qlt; exact N2.
    - apply Qmult_le_l; [apply pow2_pos|].
      rewrite pow2_Z by lia; rewrite <- Zle_Qle; exact D1. }
  fold k.
  destruct (Qle_bool (pow2 k) (n # d)) eqn:E.
  - apply Qle_bool_iff in E; split; [exact E|exact B].
  - split; [now apply Qlt_le_weak|].
    replace (k - 1 + 1)%Z with k by lia.
    apply Qnot_le_lt; intros H; apply Qle_bool_iff in H; congruence.
Qed.

Lemma Qlog2_unique (a : Q) (k : Z) : pow2 k <= a -> a < pow2 (k + 1) -> Qlog2 a = k.
Proof.
  intros H1 H2.
  assert (Ha : 0 < a) by (eapply Qlt_le_trans; [apply pow2_pos|exact H1]).
  destruct (Qlog2_spec a Ha) as [L1 L2].
  assert (X1 : (Qlog2 a < k + 1)%Z) by (apply pow2_lt_inv; eapply Qle_lt_trans; eauto).
  assert (X2 : (k < Qlog2 a + 1)%Z) by (apply pow2_lt_inv; eapply Qle_lt_trans; eauto).
  lia.
Qed.

Lemma Qlt_bool_iff (a b : Q) : Qlt_bool a b = true <-> a < b.
Proof.
  unfold Qlt_bool; rewrite negb_true_iff; split.
  - intros H; apply Qnot_le_lt; intros H'; apply Qle_bool_iff in H'; congruence.
  - intros H; destruct (Qle_bool b a) eqn:E; [|reflexivity].
    apply Qle_bool_iff in E; exfalso; exact (Qlt_not_le _ _ H E).
Qed.

Lemma Qlt_bool_false (a b : Q) : Qlt_bool a b = false <-> b <= a.
Proof.
  unfold Qlt_bool; rewrite negb_false_iff; apply Qle_bool_iff.
Qed.

Lemma rne_spec (x : Q) :
  inject_Z (rne x) - (1 # 2) <= x /\ x <= inject_Z (rne x) + (1 # 2) /\
  (x == inject_Z (rne x) + (1 # 2) \/ x == inject_Z (rne x) - (1 # 2) -> Z.even (rne x) = true).
Proof.
  unfold rne; cbv zeta.
  pose proof (Qfloor_le x) as F1; pose proof (Qlt_floor x) as F2.
  rewrite inject_Z_plus in F2; change (inject_Z 1) with 1 in F2.
  set (f := Qfloor x) in *.
  destruct (Qlt_bool (x - inject_Z f) (1 # 2)) eqn:E1;
    [apply Qlt_bool_iff in E1|apply Qlt_bool_false in E1].
  - split; [lra|split; [lra|intros [H|H]; exfalso; lra]].
  - destruct (Qlt_bool (1 # 2) (x - inject_Z f)) eqn:E2;
      [apply Qlt_bool_iff in E2|apply Qlt_bool_false in E2];
      rewrite ?Z.add_1_r.
    + rewrite <- Z.add_1_r, inject_Z_plus.
      change (inject_Z 1) with 1; split; [lra|split; [lra|intros [H|H]; exfalso; lra]].
    + destruct (Z.even f) eqn:Ev.
      * split; [lra|split; [lra|auto]].
      * rewrite <- Z.add_1_r, inject_Z_plus; change (inject_Z 1) with 1.
        split; [lra|split; [lra|]].
        intros _; rewrite Z.add_1_r, Z.even_succ, <- Z.negb_even, Ev; reflexivity.
Qed.

Lemma Zle_inject (a b : Z) : (a <= b)%Z -> inject_Z a <= inject_Z b.
Proof. intros H; rewrite <- Zle_Qle; exact H. Qed.

Lemma rne_unique (x : Q) (z : Z) :
  inject_Z z - (1 # 2) <= x -> x <= inject_Z z + (1 # 2) ->
  (x == inject_Z z + (1 # 2) \/ x == inject_Z z - (1 # 2) -> Z.even z = true) ->
  rne x = z.
Proof.
  intros H1 H2 H3.
  destruct (rne_spec x) as (R1 & R2 & R3).
  set (r := rne x) in *.
  destruct (Z.lt_trichotomy z r) as [Lt|[Eq|Gt]]; [exfalso| exact (eq_sym Eq) |exfalso].
  - assert (Hr : r = (z + 1)%Z).
    { destruct (Z.le_gt_cases r (z + 1)) as [Hle|Hgt]; [lia|].
      pose proof (Zle_inject (z + 2) r ltac:(lia)) as Q1; rewrite inject_Z_plus in Q1.
      change (inject_Z 2) with 2 in Q1; lra. }
    rewrite Hr, inject_Z_plus in R1, R3; change (inject_Z 1) with 1 in R1, R3.
    assert (E1 : Z.even z = true) by (apply H3; left; lra).
    assert (E2 : Z.even (z + 1) = true) by (apply R3; right; lra).
    rewrite Z.add_1_r, Z.even_succ, <- Z.negb_even, E1 in E2; discriminate.
  - assert (Hr : z = (r + 1)%Z).
    { destruct (Z.le_gt_cases z (r + 1)) as [Hle|Hgt]; [lia|].
      pose proof (Zle_inject (r + 2) z ltac:(lia)) as Q1; rewrite inject_Z_plus in Q1.
      change (inject_Z 2) with 2 in Q1; lra. }
    rewrite Hr, inject_Z_plus in H1, H3; change (inject_Z 1) with 1 in H1, H3.
    assert (E1 : Z.even r = true) by (apply R3; left; lra).
    assert (E2 : Z.even (r + 1) = true) by (apply H3; right; lra).
    rewrite Z.add_1_r, Z.even_succ, <- Z.negb_even, E1 in E2; discriminate.
Qed.

Lemma rne_Z (z : Z) : rne (inject_Z z) = z.
Proof. apply rne_unique; [lra|lra|intros [H|H]; exfalso; lra]. Qed.

Lemma rne_compat (x y : Q) : x == y -> rne x = rne y.
Proof.
  intros E; destruct (rne_spec y) as (R1 & R2 & R3).
  apply rne_unique; [lra|lra|intros H; apply R3; lra].
Qed.

Lemma rne_opp (x : Q) : rne (- x) = (- rne x)%Z.
Proof.
  destruct (rne_spec x) as (R1 & R2 & R3).
  apply rne_unique; rewrite ?inject_Z_opp; [lra|lra|].
  intros H; rewrite Z.even_opp; apply R3; lra.
Qed.

Lemma rne_mono (x y : Q) : x <= y -> (rne x <= rne y)%Z.
Proof.
  intros Hxy.
  destruct (rne_spec x) as (R1 & R2 & R3); destruct (rne_spec y) as (S1 & S2 & S3).
  destruct (Z.le_gt_cases (rne x) (rne y)) as [H|H]; [exact H|exfalso].
  assert (Hr : rne x = (rne y + 1)%Z).
  { destruct (Z.le_gt_cases (rne x) (rne y + 1)) as [Hle|Hgt]; [lia|].
    pose proof (Zle_inject (rne y + 2) (rne x) ltac:(lia)) as Q1; rewrite inject_Z_plus in Q1.
    change (inject_Z 2) with 2 in Q1; lra. }
  rewrite Hr, inject_Z_plus in R1, R3; change (inject_Z 1) with 1 in R1, R3.
  assert (E1 : Z.even (rne y) = true) by (apply S3; left; lra).
  assert (E2 : Z.even (rne y + 1) = true) by (apply R3; right; lra).
  rewrite Z.add_1_r, Z.even_succ, <- Z.negb_even, E1 in E2; discriminate.
Qed.

Lemma Qabs_opp_eq (q : Q) : Qabs (- q) = Qabs q.
Proof. destruct q as [n d]; unfold Qabs, Qopp; simpl; now rewrite Z.abs_opp. Qed.

Lemma b64_exp_opp (q : Q) : b64_exp (- q) = b64_exp q.
Proof. unfold b64_exp; now rewrite Qabs_opp_eq. Qed.

Lemma b64_exp_ge (q : Q) : (b64_emin <= b64_exp q)%Z.
Proof. unfold b64_exp; lia. Qed.

Lemma Qabs_pos_lt (q : Q) : ~ q == 0 -> 0 < Qabs q.
Proof.
  intros H; destruct (Qlt_le_dec 0 q) as [P|P].
  - rewrite Qabs_pos by lra; exact P.
  - rewrite Qabs_neg by exact P; destruct (Qeq_dec q 0); [contradiction|lra].
Qed.

Lemma b64_exp_upper (q : Q) : ~ q == 0 -> Qabs q < pow2 (b64_exp q + 53).
Proof.
  intros H; destruct (Qlog2_spec (Qabs q) (Qabs_pos_lt q H)) as [_ U].
  eapply Qlt_le_trans; [exact U|apply pow2_le]; unfold b64_exp, b64_prec; lia.
Qed.

Lemma b64_exp_lower (q : Q) : (b64_emin < b64_exp q)%Z -> ~ q == 0 ->
  pow2 (b64_exp q + 52) <= Qabs q.
Proof.
  intros He H; destruct (Qlog2_spec (Qabs q) (Qabs_pos_lt q H)) as [L _].
  unfold b64_exp, b64_prec in *.
  replace (Z.max (Qlog2 (Qabs q) - (53 - 1)) b64_emin + 52)%Z with (Qlog2 (Qabs q)) by lia.
  exact L.
Qed.

Lemma b64_exp_mono (q1 q2 : Q) : ~ q1 == 0 -> Qabs q1 <= Qabs q2 ->
  (b64_exp q1 <= b64_exp q2)%Z.
Proof.
  intros H1 H.
  assert (H2 : ~ q2 == 0).
  { intros E; pose proof (Qabs_pos_lt q1 H1); rewrite (Qabs_wd _ _ E) in H; simpl in H; lra. }
  destruct (Qlog2_spec (Qabs q1) (Qabs_pos_lt q1 H1)) as [A1 _].
  destruct (Qlog2_spec (Qabs q2) (Qabs_pos_lt q2 H2)) as [_ B2].
  assert (Qlog2 (Qabs q1) < Qlog2 (Qabs q2) + 1)%Z.
  { apply pow2_lt_inv; lra. }
  unfold b64_exp; lia.
Qed.

Lemma rval_zero (q : Q) : q == 0 -> rval q == 0.
Proof.
  intros H; unfold rval.
  rewrite (rne_compat _ 0) by (rewrite H at 1; reflexivity).
  change (rne 0) with (rne (inject_Z 0)); rewrite (rne_Z 0); ring.
Qed.

Lemma rval_opp (q : Q) : rval (- q) == - rval q.
Proof.
  unfold rval; rewrite b64_exp_opp.
  rewrite (rne_compat _ (- (q / pow2 (b64_exp q)))) by (unfold Qdiv; ring).
  rewrite rne_opp, inject_Z_opp; ring.
Qed.

Lemma div_pow2_le (q : Q) (e k : Z) : (e <= k)%Z -> q <= pow2 k ->
  q / pow2 e <= inject_Z (2 ^ (k - e)).
Proof.
  intros Hk H; apply Qle_shift_div_r; [apply pow2_pos|].
  rewrite <- pow2_Z by lia; rewrite <- pow2_add; now replace (k - e + e)%Z with k by lia.
Qed.

Lemma div_pow2_ge (q : Q) (e k : Z) : (e <= k)%Z -> pow2 k <= q ->
  inject_Z (2 ^ (k - e)) <= q / pow2 e.
Proof.
  intros Hk H; apply Qle_shift_div_l; [apply pow2_pos|].
  rewrite <- pow2_Z by lia; rewrite <- pow2_add; now replace (k - e + e)%Z with k by lia.
Qed.

Lemma int_pow2 (k e : Z) : (e <= k)%Z -> inject_Z (2 ^ (k - e)) * pow2 e == pow2 k.
Proof.
  intros Hk; rewrite <- pow2_Z by lia; rewrite <- pow2_add; now replace (k - e + e)%Z with k by lia.
Qed.

Lemma rval_le_pow2 (q : Q) (k : Z) : (b64_exp q <= k)%Z -> q <= pow2 k -> rval q <= pow2 k.
Proof.
  intros Hk H; unfold rval.
  rewrite <- (int_pow2 k (b64_exp q) Hk).
  apply Qmult_le_compat_r; [|apply Qlt_le_weak, pow2_pos].
  rewrite <- Zle_Qle, <- (rne_Z (2 ^ (k - b64_exp q))).
  apply rne_mono, div_pow2_le; assumption.
Qed.

Lemma rval_ge_pow2 (q : Q) (k : Z) : (b64_exp q <= k)%Z -> pow2 k <= q -> pow2 k <= rval q.
Proof.
  intros Hk H; unfold rval.
  apply Qle_trans with (inject_Z (2 ^ (k - b64_exp q)) * pow2 (b64_exp q));
    [rewrite (int_pow2 k (b64_exp q) Hk); apply Qle_refl|].
  apply Qmult_le_compat_r; [|apply Qlt_le_weak, pow2_pos].
  rewrite <- Zle_Qle.
  rewrite <- (rne_Z (2 ^ (k - b64_exp q))) at 1.
  apply rne_mono, div_pow2_ge; assumption.
Qed.

Lemma rval_nonneg (q : Q) : 0 <= q -> 0 <= rval q.
Proof.
  intros H; unfold rval.
  apply Qmult_le_0_compat; [|apply Qlt_le_weak, pow2_pos].
  change 0 with (inject_Z 0); rewrite <- Zle_Qle, <- (rne_Z 0).
  apply rne_mono, Qle_shift_div_l; [apply pow2_pos|].
  rewrite Qmult_0_l; exact H.
Qed.

Lemma rval_pos_mono (q1 q2 : Q) : 0 < q1 -> q1 <= q2 -> rval q1 <= rval q2.
Proof.
  intros P1 H.
  assert (N1 : ~ q1 == 0) by (intros E; rewrite E in P1; discriminate).
  assert (N2 : ~ q2 == 0) by (intros E; rewrite E in H; lra).
  assert (A1 : Qabs q1 == q1) by (apply Qabs_pos; lra).
  assert (A2 : Qabs q2 == q2) by (apply Qabs_pos; lra).
  assert (Hm := b64_exp_mono q1 q2 N1 ltac:(rewrite A1, A2; exact H)).
  destruct (Z.eq_dec (b64_exp q1) (b64_exp q2)) as [E|E].
  - unfold rval; rewrite E.
    apply Qmult_le_compat_r; [|apply Qlt_le_weak, pow2_pos].
    rewrite <- Zle_Qle; apply rne_mono.
    apply Qmult_le_compat_r; [exact H|].
    apply Qinv_le_0_compat, Qlt_le_weak, pow2_pos.
  - set (k := (b64_exp q2 + 52)%Z).
    assert (L2 : pow2 k <= q2) by (rewrite <- A2; apply b64_exp_lower; [|exact N2];
                                   pose proof (b64_exp_ge q1); lia).
    assert (U1 : q1 <= pow2 k).
    { apply Qlt_le_weak; rewrite <- A1; eapply Qlt_le_trans; [apply b64_exp_upper, N1|].
      apply pow2_le; unfold k; lia. }
    apply Qle_trans with (pow2 k).
    + apply rval_le_pow2; [unfold k; lia|exact U1].
    + apply rval_ge_pow2; [unfold k; lia|exact L2].
Qed.

Lemma rval_mono (q1 q2 : Q) : q1 <= q2 -> rval q1 <= rval q2.
Proof.
  intros H.
  destruct (Qlt_le_dec 0 q1) as [P1|P1]; [exact (rval_pos_mono q1 q2 P1 H)|].
  destruct (Qlt_le_dec q2 0) as [N2|N2].
  - destruct (Qeq_dec q1 0) as [Z1|Z1]; [rewrite Z1 in H; exfalso; lra|].
    assert (P : 0 < - q2) by lra.
    pose proof (rval_pos_mono (- q2) (- q1) P ltac:(lra)) as M.
    rewrite !rval_opp in M; lra.
  - apply Qle_trans with 0.
    + destruct (Qeq_dec q1 0) as [Z1|Z1]; [rewrite (rval_zero q1 Z1); lra|].
      pose proof (rval_nonneg (- q1) ltac:(lra)) as M; rewrite rval_opp in M; lra.
    + exact (rval_nonneg q2 N2).
Qed.

Lemma rval_compat (q1 q2 : Q) : q1 == q2 -> rval q1 == rval q2.
Proof.
  intros E; apply Qle_antisym; apply rval_mono; rewrite E; apply Qle_refl.
Qed.

Lemma Qabs_inject_Z (m : Z) : Qabs (inject_Z m) = inject_Z (Z.abs m).
Proof. reflexivity. Qed.

Lemma rval_exact (m f : Z) : (Z.abs m < 2 ^ 53)%Z -> (b64_emin <= f)%Z ->
  rval (inject_Z m * pow2 f) == inject_Z m * pow2 f.
Proof.
  intros Hm Hf.
  destruct (Z.eq_dec m 0) as [->|Nm]; [rewrite (rval_zero (inject_Z 0 * pow2 f)) by ring; ring|].
  set (q := inject_Z m * pow2 f).
  assert (Nq : ~ q == 0).
  { unfold q; intros E; apply Qmult_integral in E; destruct E as [E|E];
      [apply Nm; apply inject_Z_injective; exact E|exact (pow2_nonzero f E)]. }
  assert (Hle : (b64_exp q <= f)%Z).
  { destruct (Qlog2_spec (Qabs q) (Qabs_pos_lt q Nq)) as [L _].
    assert (Aq : Qabs q == inject_Z (Z.abs m) * pow2 f).
    { unfold q; rewrite Qabs_Qmult, Qabs_inject_Z, (Qabs_pos (pow2 f)) by
        (apply Qlt_le_weak, pow2_pos); reflexivity. }
    assert (U : Qabs q < pow2 (f + 53)).
    { rewrite Aq, pow2_add, (pow2_Z 53) by lia; rewrite Qmult_comm.
      apply Qmult_lt_l; [apply pow2_pos|]; rewrite <- Zlt_Qlt; exact Hm. }
    assert (Qlog2 (Qabs q) < f + 53)%Z by (apply pow2_lt_inv; eapply Qle_lt_trans; eauto).
    unfold b64_exp, b64_prec; lia. }
  unfold rval; set (e := b64_exp q) in *.
  assert (Eq : q / pow2 e == inject_Z (m * 2 ^ (f - e))).
  { rewrite inject_Z_mult, <- pow2_Z by lia; unfold q.
    setoid_replace (pow2 f) with (pow2 (f - e) * pow2 e) at 1
      by (rewrite <- pow2_add; now replace (f - e + e)%Z with f by lia).
    field; apply pow2_nonzero. }
  rewrite (rne_compat _ _ Eq), rne_Z, inject_Z_mult, <- pow2_Z by lia.
  unfold q; rewrite <- Qmult_assoc, <- pow2_add; now replace (f - e + e)%Z with f by lia.
Qed.

#[global] Instance rval_Proper : Morphisms.Proper (Qeq ==> Qeq) rval.
Proof. intros a b E; exact (rval_compat a b E). Qed.

Lemma div_pow2_eq (q : Q) (e : Z) : q == q / pow2 e * pow2 e.
Proof. field; apply pow2_nonzero. Qed.

Lemma rval_err (q : Q) : Qabs (rval q - q) <= pow2 (b64_exp q) * (1 # 2).
Proof.
  unfold rval; set (e := b64_exp q); set (x := q / pow2 e).
  destruct (rne_spec x) as (R1 & R2 & _).
  assert (Hq : q == x * pow2 e) by apply div_pow2_eq.
  assert (P := pow2_pos e).
  apply Qabs_Qle_condition; rewrite Hq; split; nra.
Qed.

Lemma pow2_exp_small (q : Q) : ~ q == 0 -> pow2 (b64_exp q) <= Qabs q + 1.
Proof.
  intros N.
  destruct (Z.eq_dec (b64_exp q) b64_emin) as [E|E].
  - rewrite E; pose proof (pow2_le b64_emin 0 ltac:(unfold b64_emin, b64_emax, b64_prec; lia)).
    pose proof (Qabs_nonneg q); change (pow2 0) with 1 in H; lra.
  - pose proof (b64_exp_lower q ltac:(pose proof (b64_exp_ge q); lia) N).
    pose proof (pow2_le (b64_exp q) (b64_exp q + 52) ltac:(lia)). lra.
Qed.

Lemma rval_bound (q : Q) : Qabs (rval q) <= 2 * Qabs q + 1.
Proof.
  destruct (Qeq_dec q 0) as [Z0|N].
  - rewrite (Qabs_wd _ _ (rval_zero q Z0)); simpl; pose proof (Qabs_nonneg q); lra.
  - pose proof (rval_err q) as E; pose proof (pow2_exp_small q N) as S.
    pose proof (Qabs_triangle (rval q - q) q) as T.
    setoid_replace (rval q - q + q) with (rval q) in T by ring.
    pose proof (Qabs_nonneg q); lra.
Qed.

Lemma rne_range (q : Q) : ~ q == 0 ->
  (- 2 ^ 53 <= rne (q / pow2 (b64_exp q)) <= 2 ^ 53)%Z.
Proof.
  intros N; pose proof (b64_exp_upper q N) as U.
  rewrite pow2_add, (pow2_Z 53) in U by lia.
  set (e := b64_exp q) in *.
  assert (P := pow2_pos e).
  assert (B : - inject_Z (2 ^ 53) <= q / pow2 e <= inject_Z (2 ^ 53)).
  { apply Qabs_Qle_condition.
    unfold Qdiv; rewrite Qabs_Qmult, Qabs_Qinv, (Qabs_pos (pow2 e)) by lra.
    apply Qle_shift_div_r; [exact P|]; rewrite Qmult_comm; lra. }
  destruct B as [B1 B2]; split.
  - rewrite <- (rne_Z (- 2 ^ 53)); apply rne_mono; rewrite inject_Z_opp; exact B1.
  - rewrite <- (rne_Z (2 ^ 53)); apply rne_mono; exact B2.
Qed.

Lemma rval_idem (q : Q) : rval (rval q) == rval q.
Proof.
  destruct (Qeq_dec q 0) as [Z0|N].
  - rewrite (rval_compat _ _ (rval_zero q Z0)), (rval_zero q Z0).
    apply rval_zero; reflexivity.
  - pose proof (rne_range q N) as R; pose proof (b64_exp_ge q) as G.
    unfold rval at 2 3; set (e := b64_exp q) in *; set (r := rne (q / pow2 e)) in *.
    destruct (Z.eq_dec (Z.abs r) (2 ^ 53)) as [A|A].
    + assert (Er : inject_Z r * pow2 e == inject_Z (r / 2) * pow2 (e + 1)).
      { rewrite pow2_add; change (pow2 1) with 2.
        setoid_replace (inject_Z (r / 2) * (pow2 e * 2)) with (inject_Z (r / 2 * 2) * pow2 e)
          by (rewrite inject_Z_mult; change (inject_Z 2) with 2; ring).
        replace (r / 2 * 2)%Z with r; [reflexivity|].
        destruct (Z.abs_spec r) as [[_ Hr]|[_ Hr]]; rewrite Hr in A.
        - rewrite A; reflexivity.
        - replace r with (- (2 ^ 53))%Z by lia; reflexivity. }
      rewrite (rval_compat _ _ Er), Er.
      apply rval_exact; [|lia].
      destruct (Z.abs_spec r) as [[_ Hr]|[_ Hr]]; rewrite Hr in A.
      * rewrite A; reflexivity.
      * replace r with (- (2 ^ 53))%Z by lia; reflexivity.
    + apply rval_exact; lia.
Qed.


Lemma rval_maxfloat_succ : rval (maxfloat + 1) == maxfloat.
Proof. apply Qeq_bool_iff; vm_compute; reflexivity. Qed.

Lemma rval_maxfloat : rval maxfloat == maxfloat.
Proof. apply rval_exact; [reflexivity|unfold b64_emin, b64_emax, b64_prec; lia]. Qed.

Lemma rval_pow1024 : rval (pow2 1024) == pow2 1024.
Proof.
  rewrite (rval_compat (pow2 1024) (inject_Z 1 * pow2 1024)) by ring.
  rewrite rval_exact; [ring|reflexivity|unfold b64_emin, b64_emax, b64_prec; lia].
Qed.

Lemma rval_abs (q : Q) : Qabs (rval q) == rval (Qabs q).
Proof.
  destruct (Qlt_le_dec q 0) as [Nq|Pq].
  - rewrite (Qabs_neg q) by lra; rewrite rval_opp.
    pose proof (rval_mono q 0 ltac:(lra)) as M; rewrite (rval_zero 0) in M by reflexivity.
    apply Qabs_neg; exact M.
  - rewrite (rval_compat (Qabs q) q) by (apply Qabs_pos; exact Pq).
    apply Qabs_pos, rval_nonneg, Pq.
Qed.

Lemma rval_max (q : Q) : Qabs (rval q) < pow2 1024 -> Qabs (rval q) <= maxfloat.
Proof.
  rewrite !rval_abs; set (a := Qabs q); assert (Ha : 0 <= a) by apply Qabs_nonneg.
  intros H.
  destruct (Qlt_le_dec maxfloat a) as [Big|Small].
  - destruct (Qlt_le_dec a (pow2 1024)) as [Lt|Ge].
    2:{ pose proof (rval_mono _ _ Ge) as M; rewrite rval_pow1024 in M; lra. }
    assert (Na : ~ a == 0) by (intros E; rewrite E in Big; unfold maxfloat in Big;
                                pose proof (pow2_pos 971); 
                                exfalso; apply (Qlt_not_le _ _ Big);
                                apply Qmult_le_0_compat; [discriminate|lra]).
    assert (L : Qlog2 (Qabs a) = 1023%Z).
    { apply Qlog2_unique; rewrite (Qabs_pos a Ha); [|exact Lt].
      apply Qlt_le_weak; eapply Qle_lt_trans; [|exact Big].
      unfold maxfloat; rewrite <- (int_pow2 1023 971) by lia.
      apply Qmult_le_compat_r; [rewrite <- Zle_Qle; apply Z.leb_le; reflexivity|apply Qlt_le_weak, pow2_pos]. }
    assert (Ee : b64_exp a = 971%Z) by (unfold b64_exp; rewrite L; reflexivity).
    revert H; unfold rval; rewrite Ee; intros H.
    assert (R1 : (2 ^ 53 - 1 <= rne (a / pow2 971))%Z).
    { rewrite <- (rne_Z (2 ^ 53 - 1)); apply rne_mono.
      apply Qle_shift_div_l; [apply pow2_pos|]; apply Qlt_le_weak; exact Big. }
    assert (R2 : (rne (a / pow2 971) <= 2 ^ 53 - 1)%Z).
    { destruct (Z.le_gt_cases (rne (a / pow2 971)) (2 ^ 53 - 1)) as [X|X]; [exact X|exfalso].
      pose proof (Zle_inject (2 ^ 53) (rne (a / pow2 971)) ltac:(lia)) as Y.
      apply (Qlt_not_le _ _ H).
      rewrite <- (int_pow2 1024 971) by lia.
      apply Qmult_le_compat_r; [exact Y|apply Qlt_le_weak, pow2_pos]. }
    replace (rne (a / pow2 971)) with (2 ^ 53 - 1)%Z by lia; apply Qle_refl.
  - pose proof (rval_mono _ _ Small) as M; rewrite rval_maxfloat in M; exact M.
Qed.

Lemma rval_sign (q : Q) :
  rval q == (if Qlt_bool q 0
             then - (inject_Z (rne (Qabs q / pow2 (b64_exp q))) * pow2 (b64_exp q))
             else inject_Z (rne (Qabs q / pow2 (b64_exp q))) * pow2 (b64_exp q)).
Proof.
  unfold rval; destruct (Qlt_bool q 0) eqn:E;
    [apply Qlt_bool_iff in E|apply Qlt_bool_false in E].
  - rewrite (rne_compat (Qabs q / pow2 (b64_exp q)) (- (q / pow2 (b64_exp q))))
      by (rewrite Qabs_neg by lra; unfold Qdiv; ring).
    rewrite rne_opp, inject_Z_opp; ring.
  - rewrite (rne_compat (Qabs q / pow2 (b64_exp q)) (q / pow2 (b64_exp q)))
      by (rewrite Qabs_pos by exact E; reflexivity).
    reflexivity.
Qed.

Lemma rne_abs_range (q : Q) :
  (0 <= rne (Qabs q / pow2 (b64_exp q)) <= 2 ^ 53)%Z.
Proof.
  assert (P := pow2_pos (b64_exp q)).
  split.
  - rewrite <- (rne_Z 0); apply rne_mono.
    apply Qle_shift_div_l; [exact P|]; rewrite Qmult_0_l; apply Qabs_nonneg.
  - destruct (Qeq_dec q 0) as [Z0|N].
    + rewrite (rne_compat _ 0) by (rewrite (Qabs_wd _ _ Z0); simpl; unfold Qdiv; ring).
      change 0 with (inject_Z 0); rewrite rne_Z; lia.
    + rewrite <- (rne_Z (2 ^ 53)); apply rne_mono.
      apply Qle_shift_div_r; [exact P|].
      rewrite <- pow2_Z by lia; rewrite <- pow2_add, Z.add_comm.
      apply Qlt_le_weak, b64_exp_upper, N.
Qed.

Lemma rne_abs_big (q : Q) : ~ q == 0 -> (972 <= b64_exp q)%Z ->
  (2 ^ 52 <= rne (Qabs q / pow2 (b64_exp q)))%Z.
Proof.
  intros N He.
  assert (L := b64_exp_lower q ltac:(unfold b64_emin, b64_emax, b64_prec; lia) N).
  rewrite <- (rne_Z (2 ^ 52)); apply rne_mono.
  apply Qle_shift_div_l; [apply pow2_pos|].
  rewrite <- pow2_Z by lia; rewrite <- pow2_add, Z.add_comm; exact L.
Qed.

Lemma pow1024_split (k : Z) : pow2 1024 == inject_Z (2 ^ (1024 - k)) * pow2 k \/ (1024 < k)%Z.
Proof.
  destruct (Z.le_gt_cases k 1024) as [H|H]; [left|right; lia].
  symmetry; apply int_pow2; exact H.
Qed.

Lemma pow2_52 (e : Z) : inject_Z (2 ^ 52) * pow2 e == pow2 (e + 52).
Proof. rewrite <- pow2_Z by lia; rewrite pow2_add; ring. Qed.

Lemma round_q_spec (sz : bool) (q : Q) :
  (rval q == 0 /\ round_q sz q = S754_zero (if Qeq_bool q 0 then sz else Qlt_bool q 0)) \/
  (exists m e, round_q sz q = S754_finite (Qlt_bool q 0) m e /\
     val (round_q sz q) == rval q /\ ~ rval q == 0 /\ Qabs (rval q) < pow2 1024) \/
  (round_q sz q = S754_infinity (Qlt_bool q 0) /\ pow2 1024 <= Qabs (rval q) /\ ~ rval q == 0).
Proof.
  pose proof (rval_sign q) as Hs.
  pose proof (rne_abs_range q) as Hr.
  pose proof (b64_exp_ge q) as Hge.
  unfold round_q.
  set (e := b64_exp q) in *; set (m := rne (Qabs q / pow2 e)) in *.
  set (s := Qlt_bool q 0) in *.
  assert (P := pow2_pos e).
  assert (Ha : Qabs (rval q) == inject_Z m * pow2 e).
  { rewrite Hs; destruct s.
    - rewrite Qabs_opp; apply Qabs_pos, Qmult_le_0_compat; [|lra].
      change 0 with (inject_Z 0); rewrite <- Zle_Qle; lia.
    - apply Qabs_pos, Qmult_le_0_compat; [|lra].
      change 0 with (inject_Z 0); rewrite <- Zle_Qle; lia. }
  assert (Nz : forall p : positive, m = Zpos p -> ~ rval q == 0).
  { intros p Ep E; rewrite (Qabs_wd _ _ E), Ep in Ha; simpl in Ha.
    assert (0 < inject_Z (Zpos p) * pow2 e) by (apply Qmult_lt_0_compat; [reflexivity|exact P]).
    lra. }
  destruct m as [|p|p] eqn:Em.
  - left; split; [|reflexivity].
    rewrite Hs; destruct s; simpl; ring.
  - right.
    assert (Vq : forall (p' : positive) (e' : Z),
               inject_Z (Zpos p') * pow2 e' == inject_Z (Zpos p) * pow2 e ->
               val (S754_finite s p' e') == rval q).
    { intros p' e' E'; unfold val; rewrite Hs; destruct s.
      - setoid_replace (- inject_Z (Zpos p') * pow2 e') with (- (inject_Z (Zpos p') * pow2 e'))
          by ring; rewrite E'; reflexivity.
      - exact E'. }
    destruct (Pos.eqb p (2 ^ 53)) eqn:Ep.
    + apply Pos.eqb_eq in Ep.
      assert (E2 : inject_Z (Zpos (2 ^ 52)) * pow2 (Z.succ e) == inject_Z (Zpos p) * pow2 e).
      { rewrite Ep, pow2_succ; change (inject_Z (Zpos (2 ^ 53))) with (inject_Z (Zpos (2 ^ 52)) * 2).
        ring. }
      destruct (Z.ltb (b64_emax - b64_prec) (Z.succ e)) eqn:Eo;
        [apply Z.ltb_lt in Eo|apply Z.ltb_ge in Eo]; unfold b64_emax, b64_prec in Eo.
      * right; split; [reflexivity|split; [|exact (Nz p eq_refl)]].
        rewrite Ha, <- E2.
        change (inject_Z (Zpos (2 ^ 52))) with (inject_Z (2 ^ 52)); rewrite pow2_52.
        apply pow2_le; lia.
      * left; exists (2 ^ 52)%positive, (Z.succ e); split; [reflexivity|].
        split; [exact (Vq _ _ E2)|split; [exact (Nz p eq_refl)|]].
        rewrite Ha, <- E2.
        apply Qlt_le_trans with (inject_Z (2 ^ 53) * pow2 (Z.succ e)).
        -- apply Qmult_lt_compat_r; [apply pow2_pos|]; rewrite <- Zlt_Qlt; reflexivity.
        -- rewrite <- (int_pow2 1024 (Z.succ e)) by lia.
           apply Qmult_le_compat_r; [|apply Qlt_le_weak, pow2_pos].
           rewrite <- Zle_Qle; apply Z.pow_le_mono_r; lia.
    + apply Pos.eqb_neq in Ep.
      assert (Hp : (Zpos p < 2 ^ 53)%Z).
      { assert (Zpos p <> Zpos (2 ^ 53)) by congruence.
        change (Zpos (2 ^ 53)) with (2 ^ 53)%Z in H; lia. }
      destruct (Z.ltb (b64_emax - b64_prec) e) eqn:Eo;
        [apply Z.ltb_lt in Eo|apply Z.ltb_ge in Eo]; unfold b64_emax, b64_prec in Eo.
      * right; split; [reflexivity|split; [|exact (Nz p eq_refl)]].
        destruct (Qeq_dec q 0) as [Z0|N].
        { exfalso; apply (Nz p eq_refl); exact (rval_zero q Z0). }
        pose proof (rne_abs_big q N ltac:(fold e; lia)) as B; fold e m in B; rewrite Em in B.
        rewrite Ha.
        apply Qle_trans with (inject_Z (2 ^ 52) * pow2 e).
        -- rewrite pow2_52; apply pow2_le; lia.
        -- apply Qmult_le_compat_r; [|lra]; rewrite <- Zle_Qle; exact B.
      * left; exists p, e; split; [reflexivity|].
        split; [apply Vq; reflexivity|split; [exact (Nz p eq_refl)|]].
        rewrite Ha.
        apply Qlt_le_trans with (inject_Z (2 ^ 53) * pow2 e).
        -- apply Qmult_lt_compat_r; [exact P|]; rewrite <- Zlt_Qlt; exact Hp.
        -- rewrite <- (int_pow2 1024 e) by lia.
           apply Qmult_le_compat_r; [|lra].
           rewrite <- Zle_Qle; apply Z.pow_le_mono_r; lia.
  - exfalso; lia.
Qed.

Ltac qbool := repeat match goal with
  | H : Qle_bool _ _ = true |- _ => apply Qle_bool_iff in H
  | H : Qlt_bool _ _ = true |- _ => apply Qlt_bool_iff in H
  | H : Qlt_bool _ _ = false |- _ => apply Qlt_bool_false in H
  | |- Qle_bool _ _ = true => apply Qle_bool_iff
  | |- Qlt_bool _ _ = true => apply Qlt_bool_iff
  | |- Qlt_bool _ _ = false => apply Qlt_bool_false
  end.

Lemma maxfloat_lt : maxfloat < pow2 1024.
Proof. vm_compute; reflexivity. Qed.

Lemma maxfloat_ge : pow2 1023 <= maxfloat.
Proof. vm_compute; discriminate. Qed.

Lemma rval_neg (q : Q) : q <= 0 -> rval q <= 0.
Proof.
  intros H; apply Qle_trans with (rval 0); [apply rval_mono; exact H|].
  rewrite (rval_zero 0) by reflexivity; apply Qle_refl.
Qed.

Lemma rval_small (q : Q) : Qabs q <= maxfloat + 1 -> Qabs (rval q) <= maxfloat.
Proof.
  intros H; rewrite rval_abs.
  apply Qle_trans with (rval (maxfloat + 1)); [apply rval_mono; exact H|].
  rewrite rval_maxfloat_succ; apply Qle_refl.
Qed.

Lemma round_q_fin (s : bool) (q : Q) :
  Qabs (rval q) < pow2 1024 -> rounds_to (round_q s q) q.
Proof.
  intros H; destruct (round_q_spec s q) as [(Z0 & E)|[(m & e & E & V & _ & _)|(E & H' & _)]].
  - rewrite E; split; [reflexivity|symmetry; exact Z0].
  - split; [rewrite E; reflexivity|exact V].
  - exfalso; lra.
Qed.

Lemma round_q_small (s : bool) (q : Q) :
  Qabs q <= maxfloat + 1 -> rounds_to (round_q s q) q.
Proof.
  intros H; apply round_q_fin; pose proof (rval_small q H); pose proof maxfloat_lt; lra.
Qed.

Lemma rounds_to_compat (f : spec_float) (q q' : Q) : rounds_to f q -> q == q' -> rounds_to f q'.
Proof. intros [H1 H2] E; split; [exact H1|rewrite H2, E; reflexivity]. Qed.

Lemma rounds_to_max (f : spec_float) (q : Q) :
  rounds_to f q -> Qabs q <= maxfloat + 1 -> Qabs (val f) <= maxfloat.
Proof. intros [_ H] B; rewrite H; exact (rval_small q B). Qed.

Lemma rounds_to_exact (f : spec_float) (q : Q) : rounds_to f q -> rval q == q -> val f == q.
Proof. intros [_ H] E; rewrite H; exact E. Qed.

Lemma rounds_to_dbl (f : spec_float) (q : Q) :
  rounds_to f q -> Qabs q <= maxfloat + 1 -> dbl f.
Proof.
  intros [F V] B; split; [exact F|]; rewrite V; split; [apply rval_idem|exact (rval_small q B)].
Qed.

Lemma round_q_cases (s : bool) (q : Q) :
  (rounds_to (round_q s q) q /\ Qabs (rval q) < pow2 1024) \/
  (round_q s q = S754_infinity false /\ pow2 1024 <= rval q) \/
  (round_q s q = S754_infinity true /\ rval q <= - pow2 1024).
Proof.
  destruct (Qlt_le_dec (Qabs (rval q)) (pow2 1024)) as [H|H].
  - left; split; [apply round_q_fin; exact H|exact H].
  - right; pose proof (pow2_pos 1024) as P.
    destruct (round_q_spec s q) as [(Z0 & _)|[(m & e & _ & _ & _ & B)|(E & _ & _)]].
    + exfalso; rewrite (Qabs_wd _ _ Z0) in H; simpl in H; lra.
    + exfalso; lra.
    + rewrite E; destruct (Qlt_bool q 0) eqn:Hs.
      * right; split; [reflexivity|].
        apply Qlt_bool_iff in Hs.
        assert (N : rval q <= 0) by (apply rval_neg; lra).
        rewrite (Qabs_neg _ N) in H; lra.
      * left; split; [reflexivity|].
        apply Qlt_bool_false in Hs.
        assert (N : 0 <= rval q) by (apply rval_nonneg; exact Hs).
        rewrite (Qabs_pos _ N) in H; lra.
Qed.

Lemma round_q_not_nan (s : bool) (q : Q) : round_q s q <> S754_nan.
Proof.
  destruct (round_q_cases s q) as [[[F _] _]|[[E _]|[E _]]]; rewrite ?E; try discriminate.
  intros E; rewrite E in F; discriminate.
Qed.

(** Order *)

Lemma xle_trans (a b c : xq) : xle a b = true -> xle b c = true -> xle a c = true.
Proof. destruct a, b, c; simpl; intros H1 H2; try discriminate; try reflexivity; qbool; lra. Qed.

Lemma xlt_le_trans (a b c : xq) : xlt a b = true -> xle b c = true -> xlt a c = true.
Proof. destruct a, b, c; simpl; intros H1 H2; try discriminate; try reflexivity; qbool; lra. Qed.

Lemma xle_lt_trans (a b c : xq) : xle a b = true -> xlt b c = true -> xlt a c = true.
Proof. destruct a, b, c; simpl; intros H1 H2; try discriminate; try reflexivity; qbool; lra. Qed.

Lemma xlt_irrefl (a : xq) : xlt a a = false.
Proof. destruct a; simpl; try reflexivity; qbool; lra. Qed.

Lemma fle_trans (x y z : spec_float) : fle x y = true -> fle y z = true -> fle x z = true.
Proof.
  unfold fle; destruct (xval x), (xval y), (xval z); intros H1 H2; try discriminate;
    eauto using xle_trans.
Qed.

Lemma flt_fle_trans (x y z : spec_float) : flt x y = true -> fle y z = true -> flt x z = true.
Proof.
  unfold flt, fle; destruct (xval x), (xval y), (xval z); intros H1 H2; try discriminate;
    eauto using xlt_le_trans.
Qed.

Lemma fle_flt_trans (x y z : spec_float) : fle x y = true -> flt y z = true -> flt x z = true.
Proof.
  unfold flt, fle; destruct (xval x), (xval y), (xval z); intros H1 H2; try discriminate;
    eauto using xle_lt_trans.
Qed.

Lemma flt_irrefl (x : spec_float) : flt x x = false.
Proof. unfold flt; destruct (xval x); [apply xlt_irrefl|reflexivity]. Qed.

Lemma flt_fle_absurd (x y : spec_float) : flt x y = true -> fle y x = true -> False.
Proof.
  intros H1 H2; pose proof (flt_fle_trans _ _ _ H1 H2) as H; rewrite flt_irrefl in H; discriminate.
Qed.

Lemma xval_fin (f : spec_float) : is_fin f = true -> xval f = Some (XFin (val f)).
Proof. destruct f; simpl; try discriminate; reflexivity. Qed.

Lemma fle_fin (x y : spec_float) :
  is_fin x = true -> is_fin y = true -> fle x y = Qle_bool (val x) (val y).
Proof. intros Hx Hy; unfold fle; rewrite (xval_fin x Hx), (xval_fin y Hy); reflexivity. Qed.

Lemma flt_fin (x y : spec_float) :
  is_fin x = true -> is_fin y = true -> flt x y = Qlt_bool (val x) (val y).
Proof. intros Hx Hy; unfold flt; rewrite (xval_fin x Hx), (xval_fin y Hy); reflexivity. Qed.

Lemma fle_round_mono (s1 s2 : bool) (q1 q2 : Q) :
  q1 <= q2 -> fle (round_q s1 q1) (round_q s2 q2) = true.
Proof.
  intros H; pose proof (rval_mono q1 q2 H) as R; pose proof (pow2_pos 1024) as P.
  destruct (round_q_cases s1 q1) as [[F1 B1]|[[E1 P1]|[E1 N1]]];
  destruct (round_q_cases s2 q2) as [[F2 B2]|[[E2 P2]|[E2 N2]]];
  rewrite ?E1, ?E2.
  - destruct F1 as [Fi1 V1], F2 as [Fi2 V2]; rewrite (fle_fin _ _ Fi1 Fi2); qbool.
    rewrite V1, V2; exact R.
  - destruct F1 as [Fi1 _]; unfold fle; rewrite (xval_fin _ Fi1); reflexivity.
  - exfalso; apply Qabs_Qlt_condition in B1; lra.
  - exfalso; apply Qabs_Qlt_condition in B2; lra.
  - reflexivity.
  - exfalso; lra.
  - destruct F2 as [Fi2 _]; unfold fle; rewrite (xval_fin _ Fi2); reflexivity.
  - reflexivity.
  - reflexivity.
Qed.

(** Operations on finite operands *)

Lemma val_fopp (f : spec_float) : val (fopp f) == - val f.
Proof. destruct f as [s|s| |s m e]; simpl; try reflexivity; destruct s; simpl; ring. Qed.

Lemma is_fin_fopp (f : spec_float) : is_fin (fopp f) = is_fin f.
Proof. destruct f; reflexivity. Qed.

Lemma val_nonzero (f : spec_float) : is_fin f = true -> truthy f = true -> ~ val f == 0.
Proof.
  destruct f as [s|s| |s m e]; simpl; try discriminate; intros _ _ E.
  apply Qmult_integral in E; destruct E as [E|E]; [|exact (pow2_nonzero e E)].
  destruct s; unfold Qeq in E; simpl in E; lia.
Qed.

Lemma val_zero (f : spec_float) : truthy f = false -> val f == 0.
Proof. destruct f; simpl; try discriminate; reflexivity. Qed.

Lemma truthy_fin_abs (f : spec_float) : is_fin f = true -> 1 <= Qabs (val f) -> truthy f = true.
Proof.
  destruct f; simpl; try discriminate; intros _ H; [|reflexivity].
  exfalso; simpl in H; lra.
Qed.

Lemma fadd_fin (x y : spec_float) :
  is_fin x = true -> is_fin y = true -> Qabs (val x + val y) <= maxfloat + 1 ->
  rounds_to (fadd x y) (val x + val y).
Proof.
  intros Hx Hy H; destruct x as [a|a| |a m e]; destruct y as [b|b| |b m' e'];
    try discriminate; try (cbv [fadd]; apply round_q_small; exact H).
  split; [reflexivity|]; cbv [fadd].
  change (0 == rval (0 + 0)); rewrite (rval_zero (0 + 0)) by reflexivity; reflexivity.
Qed.

Lemma fsub_fin (x y : spec_float) :
  is_fin x = true -> is_fin y = true -> Qabs (val x - val y) <= maxfloat + 1 ->
  rounds_to (fsub x y) (val x - val y).
Proof.
  intros Hx Hy H; unfold fsub.
  apply rounds_to_compat with (val x + val (fopp y)); [|rewrite val_fopp; reflexivity].
  apply fadd_fin; [exact Hx|rewrite is_fin_fopp; exact Hy|rewrite val_fopp; exact H].
Qed.

Lemma fdiv_fin (x y : spec_float) :
  is_fin x = true -> is_fin y = true -> truthy y = true ->
  Qabs (val x / val y) <= maxfloat + 1 -> rounds_to (fdiv x y) (val x / val y).
Proof.
  intros Hx Hy Ty H; destruct x as [a|a| |a m e]; destruct y as [b|b| |b m' e'];
    try discriminate; try (cbv [fdiv]; apply round_q_small; exact H).
  split; [reflexivity|]; cbv [fdiv].
  change (0 == rval (0 / val (S754_finite b m' e'))).
  rewrite (rval_zero (0 / val (S754_finite b m' e'))) by (unfold Qdiv; ring); reflexivity.
Qed.


Lemma Qtrunc_zero (q : Q) : q == 0 -> Qtrunc q = 0%Z.
Proof.
  intros E; unfold Qtrunc.
  assert (Hl : Qlt_bool q 0 = false) by (qbool; lra).
  rewrite Hl, E; reflexivity.
Qed.

Lemma fmod_fin (x y : spec_float) :
  is_fin x = true -> is_fin y = true -> truthy y = true ->
  Qabs (trunc_rem (val x) (val y)) <= maxfloat + 1 ->
  rounds_to (fmod x y) (trunc_rem (val x) (val y)).
Proof.
  intros Hx Hy Ty H; destruct x as [a|a| |a m e]; destruct y as [b|b| |b m' e'];
    try discriminate; try (cbv [fmod]; apply round_q_small; exact H).
  split; [reflexivity|]; cbv [fmod].
  symmetry; apply rval_zero; unfold trunc_rem.
  rewrite (Qtrunc_zero (val (S754_zero a) / val (S754_finite b m' e'))) by (simpl; unfold Qdiv; ring).
  simpl; ring.
Qed.

Lemma ffloor_fin (x : spec_float) :
  is_fin x = true -> Qabs (inject_Z (Qfloor (val x))) <= maxfloat + 1 ->
  rounds_to (ffloor x) (inject_Z (Qfloor (val x))).
Proof.
  intros Hx H; destruct x as [a|a| |a m e]; try discriminate.
  - split; [reflexivity|]; symmetry; apply rval_zero; reflexivity.
  - apply round_q_small; exact H.
Qed.

Lemma xval_fadd_fin (x y : spec_float) :
  is_fin x = true -> is_fin y = true -> xval (fadd x y) = xval (round_q false (val x + val y)).
Proof.
  intros Hx Hy; destruct x as [a|a| |a m e]; destruct y as [b|b| |b m' e'];
    try discriminate; reflexivity.
Qed.

Lemma fle_xval (x y x' y' : spec_float) :
  xval x = xval x' -> xval y = xval y' -> fle x y = fle x' y'.
Proof. intros E1 E2; unfold fle; rewrite E1, E2; reflexivity. Qed.

Lemma fadd_mono_r (x a b : spec_float) :
  x <> S754_nan -> is_fin a = true -> is_fin b = true -> fle a b = true ->
  fle (fadd x a) (fadd x b) = true.
Proof.
  intros Hx Ha Hb H; rewrite (fle_fin _ _ Ha Hb) in H; qbool.
  destruct (is_fin x) eqn:Fx.
  - rewrite (fle_xval _ _ _ _ (xval_fadd_fin x a Fx Ha) (xval_fadd_fin x b Fx Hb)).
    apply fle_round_mono; lra.
  - destruct x as [s|s| |s m e]; try discriminate; [|now contradiction Hx].
    destruct a; destruct b; try discriminate; cbv [fadd]; unfold fle; simpl; destruct s; reflexivity.
Qed.


Lemma between_compat (x q q' : Q) : q == q' -> between0 x q -> between0 x q'.
Proof. intros E [H1 H2]; split; intros Hx; [specialize (H1 Hx)|specialize (H2 Hx)]; lra. Qed.

Lemma between_abs (x q : Q) : between0 x q -> Qabs q <= Qabs x.
Proof.
  intros [H1 H2]; destruct (Qlt_le_dec x 0) as [N|P].
  - destruct (H2 (Qlt_le_weak _ _ N)).
    rewrite (Qabs_neg x), (Qabs_neg q) by lra; lra.
  - destruct (H1 P); rewrite (Qabs_pos x), (Qabs_pos q) by lra; lra.
Qed.

Lemma between_sub (x q : Q) : between0 x q -> between0 x (x - q).
Proof. intros [H1 H2]; split; intros Hx; [specialize (H1 Hx)|specialize (H2 Hx)]; lra. Qed.

Lemma between_rval (x q : Q) : rval x == x -> between0 x q -> between0 x (rval q).
Proof.
  intros R [H1 H2]; split; intros Hx.
  - destruct (H1 Hx); split; [apply rval_nonneg; lra|].
    rewrite <- R; apply rval_mono; lra.
  - destruct (H2 Hx); split; [|apply rval_neg; lra].
    rewrite <- R; apply rval_mono; lra.
Qed.

Lemma Qtrunc_spec (q : Q) :
  (0 <= q -> 0 <= inject_Z (Qtrunc q) <= q) /\ (q <= 0 -> q <= inject_Z (Qtrunc q) <= 0).
Proof.
  unfold Qtrunc; destruct (Qlt_bool q 0) eqn:E; qbool.
  - split; [intros; lra|intros _; split; [apply Qle_ceiling|]].
    pose proof (Qceiling_lt q) as C.
    assert (C' : inject_Z (Qceiling q - 1) < inject_Z 0) by (change (inject_Z 0) with 0; lra).
    rewrite <- Zlt_Qlt in C'; change 0 with (inject_Z 0); rewrite <- Zle_Qle; lia.
  - split; intros H; split.
    + change 0 with (inject_Z 0); rewrite <- Zle_Qle.
      change 0%Z with (Qfloor 0); apply Qfloor_resp_le; exact H.
    + apply Qfloor_le.
    + assert (Hq : q == 0) by lra; rewrite (Qfloor_comp q 0 Hq); change (inject_Z (Qfloor 0)) with 0; lra.
    + assert (Hq : q == 0) by lra; rewrite (Qfloor_comp q 0 Hq); change (inject_Z (Qfloor 0)) with 0; lra.
Qed.

Lemma Qtrunc_abs (q : Q) : Qabs (inject_Z (Qtrunc q)) <= Qabs q.
Proof.
  destruct (Qtrunc_spec q) as [T1 T2]; apply between_abs; split; assumption.
Qed.

Lemma trunc_rem_between (x y : Q) : ~ y == 0 -> between0 x (trunc_rem x y).
Proof.
  intros Hy; unfold trunc_rem.
  set (u := x / y).
  assert (Ex : x == u * y) by (unfold u; field; exact Hy).
  destruct (Qtrunc_spec u) as [T1 T2].
  set (t := inject_Z (Qtrunc u)) in *.
  destruct (Qlt_le_dec u 0) as [Hu|Hu];
    [destruct (T2 (Qlt_le_weak _ _ Hu))|destruct (T1 Hu)];
    (destruct (Qlt_le_dec y 0) as [Y|Y];
      [|assert (Y' : 0 < y) by (destruct (Qle_lt_or_eq _ _ Y) as [?|E]; [assumption|
          exfalso; apply Hy; symmetry; exact E])]);
    split; intros Hx; split; nra.
Qed.

Lemma rounds_to_dbl' (f : spec_float) (q : Q) :
  rounds_to f q -> Qabs (rval q) < pow2 1024 -> dbl f.
Proof.
  intros [F V] B; split; [exact F|]; rewrite V; split; [apply rval_idem|exact (rval_max q B)].
Qed.

Lemma round_q_dbl (s : bool) (q : Q) : is_fin (round_q s q) = true -> dbl (round_q s q).
Proof.
  intros H; destruct (round_q_cases s q) as [[R B]|[[E _]|[E _]]];
    [exact (rounds_to_dbl' _ _ R B)|rewrite E in H; discriminate|rewrite E in H; discriminate].
Qed.

Lemma fadd_dbl (x y : spec_float) : is_fin (fadd x y) = true -> dbl (fadd x y).
Proof.
  destruct x as [a|a| |a m e]; destruct y as [b|b| |b m' e']; cbv [fadd]; intros H;
    try discriminate; try (apply round_q_dbl; exact H);
    try (destruct (Bool.eqb a b); discriminate).
  split; [reflexivity|]; simpl; split; [apply rval_zero; reflexivity|vm_compute; discriminate].
Qed.

Lemma Qabs_div_le (a b : Q) : 1 <= Qabs b -> Qabs (a / b) <= Qabs a.
Proof.
  intros H; unfold Qdiv; rewrite Qabs_Qmult, Qabs_Qinv.
  apply Qle_shift_div_r; [lra|]; pose proof (Qabs_nonneg a); nra.
Qed.

Lemma Qfloor_abs (q : Q) : Qabs (inject_Z (Qfloor q)) <= Qabs q + 1.
Proof.
  pose proof (Qfloor_le q) as F1; pose proof (Qlt_floor q) as F2.
  rewrite inject_Z_plus in F2; change (inject_Z 1) with 1 in F2.
  pose proof (Qle_Qabs q); assert (- Qabs q <= q) by (apply (Qabs_Qle_condition q (Qabs q)), Qle_refl).
  apply Qabs_Qle_condition; split; lra.
Qed.

Lemma Qfloor_unique (q : Q) (z : Z) : inject_Z z <= q -> q < inject_Z (z + 1) -> Qfloor q = z.
Proof.
  intros H1 H2; pose proof (Qfloor_le q) as F1; pose proof (Qlt_floor q) as F2.
  rewrite inject_Z_plus in F2, H2; change (inject_Z 1) with 1 in F2, H2.
  assert (A : (z < Qfloor q + 1)%Z)
    by (rewrite Zlt_Qlt, inject_Z_plus; change (inject_Z 1) with 1; lra).
  assert (B : (Qfloor q < z + 1)%Z)
    by (rewrite Zlt_Qlt, inject_Z_plus; change (inject_Z 1) with 1; lra).
  lia.
Qed.

Lemma pow52_le_maxfloat : pow2 52 + 1 <= maxfloat.
Proof. vm_compute; discriminate. Qed.

(** Finiteness of [a // b] for a finite double [a] and [|b| >= 1]. *)
Lemma floordiv_core_fin (vx wx : spec_float) :
  dbl vx -> is_fin wx = true -> 1 <= Qabs (val wx) -> is_fin (floordiv_core vx wx) = true.
Proof.
  intros (Fx & Rx & Mx) Fw Bw.
  assert (Tw : truthy wx = true) by (apply truthy_fin_abs; assumption).
  assert (Nw : ~ val wx == 0) by (apply val_nonzero; assumption).
  unfold floordiv_core; cbv zeta.
  pose proof (trunc_rem_between (val vx) (val wx) Nw) as Br.
  assert (Hmd : rounds_to (fmod vx wx) (trunc_rem (val vx) (val wx))).
  { apply fmod_fin; try assumption; pose proof (between_abs _ _ Br); lra. }
  set (md := fmod vx wx) in *.
  assert (Bmd : between0 (val vx) (val md)).
  { destruct Hmd as [_ V]; apply (between_compat _ _ _ (Qeq_sym _ _ V)).
    apply between_rval; assumption. }
  assert (Hd1 : rounds_to (fsub vx md) (val vx - val md)).
  { apply fsub_fin; [exact Fx|exact (proj1 Hmd)|].
    pose proof (between_abs _ _ (between_sub _ _ Bmd)); lra. }
  assert (Bd1 : Qabs (val (fsub vx md)) <= Qabs (val vx)).
  { apply between_abs; destruct Hd1 as [_ V]; apply (between_compat _ _ _ (Qeq_sym _ _ V)).
    apply between_rval; [assumption|apply between_sub; exact Bmd]. }
  pose proof (Qabs_div_le (val (fsub vx md)) (val wx) Bw) as Bq.
  assert (Hdv : rounds_to (fdiv (fsub vx md) wx) (val (fsub vx md) / val wx)).
  { apply fdiv_fin; try assumption; [exact (proj1 Hd1)|lra]. }
  assert (Mdv : Qabs (val (fdiv (fsub vx md) wx)) <= maxfloat).
  { apply (rounds_to_max _ _ Hdv); lra. }
  set (dv := fdiv (fsub vx md) wx) in *.
  assert (V1 : val f_one == 1) by reflexivity.
  assert (Hdv2 : forall g, g = dv \/ g = fsub dv f_one -> is_fin g = true /\ Qabs (val g) <= maxfloat).
  { intros g [-> | ->]; [split; [exact (proj1 Hdv)|exact Mdv]|].
    assert (B1 : Qabs (val dv - val f_one) <= maxfloat + 1).
    { rewrite V1; apply Qabs_Qle_condition in Mdv; apply Qabs_Qle_condition; lra. }
    assert (H1 : rounds_to (fsub dv f_one) (val dv - val f_one))
      by (apply fsub_fin; [exact (proj1 Hdv)|reflexivity|exact B1]).
    split; [exact (proj1 H1)|exact (rounds_to_max _ _ H1 B1)]. }
  set (dv2 := if truthy md then if Bool.eqb (flt wx f_zero) (flt md f_zero) then dv
                                else fsub dv f_one else dv).
  assert (F2 : is_fin dv2 = true /\ Qabs (val dv2) <= maxfloat).
  { apply Hdv2; unfold dv2; destruct (truthy md); [destruct (Bool.eqb _ _)|]; auto. }
  destruct F2 as [F2 M2].
  destruct (truthy dv2); [|reflexivity].
  pose proof (Qfloor_abs (val dv2)) as Bf.
  assert (Hfl : rounds_to (ffloor dv2) (inject_Z (Qfloor (val dv2))))
    by (apply ffloor_fin; [exact F2|lra]).
  assert (Mfl : Qabs (val (ffloor dv2)) <= maxfloat) by (apply (rounds_to_max _ _ Hfl); lra).
  destruct (flt f_half (fsub dv2 (ffloor dv2))); [|exact (proj1 Hfl)].
  assert (B1 : Qabs (val (ffloor dv2) + val f_one) <= maxfloat + 1).
  { rewrite V1; apply Qabs_Qle_condition in Mfl; apply Qabs_Qle_condition; lra. }
  exact (proj1 (fadd_fin (ffloor dv2) f_one (proj1 Hfl) eq_refl B1)).
Qed.

Lemma Qabs_scaled (j e : Z) : Qabs (inject_Z j * pow2 e) == inject_Z (Z.abs j) * pow2 e.
Proof.
  rewrite Qabs_Qmult, Qabs_inject_Z, (Qabs_pos (pow2 e)); [reflexivity|].
  apply Qlt_le_weak, pow2_pos.
Qed.

Lemma rval_scaled (j m e : Z) : (Z.abs m < 2 ^ 53)%Z -> (b64_emin <= e)%Z ->
  Qabs (inject_Z j * pow2 e) <= Qabs (inject_Z m * pow2 e) ->
  rval (inject_Z j * pow2 e) == inject_Z j * pow2 e.
Proof.
  intros Hm He H; apply rval_exact; [|exact He].
  rewrite !Qabs_scaled in H; apply (proj1 (Qmult_le_r _ _ _ (pow2_pos e))) in H.
  rewrite <- Zle_Qle in H; lia.
Qed.

Lemma rval_int (z : Z) : (Z.abs z < 2 ^ 53)%Z -> rval (inject_Z z) == inject_Z z.
Proof.
  intros H; assert (E : inject_Z z == inject_Z z * pow2 0) by (unfold pow2; simpl; ring).
  rewrite E; apply rval_exact; [exact H|unfold b64_emin, b64_emax, b64_prec; lia].
Qed.

Lemma rval_int_small (z : Z) : Qabs (inject_Z z) <= pow2 52 + 1 -> rval (inject_Z z) == inject_Z z.
Proof.
  intros H; apply rval_int; rewrite Zlt_Qlt, <- Qabs_inject_Z.
  assert (pow2 52 + 1 < inject_Z (2 ^ 53)) by (vm_compute; reflexivity); lra.
Qed.

Lemma dbl_repr (x : Q) : rval x == x -> Qabs x <= pow2 52 ->
  exists m e, x == inject_Z m * pow2 e /\ (Z.abs m < 2 ^ 53)%Z /\ (b64_emin <= e <= 0)%Z.
Proof.
  intros R B; destruct (Qeq_dec x 0) as [Z0|N].
  - exists 0%Z, 0%Z; split; [rewrite Z0; reflexivity|].
    split; [reflexivity|unfold b64_emin, b64_emax, b64_prec; lia].
  - exists (rne (x / pow2 (b64_exp x))), (b64_exp x); split; [|split].
    + symmetry; exact R.
    + pose proof (b64_exp_upper x N) as U.
      assert (U' : Qabs (rval x) < pow2 (b64_exp x + 53)) by (rewrite R; exact U).
      unfold rval in U'; rewrite Qabs_scaled, pow2_add, (pow2_Z 53) in U' by lia.
      rewrite (Qmult_comm (pow2 (b64_exp x))) in U'.
      apply (proj1 (Qmult_lt_r _ _ _ (pow2_pos _))) in U'; rewrite <- Zlt_Qlt in U'; exact U'.
    + split; [unfold b64_exp; lia|].
      destruct (Qlog2_spec (Qabs x) (Qabs_pos_lt x N)) as [L _].
      assert (Hl : (Qlog2 (Qabs x) <= 52)%Z) by (apply pow2_le_inv; lra).
      unfold b64_exp, b64_prec, b64_emin, b64_emax; unfold b64_prec; lia.
Qed.

Lemma Qlt_bool_compat (a a' b : Q) : a == a' -> Qlt_bool a b = Qlt_bool a' b.
Proof.
  intros E; destruct (Qlt_bool a b) eqn:H1, (Qlt_bool a' b) eqn:H2; qbool; try reflexivity; lra.
Qed.

Lemma floor_from_trunc (x y : Q) : ~ y == 0 ->
  Qfloor (x / y) =
  (if Qeq_bool (trunc_rem x y) 0 then Qtrunc (x / y)
   else if Bool.eqb (Qlt_bool y 0) (Qlt_bool (trunc_rem x y) 0) then Qtrunc (x / y)
   else Qtrunc (x / y) - 1)%Z.
Proof.
  intros Hy; pose proof (trunc_rem_between x y Hy) as [B1 B2].
  unfold trunc_rem in *; set (u := x / y) in *.
  assert (Ex : x == u * y) by (unfold u; field; exact Hy).
  set (t := Qtrunc u) in *.
  set (r := x - inject_Z t * y) in *.
  assert (Er : r == x - inject_Z t * y) by reflexivity.
  destruct (Qeq_bool r 0) eqn:E0.
  - apply Qeq_bool_iff in E0.
    assert (Eu : u == inject_Z t).
    { assert (Z0 : (u - inject_Z t) * y == 0) by (rewrite <- E0, Er, Ex; ring).
      apply Qmult_integral in Z0; destruct Z0 as [Z0|Z0]; [lra|contradiction]. }
    rewrite (Qfloor_comp _ _ Eu); apply Qfloor_Z.
  - apply Qeq_bool_neq in E0.
    assert (Tt : t = if Qlt_bool u 0 then Qceiling u else Qfloor u) by reflexivity.
    destruct (Qlt_le_dec y 0) as [Y|Y].
    + assert (Ly : Qlt_bool y 0 = true) by (apply Qlt_bool_iff; exact Y); rewrite Ly.
      destruct (Qlt_bool r 0) eqn:Lr; qbool; cbn [Bool.eqb].
      * assert (Hu : Qlt_bool u 0 = false).
        { apply Qlt_bool_false; destruct (Qlt_le_dec x 0) as [X|X];
            [nra|specialize (B1 X); lra]. }
        rewrite Hu in Tt; symmetry; exact Tt.
      * assert (Hu : u < 0).
        { destruct (Qlt_le_dec 0 x) as [X|X]; [nra|specialize (B2 X); lra]. }
        rewrite (proj2 (Qlt_bool_iff u 0) Hu) in Tt; rewrite Tt.
        apply Qfloor_unique.
        -- apply Qlt_le_weak, Qceiling_lt.
        -- replace (Qceiling u - 1 + 1)%Z with (Qceiling u) by ring.
           pose proof (Qle_ceiling u) as C; destruct (Qle_lt_or_eq _ _ C) as [C'|C']; [exact C'|].
           exfalso; apply E0; rewrite Er, Ex, Tt, <- C'; ring.
    + assert (Y' : 0 < y) by (destruct (Qle_lt_or_eq _ _ Y) as [?|E]; [assumption|
          exfalso; apply Hy; symmetry; exact E]).
      assert (Ly : Qlt_bool y 0 = false) by (apply Qlt_bool_false; exact Y); rewrite Ly.
      destruct (Qlt_bool r 0) eqn:Lr; qbool; cbn [Bool.eqb].
      * assert (Hu : u < 0).
        { destruct (Qlt_le_dec x 0) as [X|X]; [nra|specialize (B1 X); lra]. }
        rewrite (proj2 (Qlt_bool_iff u 0) Hu) in Tt; rewrite Tt.
        apply Qfloor_unique.
        -- apply Qlt_le_weak, Qceiling_lt.
        -- replace (Qceiling u - 1 + 1)%Z with (Qceiling u) by ring.
           pose proof (Qle_ceiling u) as C; destruct (Qle_lt_or_eq _ _ C) as [C'|C']; [exact C'|].
           exfalso; apply E0; rewrite Er, Ex, Tt, <- C'; ring.
      * assert (Hu : Qlt_bool u 0 = false).
        { apply Qlt_bool_false; destruct (Qlt_le_dec 0 x) as [X|X];
            [nra|specialize (B2 X); lra]. }
        rewrite Hu in Tt; symmetry; exact Tt.
Qed.

Lemma val_szero (s : bool) : val (S754_zero s) == 0.
Proof. reflexivity. Qed.

Lemma pow52_lt_maxfloat : pow2 52 <= maxfloat + 1.
Proof. vm_compute; discriminate. Qed.

(** [a // b] is exact: for a double [a] with [|a| <= 2^52] and a nonzero
    integral double [b], the result is [floor (a / b)]. *)
Lemma floordiv_core_exact (vx wx : spec_float) (zy : Z) :
  dbl vx -> Qabs (val vx) <= pow2 52 -> is_fin wx = true -> val wx == inject_Z zy ->
  (1 <= Z.abs zy)%Z ->
  is_fin (floordiv_core vx wx) = true /\
  val (floordiv_core vx wx) == inject_Z (Qfloor (val vx / val wx)).
Proof.
  intros Dx Bx Fw Ey Hzy.
  assert (Bw : 1 <= Qabs (val wx)).
  { rewrite Ey, Qabs_inject_Z; change 1 with (inject_Z 1); rewrite <- Zle_Qle; exact Hzy. }
  split; [exact (floordiv_core_fin vx wx Dx Fw Bw)|].
  destruct Dx as (Fx & Rx & Mx).
  assert (Tw : truthy wx = true) by (apply truthy_fin_abs; assumption).
  assert (Nw : ~ val wx == 0) by (apply val_nonzero; assumption).
  pose proof pow52_lt_maxfloat as P52.
  pose proof pow52_le_maxfloat as P52'.
  pose proof (floor_from_trunc (val vx) (val wx) Nw) as FT.
  pose proof (trunc_rem_between (val vx) (val wx) Nw) as Br.
  pose proof (Qabs_div_le (val vx) (val wx) Bw) as Bu.
  pose proof (Qfloor_abs (val vx / val wx)) as BF.
  unfold floordiv_core; cbv zeta.
  assert (Hmd : rounds_to (fmod vx wx) (trunc_rem (val vx) (val wx))).
  { apply fmod_fin; try assumption; pose proof (between_abs _ _ Br); lra. }
  set (md := fmod vx wx) in *.
  set (x := val vx) in *. set (y := val wx) in *.
  destruct (dbl_repr x Rx Bx) as (m & e & Exm & Hm & He1 & He2).
  set (r := trunc_rem x y) in *.
  pose proof (between_abs _ _ Br) as Ar.
  set (t := Qtrunc (x / y)) in *.
  assert (Er0 : r == x - inject_Z t * y) by reflexivity.
  assert (K : inject_Z (2 ^ (- e)) * pow2 e == 1).
  { pose proof (int_pow2 0 e ltac:(lia)) as K; replace (0 - e)%Z with (- e)%Z in K by lia.
    exact K. }
  assert (Er : r == inject_Z (m - t * zy * 2 ^ (- e)) * pow2 e).
  { rewrite Er0, Exm, Ey; unfold Z.sub; rewrite inject_Z_plus, inject_Z_opp, !inject_Z_mult.
    setoid_replace ((inject_Z m + - (inject_Z t * inject_Z zy * inject_Z (2 ^ (- e)))) * pow2 e)
      with (inject_Z m * pow2 e - inject_Z t * inject_Z zy * (inject_Z (2 ^ (- e)) * pow2 e))
      by ring.
    rewrite K; ring. }
  assert (Rr : rval r == r).
  { rewrite Er; apply (rval_scaled _ m); [exact Hm|exact He1|].
    rewrite <- Er, <- Exm; exact Ar. }
  assert (Vmd : val md == r) by exact (rounds_to_exact _ _ Hmd Rr).
  (* x - md *)
  assert (E1 : x - val md == inject_Z (t * zy)) by (rewrite Vmd, Er0, Ey, inject_Z_mult; ring).
  assert (A1 : Qabs (inject_Z (t * zy)) <= pow2 52).
  { rewrite <- E1, Vmd; pose proof (between_abs _ _ (between_sub _ _ Br)); lra. }
  assert (Hd1 : rounds_to (fsub vx md) (x - val md)).
  { apply fsub_fin; [exact Fx|exact (proj1 Hmd)|]; fold x; rewrite E1; lra. }
  assert (Vd1 : val (fsub vx md) == inject_Z (t * zy)).
  { destruct Hd1 as [_ V]; rewrite V, E1; apply rval_int_small; lra. }
  (* dv *)
  assert (Nzy : ~ inject_Z zy == 0) by (intros Z0; apply Nw; rewrite Ey; exact Z0).
  assert (E2 : val (fsub vx md) / y == inject_Z t).
  { rewrite Vd1, Ey, inject_Z_mult; field; exact Nzy. }
  pose proof (Qabs_div_le (val (fsub vx md)) y Bw) as A2.
  assert (Hdv : rounds_to (fdiv (fsub vx md) wx) (val (fsub vx md) / y)).
  { apply fdiv_fin; try assumption; [exact (proj1 Hd1)|]; fold y; rewrite Vd1 in A2 |- *; lra. }
  assert (Vdv : val (fdiv (fsub vx md) wx) == inject_Z t).
  { destruct Hdv as [_ V]; rewrite V, E2; apply rval_int_small.
    rewrite <- E2; rewrite Vd1 in A2 |- *; lra. }
  set (dv := fdiv (fsub vx md) wx) in *.
  (* dv2 *)
  set (F := Qfloor (x / y)) in *.
  set (dv2 := if truthy md then if Bool.eqb (flt wx f_zero) (flt md f_zero) then dv
                                else fsub dv f_one else dv).
  assert (V2 : is_fin dv2 = true /\ val dv2 == inject_Z F).
  { unfold dv2; rewrite FT.
    destruct (Qeq_bool r 0) eqn:E0.
    - apply Qeq_bool_iff in E0.
      destruct (truthy md) eqn:Tm.
      + exfalso; apply (val_nonzero md (proj1 Hmd) Tm); rewrite Vmd; exact E0.
      + split; [exact (proj1 Hdv)|exact Vdv].
    - apply Qeq_bool_neq in E0.
      destruct (truthy md) eqn:Tm; [|exfalso; apply E0; rewrite <- Vmd; apply val_zero; exact Tm].
      rewrite (flt_fin wx f_zero Fw eq_refl), (flt_fin md f_zero (proj1 Hmd) eq_refl).
      change (val f_zero) with 0; fold y; rewrite (Qlt_bool_compat _ _ 0 Vmd).
      destruct (Bool.eqb (Qlt_bool y 0) (Qlt_bool r 0)).
      + split; [exact (proj1 Hdv)|exact Vdv].
      + assert (B3 : Qabs (val dv - val f_one) <= maxfloat + 1).
        { assert (V1 : val f_one == 1) by reflexivity; rewrite Vdv, V1.
          rewrite <- E2, Vd1; rewrite Vd1 in A2; apply Qabs_Qle_condition in A2;
            apply Qabs_Qle_condition; lra. }
        destruct (fsub_fin dv f_one (proj1 Hdv) eq_refl B3) as [F3 V3]; split; [exact F3|].
        assert (V1 : val f_one == 1) by reflexivity.
        rewrite V3, Vdv, V1.
        assert (Ez : inject_Z t - 1 == inject_Z (t - 1)).
        { unfold Z.sub; rewrite inject_Z_plus, inject_Z_opp; reflexivity. }
        rewrite Ez; apply rval_int_small; rewrite <- Ez.
        rewrite <- E2, Vd1; rewrite Vd1 in A2; apply Qabs_Qle_condition in A2;
          apply Qabs_Qle_condition; lra. }
  destruct V2 as [F2 V2].
  assert (AF : Qabs (inject_Z F) <= pow2 52 + 1) by lra.
  destruct (truthy dv2) eqn:T2.
  - assert (QF : Qfloor (val dv2) = F) by (rewrite (Qfloor_comp _ _ V2); apply Qfloor_Z).
    assert (Hfl : rounds_to (ffloor dv2) (inject_Z (Qfloor (val dv2))))
      by (apply ffloor_fin; [exact F2|rewrite QF; lra]).
    rewrite QF in Hfl.
    assert (Vfl : val (ffloor dv2) == inject_Z F)
      by exact (rounds_to_exact _ _ Hfl (rval_int_small F AF)).
    assert (B4 : Qabs (val dv2 - val (ffloor dv2)) <= maxfloat + 1).
    { rewrite V2, Vfl; setoid_replace (inject_Z F - inject_Z F) with 0 by ring.
      vm_compute; discriminate. }
    destruct (fsub_fin _ _ F2 (proj1 Hfl) B4) as [F4 V4].
    rewrite (flt_fin f_half _ eq_refl F4).
    assert (Z4 : val (fsub dv2 (ffloor dv2)) == 0).
    { rewrite V4; apply rval_zero; rewrite V2, Vfl; ring. }
    assert (H4 : Qlt_bool (val f_half) (val (fsub dv2 (ffloor dv2))) = false).
    { apply Qlt_bool_false; rewrite Z4; vm_compute; discriminate. }
    rewrite H4; exact Vfl.
  - rewrite val_szero; rewrite <- V2; symmetry; apply val_zero; exact T2.
Qed.

(** ** Conversions between Python ints and floats *)

Lemma float_to_int_fin (r : Q -> Z) (x : spec_float) :
  is_fin x = true -> float_to_int r x = Ok (r (val x)).
Proof. destruct x; simpl; try discriminate; reflexivity. Qed.

Lemma Qtrunc_comp (q q' : Q) : q == q' -> Qtrunc q = Qtrunc q'.
Proof.
  intros E; unfold Qtrunc; rewrite (Qlt_bool_compat q q' 0 E).
  destruct (Qlt_bool q' 0); [apply Qceiling_comp|apply Qfloor_comp]; exact E.
Qed.

Lemma Qtrunc_Z (z : Z) : Qtrunc (inject_Z z) = z.
Proof. unfold Qtrunc; destruct (Qlt_bool _ _); [apply Qceiling_Z|apply Qfloor_Z]. Qed.

Lemma int_to_float_ok (z : Z) (f : spec_float) :
  int_to_float z = Ok f -> f = round_q false (inject_Z z) /\ is_fin f = true.
Proof.
  unfold int_to_float; intros H.
  pose proof (round_q_not_nan false (inject_Z z)) as Nn.
  revert H Nn; destruct (round_q false (inject_Z z)); intros H Nn; try discriminate;
    [injection H as <-; split; reflexivity|now contradiction Nn|injection H as <-; split; reflexivity].
Qed.

Lemma maxfloat_big : inject_Z (2 ^ 54) <= maxfloat + 1.
Proof. apply Qle_bool_iff; vm_compute; reflexivity. Qed.

Lemma int_to_float_small (z : Z) :
  (Z.abs z <= 2 ^ 54)%Z -> int_to_float z = Ok (round_q false (inject_Z z)).
Proof.
  intros Hz.
  assert (B : Qabs (inject_Z z) <= maxfloat + 1).
  { rewrite Qabs_inject_Z; eapply Qle_trans; [|exact maxfloat_big]; rewrite <- Zle_Qle; exact Hz. }
  destruct (round_q_small false _ B) as [F _].
  unfold int_to_float; destruct (round_q false (inject_Z z)); try discriminate; reflexivity.
Qed.

Lemma int_to_float_exact (z : Z) :
  (Z.abs z < 2 ^ 53)%Z ->
  exists f, int_to_float z = Ok f /\ is_fin f = true /\ val f == inject_Z z.
Proof.
  intros Hz.
  assert (B : Qabs (inject_Z z) <= maxfloat + 1).
  { rewrite Qabs_inject_Z; eapply Qle_trans; [|exact maxfloat_big]; rewrite <- Zle_Qle; lia. }
  pose proof (round_q_small false _ B) as R.
  exists (round_q false (inject_Z z)); split; [apply int_to_float_small; lia|].
  split; [exact (proj1 R)|].
  apply (rounds_to_exact _ _ R), rval_int; exact Hz.
Qed.

(** Converting ints to floats keeps their order. *)
Lemma int_to_float_mono (a b : Z) (fa fb : spec_float) :
  (a <= b)%Z -> int_to_float a = Ok fa -> int_to_float b = Ok fb -> fle fa fb = true.
Proof.
  intros H Ha Hb; apply int_to_float_ok in Ha; apply int_to_float_ok in Hb.
  destruct Ha as [-> _], Hb as [-> _]; apply fle_round_mono; rewrite <- Zle_Qle; exact H.
Qed.

Lemma int_truediv_ok (a b : Z) (h : spec_float) :
  int_truediv a b = Ok h -> rounds_to h (inject_Z a / inject_Z b).
Proof.
  unfold int_truediv; destruct (Z.eqb b 0); [discriminate|].
  set (s := xorb (Z.ltb a 0) (Z.ltb b 0)); set (q := inject_Z a / inject_Z b).
  intros H.
  destruct (round_q_cases s q) as [[R _]|[[E _]|[E _]]]; rewrite ?E in H; try discriminate.
  revert R H; destruct (round_q s q); intros R H; try discriminate; injection H as <-; exact R.
Qed.

Lemma half_floor (n : Z) : Qfloor (inject_Z n / 2) = (n / 2)%Z.
Proof. unfold Qfloor; simpl; now rewrite Z.mul_1_r. Qed.

Lemma half_ceiling (n : Z) : Qceiling (inject_Z n / 2) = (- (- n / 2))%Z.
Proof.
  unfold Qceiling, Qfloor; simpl; now rewrite Z.mul_1_r.
Qed.

Lemma half_sum (n : Z) : (- (- n / 2) + n / 2 = n)%Z.
Proof.
  pose proof (Z.div_mod n 2) as H1; pose proof (Z.mod_pos_bound n 2) as H2.
  pose proof (Z.div_mod (- n) 2) as H3; pose proof (Z.mod_pos_bound (- n) 2) as H4.
  lia.
Qed.

(** [count / 2], then [ceil] and [floor] of it, for [|count| < 2^53]. *)
Lemma half_steps (n : Z) :
  (Z.abs n < 2 ^ 53)%Z ->
  exists half, int_truediv n 2 = Ok half /\
    py_ceil half = Ok (- (- n / 2))%Z /\ py_floor half = Ok (n / 2)%Z.
Proof.
  intros Hn.
  assert (E : inject_Z n / inject_Z 2 == inject_Z n * pow2 (-1)) by reflexivity.
  assert (R : rval (inject_Z n / inject_Z 2) == inject_Z n / inject_Z 2).
  { rewrite E; apply rval_exact; [exact Hn|unfold b64_emin, b64_emax, b64_prec; lia]. }
  assert (B : Qabs (inject_Z n / inject_Z 2) <= maxfloat + 1).
  { apply Qle_trans with (Qabs (inject_Z n)).
    - apply Qabs_div_le; apply Qle_bool_iff; reflexivity.
    - rewrite Qabs_inject_Z; eapply Qle_trans; [|exact maxfloat_big]; rewrite <- Zle_Qle; lia. }
  set (s := xorb (Z.ltb n 0) (Z.ltb 2 0)).
  pose proof (round_q_small s _ B) as Rq.
  exists (round_q s (inject_Z n / inject_Z 2)).
  assert (V : val (round_q s (inject_Z n / inject_Z 2)) == inject_Z n / 2)
    by (rewrite (rounds_to_exact _ _ Rq R); reflexivity).
  split; [|split].
  - unfold int_truediv; simpl Z.eqb; cbv iota.
    fold s; destruct Rq as [F _]; destruct (round_q s _); try discriminate; reflexivity.
  - unfold py_ceil; rewrite (float_to_int_fin _ _ (proj1 Rq)).
    now rewrite (Qceiling_comp _ _ V), half_ceiling.
  - unfold py_floor; rewrite (float_to_int_fin _ _ (proj1 Rq)).
    now rewrite (Qfloor_comp _ _ V), half_floor.
Qed.

(** [width // k] then [int(...)], for a finite [width] and an int
    [1 <= |k| < 2^53]. *)
Lemma width_step (W : spec_float) (k : Z) :
  dbl W -> (1 <= Z.abs k < 2 ^ 53)%Z ->
  exists f q, int_to_float k = Ok f /\ py_floordiv W f = Ok q /\
    py_int q = Ok (Qtrunc (val q)) /\ val f == inject_Z k /\ is_fin q = true.
Proof.
  intros DW Hk.
  destruct (int_to_float_exact k ltac:(lia)) as (f & Hf & Ff & Vf).
  assert (Bf : 1 <= Qabs (val f)).
  { rewrite Vf, Qabs_inject_Z; change 1 with (inject_Z 1); rewrite <- Zle_Qle; lia. }
  pose proof (truthy_fin_abs f Ff Bf) as Tf.
  pose proof (floordiv_core_fin W f DW Ff Bf) as Fq.
  exists f, (floordiv_core W f).
  split; [exact Hf|]; split; [unfold py_floordiv, fis_zero; now rewrite Tf|].
  split; [unfold py_int; apply float_to_int_fin; exact Fq|].
  split; [exact Vf|exact Fq].
Qed.

Lemma width_step_exact (W : spec_float) (k : Z) :
  dbl W -> Qabs (val W) <= pow2 52 -> (1 <= Z.abs k < 2 ^ 53)%Z ->
  exists f q, int_to_float k = Ok f /\ py_floordiv W f = Ok q /\
    py_int q = Ok (Qfloor (val W / inject_Z k)).
Proof.
  intros DW BW Hk.
  destruct (width_step W k DW Hk) as (f & q & Hf & Hq & Hi & Vf & _).
  exists f, q; split; [exact Hf|]; split; [exact Hq|].
  rewrite Hi; f_equal.
  unfold py_floordiv in Hq; destruct (fis_zero f); [discriminate|]; injection Hq as <-.
  destruct (int_to_float_ok _ _ Hf) as [_ Ff].
  destruct (floordiv_core_exact W f k DW BW Ff Vf ltac:(lia)) as [_ V].
  rewrite (Qtrunc_comp _ _ V), Qtrunc_Z; apply Qfloor_comp; now rewrite Vf.
Qed.

(** [x // 2] is the floor of [x / 2] for a double with [|x| <= 2^52]. *)
Lemma floordiv_two_exact (vx : spec_float) :
  dbl vx -> Qabs (val vx) <= pow2 52 ->
  is_fin (floordiv_core vx f_two) = true /\
  val (floordiv_core vx f_two) == inject_Z (Qfloor (val vx / 2)).
Proof.
  intros D B.
  destruct (floordiv_core_exact vx f_two 2 D B eq_refl ltac:(reflexivity) ltac:(lia)) as [F V].
  split; [exact F|]; rewrite V.
  assert (T : val f_two == 2) by reflexivity.
  rewrite (Qfloor_comp _ _ (Qdiv_comp _ _ (Qeq_refl (val vx)) _ _ T)); reflexivity.
Qed.

(** ** List comprehensions that may raise *)

Lemma map_py_length {A B} (f : A -> py_result B) (xs : list A) :
  forall ys, map_py f xs = Ok ys -> List.length ys = List.length xs.
Proof.
  induction xs as [|x xs IH]; intros ys H; simpl in H.
  - injection H as <-; reflexivity.
  - destruct (f x) as [b|e]; [|discriminate]; simpl in H.
    destruct (map_py f xs) as [bs|e] eqn:E; [|discriminate]; simpl in H.
    injection H as <-; simpl; f_equal; exact (IH bs eq_refl).
Qed.

Lemma map_py_nth {A B} (f : A -> py_result B) (xs : list A) :
  forall ys i y, map_py f xs = Ok ys -> nth_error ys i = Some y ->
  exists x, nth_error xs i = Some x /\ f x = Ok y.
Proof.
  induction xs as [|x xs IH]; intros ys i y H Hi; simpl in H.
  - injection H as <-; destruct i; discriminate.
  - destruct (f x) as [b|e] eqn:Ef; [|discriminate]; simpl in H.
    destruct (map_py f xs) as [bs|e] eqn:E; [|discriminate]; simpl in H.
    injection H as <-; destruct i as [|i]; simpl in Hi |- *.
    + injection Hi as <-; eauto.
    + exact (IH bs i y eq_refl Hi).
Qed.

Lemma map_py_ok {A B} (f : A -> py_result B) (g : A -> B) (xs : list A) :
  (forall x, In x xs -> f x = Ok (g x)) -> map_py f xs = Ok (map g xs).
Proof.
  induction xs as [|x xs IH]; intros H; simpl; [reflexivity|].
  rewrite (H x (or_introl eq_refl)); simpl.
  rewrite IH by (intros y Hy; apply H; now right); reflexivity.
Qed.

Lemma py_range_length (n : Z) : List.length (py_range n) = Z.to_nat n.
Proof. unfold py_range; now rewrite length_map, length_seq. Qed.

Lemma py_range_nonpos (n : Z) : (n <= 0)%Z -> py_range n = [].
Proof.
  intros H; unfold py_range.
  destruct n; [reflexivity| lia | reflexivity].
Qed.

Lemma in_py_range (k a : Z) : In k (py_range a) -> (0 <= k < a)%Z.
Proof.
  unfold py_range; intros H; apply in_map_iff in H.
  destruct H as (i & <- & Hi); apply in_seq in Hi; lia.
Qed.

Lemma nth_py_range (a : Z) (i : nat) (x : Z) :
  nth_error (py_range a) i = Some x -> x = Z.of_nat i.
Proof.
  unfold py_range; rewrite nth_error_map, nth_error_seq.
  destruct (Nat.ltb_spec i (Z.to_nat a)); simpl; [|discriminate].
  intros [= <-]; reflexivity.
Qed.

(** * Properties *)

(** ** Scanning the tiles *)

Lemma scan_app_first (pre post : list tile) (part : tile) (x y : spec_float) :
  Forall (fun q => in_partition q x y = false) pre ->
  in_partition part x y = true ->
  scan (pre ++ part :: post) x y = Some part.
Proof.
  intros Hpre Hpart; induction Hpre as [|q pre Hq _ IH]; simpl.
  - now rewrite Hpart.
  - now rewrite Hq.
Qed.

Lemma scan_some_in (parts : list tile) (x y : spec_float) (q : tile) :
  scan parts x y = Some q -> In q parts /\ in_partition q x y = true.
Proof.
  induction parts as [|p rest IH]; simpl; [discriminate|].
  case_eq (in_partition p x y); intros Hp H.
  - injection H as <-; auto.
  - destruct (IH H); auto.
Qed.

Lemma scan_none (parts : list tile) (x y : spec_float) :
  scan parts x y = None -> forall q, In q parts -> in_partition q x y = false.
Proof.
  induction parts as [|p rest IH]; simpl; [tauto|].
  case_eq (in_partition p x y); intros Hp H; [discriminate|].
  intros q [<-|Hq]; auto.
Qed.

Lemma py_last_last (parts : list tile) (d : tile) :
  parts <> [] -> py_last parts = Ok (last parts d).
Proof.
  intros Hne; unfold py_last.
  rewrite (app_removelast_last d Hne) at 1.
  now rewrite rev_app_distr.
Qed.

Lemma py_last_in (parts : list tile) (q : tile) :
  py_last parts = Ok q -> In q parts.
Proof.
  unfold py_last; intros H.
  apply in_rev.
  destruct (rev parts) as [|p r]; [discriminate|].
  injection H as <-; now left.
Qed.

Lemma in_partition_iff (t : tile) (x y : spec_float) :
  in_partition t x y = true <->
  flt (t_minX t) x = true /\ fle x (t_maxX t) = true /\
  flt (t_minY t) y = true /\ fle y (t_maxY t) = true.
Proof.
  destruct t as [[[a b] c] d]; unfold in_partition; simpl.
  rewrite !andb_true_iff; tauto.
Qed.

(** ** Structure of the tile scheme for [count] other than 1 and 2 *)

Ltac rpeel H :=
  repeat match type of H with
  | rbind ?m _ = Ok _ =>
    let E := fresh "E" in
    destruct m eqn:E; cbn [rbind] in H; [|discriminate H]
  end.

(** One tile of a row, built by the comprehension of lines 87-95 or
    96-104. *)
Lemma row_tile_inv (x dt : Z) (minX lo hi : spec_float) (t : tile) :
  (let? a := int_to_float (x * dt) in
   let? b := int_to_float (dt * (x + 1)) in
   Ok (fadd minX a, fadd minX b, lo, hi)) = Ok t ->
  exists a b, int_to_float (x * dt) = Ok a /\ int_to_float (dt * (x + 1)) = Ok b /\
    t = (fadd minX a, fadd minX b, lo, hi).
Proof.
  intros H; rpeel H; injection H as <-; eauto.
Qed.

Lemma compute_partitions_grid (n : Z) (minX maxX minY maxY : spec_float) (ps : list tile) :
  n <> 1%Z -> n <> 2%Z -> compute_partitions n (minX, maxX, minY, maxY) = Ok ps ->
  let ymid := fadd (floordiv_core (fsub maxY minY) f_two) minY in
  exists half top bottom dt db tops bots,
    int_truediv n 2 = Ok half /\ py_ceil half = Ok top /\ py_floor half = Ok bottom /\
    map_py (fun x =>
        let? a := int_to_float (x * dt) in
        let? b := int_to_float (dt * (x + 1)) in
        Ok (fadd minX a, fadd minX b, minY, ymid)) (py_range top) = Ok tops /\
    map_py (fun x =>
        let? a := int_to_float (x * db) in
        let? b := int_to_float (db * (x + 1)) in
        Ok (fadd minX a, fadd minX b, ymid, maxY)) (py_range bottom) = Ok bots /\
    ps = tops ++ bots.
Proof.
  intros H1 H2 H ymid.
  unfold compute_partitions in H.
  rewrite (proj2 (Z.eqb_neq n 1) H1), (proj2 (Z.eqb_neq n 2) H2) in H.
  rpeel H; injection H as <-.
  do 7 eexists; repeat split; eassumption.
Qed.

Lemma nth_error_app_cases {A} (xs ys : list A) (i : nat) (a : A) :
  nth_error (xs ++ ys) i = Some a ->
  ((i < List.length xs)%nat /\ nth_error xs i = Some a) \/
  ((List.length xs <= i)%nat /\ nth_error ys (i - List.length xs) = Some a).
Proof.
  intros H; destruct (Nat.lt_ge_cases i (List.length xs)) as [Hi|Hi].
  - rewrite nth_error_app1 in H by exact Hi; now left.
  - rewrite nth_error_app2 in H by exact Hi; now right.
Qed.

(** A tile of position [i] of a row is the one of column [i]. *)
Lemma row_nth (dt : Z) (a : Z) (minX lo hi : spec_float) (row : list tile) (i : nat) (t : tile) :
  map_py (fun x =>
      let? a := int_to_float (x * dt) in
      let? b := int_to_float (dt * (x + 1)) in
      Ok (fadd minX a, fadd minX b, lo, hi)) (py_range a) = Ok row ->
  nth_error row i = Some t ->
  exists fa fb, int_to_float (Z.of_nat i * dt) = Ok fa /\
    int_to_float (dt * (Z.of_nat i + 1)) = Ok fb /\ t = (fadd minX fa, fadd minX fb, lo, hi).
Proof.
  intros Hm Hi.
  destruct (map_py_nth _ _ _ _ _ Hm Hi) as (x & Hx & Hf).
  rewrite (nth_py_range _ _ _ Hx) in Hf.
  exact (row_tile_inv _ _ _ _ _ _ Hf).
Qed.

(** [count / 2] is at least [1] for [count >= 2], whatever the rounding. *)
Lemma half_ceil_pos (n : Z) (half : spec_float) (top : Z) :
  (2 <= n)%Z -> int_truediv n 2 = Ok half -> py_ceil half = Ok top -> (1 <= top)%Z.
Proof.
  intros Hn Hh Ht.
  destruct (int_truediv_ok _ _ _ Hh) as [F V].
  unfold py_ceil in Ht; rewrite (float_to_int_fin _ _ F) in Ht; injection Ht as <-.
  assert (R1 : rval 1 <= rval (inject_Z n / inject_Z 2)).
  { apply rval_mono.
    assert (N : inject_Z 2 <= inject_Z n) by (rewrite <- Zle_Qle; exact Hn).
    apply Qle_shift_div_l; [reflexivity|].
    change (inject_Z 2) with 2 in N |- *; lra. }
  assert (E1 : rval 1 == 1) by (apply (rval_int 1); reflexivity).
  assert (C : 1 <= val half) by (rewrite V; rewrite E1 in R1; exact R1).
  change 1%Z with (Qceiling 1); apply Qceiling_resp_le; exact C.
Qed.

(** For [count >= 1] a built scheme has at least one tile. *)
Lemma compute_partitions_nonempty (n : Z) (ext : tile) (ps : list tile) :
  (1 <= n)%Z -> compute_partitions n ext = Ok ps -> ps <> [].
Proof.
  intros Hn H; destruct ext as [[[minX maxX] minY] maxY].
  destruct (Z.eq_dec n 1) as [->|H1]; [simpl in H; injection H as <-; discriminate|].
  destruct (Z.eq_dec n 2) as [->|H2]; [simpl in H; injection H as <-; discriminate|].
  destruct (compute_partitions_grid n minX maxX minY maxY ps H1 H2 H)
    as (half & top & bottom & dt & db & tops & bots & Hh & Ht & _ & Htops & _ & ->).
  pose proof (half_ceil_pos n half top ltac:(lia) Hh Ht) as Tp.
  pose proof (map_py_length _ _ _ Htops) as L; rewrite py_range_length in L.
  intros E; apply (f_equal (@List.length tile)) in E.
  rewrite length_app, L in E; simpl in E; lia.
Qed.

(** Two columns [k] and [k'] of a row whose tiles both contain [x] are the
    same column: the edges [minX + k * dt] are rounded monotonically. *)
Lemma column_disjoint (minX x : spec_float) (k k' dt : Z) (a b a' b' : spec_float) :
  int_to_float (k * dt) = Ok a -> int_to_float (dt * (k + 1)) = Ok b ->
  int_to_float (k' * dt) = Ok a' -> int_to_float (dt * (k' + 1)) = Ok b' ->
  flt (fadd minX a) x = true -> fle x (fadd minX b) = true ->
  flt (fadd minX a') x = true -> fle x (fadd minX b') = true -> k = k'.
Proof.
  intros Ha Hb Ha' Hb' A1 A2 B1 B2.
  assert (Nx : minX <> S754_nan) by (intros ->; discriminate A1).
  pose proof (proj2 (int_to_float_ok _ _ Ha)) as Fa.
  pose proof (proj2 (int_to_float_ok _ _ Hb)) as Fb.
  pose proof (proj2 (int_to_float_ok _ _ Ha')) as Fa'.
  pose proof (proj2 (int_to_float_ok _ _ Hb')) as Fb'.
  assert (Empty : forall c fc fd, int_to_float (c * dt) = Ok fc ->
            int_to_float (dt * (c + 1)) = Ok fd -> (dt <= 0)%Z ->
            flt (fadd minX fc) x = true -> fle x (fadd minX fd) = true -> False).
  { intros c fc fd Hc Hd Hdt C1 C2.
    pose proof (proj2 (int_to_float_ok _ _ Hc)) as Fc.
    pose proof (proj2 (int_to_float_ok _ _ Hd)) as Fd.
    assert (M : fle fd fc = true) by (apply (int_to_float_mono (dt * (c + 1)) (c * dt) fd fc ltac:(nia) Hd Hc)).
    pose proof (fadd_mono_r minX fd fc Nx Fd Fc M) as M'.
    exact (flt_fle_absurd _ _ C1 (fle_trans _ _ _ C2 M')). }
  destruct (Z_le_gt_dec dt 0) as [Hdt|Hdt]; [exfalso; exact (Empty k a b Ha Hb Hdt A1 A2)|].
  assert (Sep : forall c fd c' fc', (c < c')%Z ->
            int_to_float (dt * (c + 1)) = Ok fd -> int_to_float (c' * dt) = Ok fc' ->
            fle x (fadd minX fd) = true -> flt (fadd minX fc') x = true -> False).
  { intros c fd c' fc' Hcc Hd Hc' C2 C1.
    pose proof (proj2 (int_to_float_ok _ _ Hd)) as Fd.
    pose proof (proj2 (int_to_float_ok _ _ Hc')) as Fc'.
    assert (M : fle fd fc' = true) by (apply (int_to_float_mono (dt * (c + 1)) (c' * dt) fd fc' ltac:(nia) Hd Hc')).
    pose proof (fadd_mono_r minX fd fc' Nx Fd Fc' M) as M'.
    exact (flt_fle_absurd _ _ C1 (fle_trans _ _ _ C2 M')). }
  destruct (Z.lt_total k k') as [L|[L|L]]; [exfalso|exact L|exfalso].
  - exact (Sep k b k' a' L Hb Ha' A2 B1).
  - exact (Sep k' b' k a L Hb' Ha B2 A1).
Qed.

Lemma row_disjoint (dt a : Z) (minX lo hi : spec_float) (row : list tile)
    (i j : nat) (ti tj : tile) (x y : spec_float) :
  map_py (fun x =>
      let? a := int_to_float (x * dt) in
      let? b := int_to_float (dt * (x + 1)) in
      Ok (fadd minX a, fadd minX b, lo, hi)) (py_range a) = Ok row ->
  nth_error row i = Some ti -> nth_error row j = Some tj ->
  in_partition ti x y = true -> in_partition tj x y = true -> i = j.
Proof.
  intros Hm Hi Hj Hti Htj.
  destruct (row_nth _ _ _ _ _ _ _ _ Hm Hi) as (fa & fb & Ha & Hb & ->).
  destruct (row_nth _ _ _ _ _ _ _ _ Hm Hj) as (fa' & fb' & Ha' & Hb' & ->).
  apply in_partition_iff in Hti; apply in_partition_iff in Htj; simpl in Hti, Htj.
  destruct Hti as (A1 & A2 & _); destruct Htj as (B1 & B2 & _).
  pose proof (column_disjoint _ _ _ _ _ _ _ _ _ Ha Hb Ha' Hb' A1 A2 B1 B2); lia.
Qed.

(** Every tile of a row has the row's Y bounds. *)
Lemma row_bounds (dt a : Z) (minX lo hi : spec_float) (row : list tile) (t : tile) :
  map_py (fun x =>
      let? a := int_to_float (x * dt) in
      let? b := int_to_float (dt * (x + 1)) in
      Ok (fadd minX a, fadd minX b, lo, hi)) (py_range a) = Ok row ->
  In t row -> t_minY t = lo /\ t_maxY t = hi.
Proof.
  intros Hm Hin; destruct (In_nth_error _ _ Hin) as [i Hi].
  destruct (row_nth _ _ _ _ _ _ _ _ Hm Hi) as (fa & fb & _ & _ & ->); split; reflexivity.
Qed.

(** ** Columns of a grid scheme over a finite extent *)

Lemma floor_div_mul_bound (W : Q) (k : Z) :
  (1 <= k)%Z -> Qabs W <= inject_Z (2 ^ 52) ->
  (- 2 ^ 52 - k < Qfloor (W / inject_Z k) * k <= 2 ^ 52)%Z.
Proof.
  intros Hk HW.
  set (d := Qfloor (W / inject_Z k)).
  assert (Kp : 0 < inject_Z k) by (change 0 with (inject_Z 0); rewrite <- Zlt_Qlt; lia).
  pose proof (Qfloor_le (W / inject_Z k)) as F1; pose proof (Qlt_floor (W / inject_Z k)) as F2.
  fold d in F1, F2.
  assert (E : W / inject_Z k * inject_Z k == W) by (field; intros Z0; rewrite Z0 in Kp; discriminate).
  assert (G1 : inject_Z d * inject_Z k <= W).
  { rewrite <- E; apply Qmult_le_compat_r; [exact F1|lra]. }
  assert (G2 : W < inject_Z (d + 1) * inject_Z k).
  { rewrite <- E; apply Qmult_lt_compat_r; [exact Kp|exact F2]. }
  rewrite inject_Z_plus in G2; change (inject_Z 1) with 1 in G2.
  apply Qabs_Qle_condition in HW; destruct HW as [W1 W2].
  split.
  - rewrite Zlt_Qlt, inject_Z_mult; unfold Z.sub; rewrite inject_Z_plus, !inject_Z_opp; nra.
  - rewrite Zle_Qle, inject_Z_mult; lra.
Qed.

(** The edges [minX + x * dt] of a row of [top <= 2^52] columns over a
    width of at most [2^52] are converted to floats without error. *)
Lemma row_edges_ok (minX lo hi : spec_float) (W : Q) (top : Z) :
  (1 <= top <= 2 ^ 52)%Z -> Qabs W <= inject_Z (2 ^ 52) ->
  let dt := Qfloor (W / inject_Z top) in
  map_py (fun x =>
      let? a := int_to_float (x * dt) in
      let? b := int_to_float (dt * (x + 1)) in
      Ok (fadd minX a, fadd minX b, lo, hi)) (py_range top)
  = Ok (map (fun x => (fadd minX (round_q false (inject_Z (x * dt))),
                       fadd minX (round_q false (inject_Z (dt * (x + 1)))), lo, hi))
            (py_range top)).
Proof.
  intros Ht HW dt.
  pose proof (floor_div_mul_bound W top (proj1 Ht) HW) as B; fold dt in B.
  apply map_py_ok; intros x Hx; apply in_py_range in Hx.
  assert (Bd : forall j, (0 <= j <= top)%Z -> (Z.abs (dt * j) <= 2 ^ 54)%Z).
  { intros j Hj; rewrite Z.abs_le.
    assert (P : (2 ^ 54 = 4 * 2 ^ 52)%Z) by reflexivity.
    destruct (Z_le_gt_dec 0 dt) as [D|D].
    - pose proof (Z.mul_nonneg_nonneg dt (top - j) D ltac:(lia)).
      pose proof (Z.mul_nonneg_nonneg dt j D ltac:(lia)); lia.
    - pose proof (Z.mul_nonneg_nonneg (- dt) (top - j) ltac:(lia) ltac:(lia)).
      pose proof (Z.mul_nonneg_nonneg (- dt) j ltac:(lia) ltac:(lia)); lia. }
  rewrite int_to_float_small by (rewrite Z.mul_comm; apply Bd; lia); cbn [rbind].
  rewrite int_to_float_small by (apply Bd; lia); reflexivity.
Qed.

(** ** Claims on classification and on the tile scheme *)

(** C1: for a feature with a non-NULL geometry of envelope
    [(minX, maxX, minY, maxY)], [classify] uses the point
    [x = (minX + maxX) // 2], [y = (minY + maxY) // 2] (float sums and
    float floor divisions) and returns the identifier of the first tile,
    in the order of the scheme, with [pMinX < x <= pMaxX and pMinY < y <=
    pMaxY]; when exactly one tile contains the point, its identifier is
    returned; and when a sum is a finite float of magnitude at most
    [2^52], the coordinate is exactly the floor of half of it. *)
Theorem classify_first_match (l : ogr_layer) (parts : list tile) (f : ogr_feature)
    (minX maxX minY maxY : spec_float) :
  f_envelope f = Some (minX, maxX, minY, maxY) ->
  let x := floordiv_core (fadd minX maxX) f_two in
  let y := floordiv_core (fadd minY maxY) f_two in
  (forall pre part post,
     parts = pre ++ part :: post ->
     Forall (fun q => in_partition q x y = false) pre ->
     in_partition part x y = true ->
     classify l parts f = ([], Ok (Some (partition_to_layer_name l part)))) /\
  (forall part,
     In part parts -> in_partition part x y = true ->
     (forall q, In q parts -> in_partition q x y = true -> q = part) ->
     classify l parts f = ([], Ok (Some (partition_to_layer_name l part)))) /\
  (is_fin (fadd minX maxX) = true -> Qabs (val (fadd minX maxX)) <= pow2 52 ->
     val x == inject_Z (Qfloor (val (fadd minX maxX) / 2))) /\
  (is_fin (fadd minY maxY) = true -> Qabs (val (fadd minY maxY)) <= pow2 52 ->
     val y == inject_Z (Qfloor (val (fadd minY maxY) / 2))).
Proof.
  intros Hf x y.
  assert (Hc : classify l parts f =
            match scan parts x y with
            | Some part => ([], Ok (Some (partition_to_layer_name l part)))
            | None =>
              match py_last parts with
              | Ok part => ([], Ok (Some (partition_to_layer_name l part)))
              | Raise e => ([], Raise e)
              end
            end) by (unfold classify; rewrite Hf; reflexivity).
  split; [|split; [|split]].
  - intros pre part post -> Hpre Hpart.
    now rewrite Hc, (scan_app_first pre post part x y Hpre Hpart).
  - intros part Hin Hpart Huniq; rewrite Hc.
    case_eq (scan parts x y).
    + intros q Hq; destruct (scan_some_in _ _ _ _ Hq) as [Hqin Hqp].
      now rewrite (Huniq q Hqin Hqp).
    + intros Hn; rewrite (scan_none _ _ _ Hn part Hin) in Hpart; discriminate.
  - intros F B; exact (proj2 (floordiv_two_exact _ (fadd_dbl _ _ F) B)).
  - intros F B; exact (proj2 (floordiv_two_exact _ (fadd_dbl _ _ F) B)).
Qed.

Lemma classify_first_match_witness :
  f_envelope (mk_feature (Some (ftile (1 # 10) (19 # 10) (1 # 10) (19 # 10))))
    = Some (ftile (1 # 10) (19 # 10) (1 # 10) (19 # 10)) /\
  classify (mk_layer "roads" (ftile 0 2 0 1) []) [ftile 0 1 0 1; ftile 1 2 0 1]
    (mk_feature (Some (ftile (1 # 10) (19 # 10) (1 # 10) (19 # 10))))
  = ([], Ok (Some (mk_tile_id "roads" (ftile 0 1 0 1)))).
Proof.
  split; [reflexivity|].
  apply (proj1 (classify_first_match (mk_layer "roads" (ftile 0 2 0 1) [])
           [ftile 0 1 0 1; ftile 1 2 0 1]
           (mk_feature (Some (ftile (1 # 10) (19 # 10) (1 # 10) (19 # 10))))
           (py_float (1 # 10)) (py_float (19 # 10)) (py_float (1 # 10)) (py_float (19 # 10))
           eq_refl) [] (ftile 0 1 0 1) [ftile 1 2 0 1]).
  - reflexivity.
  - constructor.
  - vm_compute; reflexivity.
Defined.

(** C5, counterexample: the fallback to the last tile emits no log record
    at all (the point [(0.0, 0.0)] lies in no tile of [(0, 50, 0, 50)]). *)
Lemma classify_fallback_no_warning :
  classify (mk_layer "roads" (ftile 0 100 0 100) []) [ftile 0 50 0 50]
    (mk_feature (Some (ftile 0 0 0 0)))
  = ([], Ok (Some (mk_tile_id "roads" (ftile 0 50 0 50)))).
Proof. vm_compute; reflexivity. Qed.

(** C5 (amended): a feature with a non-NULL geometry whose point lies in
    no tile is assigned to the last tile of a non-empty scheme, and no log
    record is emitted on this path. *)
Theorem classify_fallback_last (l : ogr_layer) (parts : list tile) (f : ogr_feature)
    (env : tile) (d : tile) :
  f_envelope f = Some env ->
  parts <> [] ->
  (forall q, In q parts -> in_partition q (fst (rep_point env)) (snd (rep_point env)) = false) ->
  classify l parts f = ([], Ok (Some (partition_to_layer_name l (last parts d)))).
Proof.
  intros Hf Hne Hnone; unfold classify; rewrite Hf.
  destruct (rep_point env) as [x y] eqn:Hrp; simpl in Hnone.
  case_eq (scan parts x y).
  - intros q Hq; destruct (scan_some_in _ _ _ _ Hq) as [Hin Hp].
    rewrite (Hnone q Hin) in Hp; discriminate.
  - intros _; now rewrite (py_last_last parts d Hne).
Qed.

Lemma classify_fallback_last_witness :
  classify (mk_layer "roads" (ftile 0 100 0 100) []) [ftile 0 50 0 50; ftile 50 100 0 50]
    (mk_feature (Some (ftile 0 0 0 0)))
  = ([], Ok (Some (mk_tile_id "roads" (ftile 50 100 0 50)))).
Proof.
  apply (classify_fallback_last (mk_layer "roads" (ftile 0 100 0 100) [])
           [ftile 0 50 0 50; ftile 50 100 0 50] (mk_feature (Some (ftile 0 0 0 0)))
           (ftile 0 0 0 0) (ftile 0 0 0 0) eq_refl).
  - discriminate.
  - intros q Hq; simpl in Hq.
    destruct Hq as [<-|[<-|[]]]; vm_compute; reflexivity.
Defined.

(** C3: with [count == 2] the extent is cut along X at [maxX / 2] (the
    layer's own [maxX], not [(minX + maxX) / 2]). *)
Theorem create_partitions_half_split (w : world) (l : ogr_layer)
    (minX maxX minY maxY : spec_float) :
  pl_layer (w_part w) = Some l ->
  pl_count (w_part w) = 2%Z ->
  pl_partitions (w_part w) = None ->
  l_extent l = (minX, maxX, minY, maxY) ->
  exists w', create_partitions w = (Ok tt, w') /\
    pl_partitions (w_part w') =
      Some [(minX, fdiv maxX f_two, minY, maxY); (fdiv maxX f_two, maxX, minY, maxY)].
Proof.
  intros Hl Hc Hp He; unfold create_partitions, bind, get_part, emit; simpl.
  rewrite Hl, Hp, Hc, He; simpl.
  eexists; split; reflexivity.
Qed.

Lemma create_partitions_half_split_witness :
  exists w', create_partitions
    (mk_world [] [] (mk_latlon (Some (mk_layer "roads" (ftile 10 30 0 4) [])) 2 None))
    = (Ok tt, w') /\
    pl_partitions (w_part w') =
      Some [(py_float 10, fdiv (py_float 30) f_two, py_float 0, py_float 4);
            (fdiv (py_float 30) f_two, py_float 30, py_float 0, py_float 4)].
Proof.
  apply (create_partitions_half_split
           (mk_world [] [] (mk_latlon (Some (mk_layer "roads" (ftile 10 30 0 4) [])) 2 None))
           (mk_layer "roads" (ftile 10 30 0 4) [])
           (py_float 10) (py_float 30) (py_float 0) (py_float 4)); reflexivity.
Defined.

(** C2, counterexample: the scheme is not built for every extent and
    every [count >= 1]: over the widest extent of doubles the width
    [maxX - minX] overflows to [inf], [inf // 2.0] is [nan] and [int(nan)]
    raises [ValueError]; and a [count] too large for a float makes
    [count / 2] raise [OverflowError]. *)
Lemma compute_partitions_width_overflow :
  compute_partitions 3 (py_float (- maxfloat), py_float maxfloat, f_zero, f_one)
    = Raise ValueError /\
  compute_partitions (10 ^ 400) (ftile 0 100 0 100) = Raise OverflowError.
Proof. split; vm_compute; reflexivity. Qed.

(** C2 (amended): [count == 1] gives the extent itself and [count == 2]
    two tiles.  For [3 <= count < 2^53] and an extent whose width
    [maxX - minX] is a finite float of magnitude at most [2^52], the
    scheme is built and has [count] tiles: [top = ceil(count / 2)] tiles
    between [minY] and the Y midpoint [ymid = (maxY - minY) // 2 + minY],
    then [bottom = floor(count / 2)] tiles between [ymid] and [maxY]; the
    column step of a row of [k] tiles is [floor((maxX - minX) / k)], and
    tile [x] of the row spans [minX + x * step] to [minX + step * (x + 1)]
    (the int converted to float, then added to [minX]).  The midpoint is
    the floor of half the height when that height is a finite float of
    magnitude at most [2^52]. *)
Theorem compute_partitions_tile_count (n : Z) (minX maxX minY maxY : spec_float) :
  (1 <= n)%Z ->
  (n = 1%Z -> compute_partitions n (minX, maxX, minY, maxY) = Ok [(minX, maxX, minY, maxY)]) /\
  (n = 2%Z -> exists ps, compute_partitions n (minX, maxX, minY, maxY) = Ok ps /\
                         List.length ps = 2%nat) /\
  ((3 <= n < 2 ^ 53)%Z -> is_fin (fsub maxX minX) = true ->
    Qabs (val (fsub maxX minX)) <= pow2 52 ->
    let top := Qceiling (inject_Z n / 2) in
    let bottom := Qfloor (inject_Z n / 2) in
    let dt := Qfloor (val (fsub maxX minX) / inject_Z top) in
    let db := Qfloor (val (fsub maxX minX) / inject_Z bottom) in
    let ymid := fadd (floordiv_core (fsub maxY minY) f_two) minY in
    (top + bottom = n)%Z /\
    exists tops bots,
      compute_partitions n (minX, maxX, minY, maxY) = Ok (tops ++ bots) /\
      List.length (tops ++ bots) = Z.to_nat n /\
      List.length tops = Z.to_nat top /\ List.length bots = Z.to_nat bottom /\
      tops = map (fun x => (fadd minX (round_q false (inject_Z (x * dt))),
                            fadd minX (round_q false (inject_Z (dt * (x + 1)))),
                            minY, ymid)) (py_range top) /\
      bots = map (fun x => (fadd minX (round_q false (inject_Z (x * db))),
                            fadd minX (round_q false (inject_Z (db * (x + 1)))),
                            ymid, maxY)) (py_range bottom) /\
      (is_fin (fsub maxY minY) = true -> Qabs (val (fsub maxY minY)) <= pow2 52 ->
         val (floordiv_core (fsub maxY minY) f_two)
           == inject_Z (Qfloor (val (fsub maxY minY) / 2)))).
Proof.
  intros Hn.
  split; [intros ->; reflexivity|].
  split; [intros ->; eexists; split; reflexivity|].
  intros H3 FW BW; cbv zeta; rewrite half_ceiling, half_floor.
  assert (Hsum := half_sum n).
  pose proof (Z.div_mod n 2) as D1; pose proof (Z.mod_pos_bound n 2) as D2.
  pose proof (Z.div_mod (- n) 2) as D3; pose proof (Z.mod_pos_bound (- n) 2) as D4.
  assert (P53 : (2 ^ 53 = 2 * 2 ^ 52)%Z) by reflexivity.
  assert (Ht : (1 <= - (- n / 2) <= 2 ^ 52)%Z) by lia.
  assert (Hb : (1 <= n / 2 <= 2 ^ 52)%Z) by lia.
  assert (BW' : Qabs (val (fsub maxX minX)) <= inject_Z (2 ^ 52))
    by (rewrite <- pow2_Z by lia; exact BW).
  pose proof (fadd_dbl _ _ FW) as DW.
  destruct (half_steps n ltac:(lia)) as (half & Hh & Hc & Hf).
  destruct (width_step_exact (fsub maxX minX) (- (- n / 2)) DW BW ltac:(lia))
    as (ft & qt & Hft & Hqt & Hdt).
  destruct (width_step_exact (fsub maxX minX) (n / 2) DW BW ltac:(lia))
    as (fb & qb & Hfb & Hqb & Hdb).
  split; [exact Hsum|].
  eexists; eexists; split.
  - unfold compute_partitions.
    rewrite (proj2 (Z.eqb_neq n 1)) by lia; rewrite (proj2 (Z.eqb_neq n 2)) by lia.
    rewrite Hh; cbn [rbind]; rewrite Hc; cbn [rbind]; rewrite Hf; cbn [rbind].
    rewrite Hft; cbn [rbind]; rewrite Hqt; cbn [rbind]; rewrite Hdt; cbn [rbind].
    rewrite Hfb; cbn [rbind]; rewrite Hqb; cbn [rbind]; rewrite Hdb; cbn [rbind].
    rewrite (row_edges_ok minX minY _ _ _ Ht BW'); cbn [rbind].
    rewrite (row_edges_ok minX _ maxY _ _ Hb BW'); cbn [rbind].
    reflexivity.
  - rewrite !length_app, !length_map, !py_range_length.
    split; [rewrite <- Z2Nat.inj_add by lia; now rewrite Hsum|].
    split; [reflexivity|]; split; [reflexivity|].
    split; [reflexivity|]; split; [reflexivity|].
    intros F B; exact (proj2 (floordiv_two_exact _ (fadd_dbl _ _ F) B)).
Qed.

Lemma compute_partitions_tile_count_witness :
  exists tops bots,
    compute_partitions 5 (ftile 0 90 0 10) = Ok (tops ++ bots) /\
    List.length (tops ++ bots) = 5%nat /\ List.length tops = 3%nat.
Proof.
  destruct (compute_partitions_tile_count 5 (py_float 0) (py_float 90) (py_float 0) (py_float 10)
              ltac:(lia)) as (_ & _ & H3).
  destruct (H3 ltac:(lia) ltac:(vm_compute; reflexivity) ltac:(vm_compute; discriminate))
    as (_ & tops & bots & Hc & Hl & Ht & _).
  exists tops, bots; split; [exact Hc|split; [exact Hl|exact Ht]].
Defined.

(** C7, counterexample: [create_partitions] has no check of its own on
    [count]: [count == 0] fails with a division by zero, [count == -2]
    builds an empty scheme, over an extent of infinite width
    [count == -2] fails with [ValueError] ([int(inf // -1.0)]), and a
    [count] too negative for a float makes [count / 2] raise
    [OverflowError]. *)
Lemma compute_partitions_no_config_error :
  compute_partitions 0 (ftile 0 100 0 100) = Raise ZeroDivisionError /\
  compute_partitions (-2) (ftile 0 100 0 100) = Ok [] /\
  compute_partitions (-2) (py_float (- maxfloat), py_float maxfloat, f_zero, f_one)
    = Raise ValueError /\
  compute_partitions (- 10 ^ 400) (ftile 0 100 0 100) = Raise OverflowError.
Proof. split; [|split; [|split]]; vm_compute; reflexivity. Qed.

(** C7 (amended): for [count < 1] the builder itself fails with
    [ZeroDivisionError] when [count] is [0] or [-1] and, for
    [-2^53 < count <= -2], returns an empty scheme when the width
    [maxX - minX] of the extent is a finite float; a count below 1 is
    refused only by the command-line check, before any partitioning. *)
Theorem compute_partitions_below_one (n : Z) (ext : tile) :
  (n < 1)%Z ->
  cli_check n = Some "You must have at least 1 output layer"%string /\
  ((n = 0 \/ n = -1)%Z -> compute_partitions n ext = Raise ZeroDivisionError) /\
  ((- 2 ^ 53 < n <= -2)%Z -> is_fin (fsub (t_maxX ext) (t_minX ext)) = true ->
   compute_partitions n ext = Ok []).
Proof.
  intros Hn; split; [unfold cli_check; now rewrite (proj2 (Z.ltb_lt n 1) Hn)|].
  destruct ext as [[[minX maxX] minY] maxY]; simpl t_maxX; simpl t_minX.
  split.
  - intros [-> | ->]; reflexivity.
  - intros H2 FW.
    pose proof (Z.div_mod n 2) as D1; pose proof (Z.mod_pos_bound n 2) as D2.
    pose proof (Z.div_mod (- n) 2) as D3; pose proof (Z.mod_pos_bound (- n) 2) as D4.
    assert (P53 : (2 ^ 53 = 2 * 2 ^ 52)%Z) by reflexivity.
    pose proof (fadd_dbl _ _ FW) as DW.
    destruct (half_steps n ltac:(lia)) as (half & Hh & Hc & Hf).
    destruct (width_step (fsub maxX minX) (- (- n / 2)) DW ltac:(lia))
      as (ft & qt & Hft & Hqt & Hdt & _).
    destruct (width_step (fsub maxX minX) (n / 2) DW ltac:(lia))
      as (fb & qb & Hfb & Hqb & Hdb & _).
    unfold compute_partitions.
    rewrite (proj2 (Z.eqb_neq n 1)) by lia; rewrite (proj2 (Z.eqb_neq n 2)) by lia.
    rewrite Hh; cbn [rbind]; rewrite Hc; cbn [rbind]; rewrite Hf; cbn [rbind].
    rewrite Hft; cbn [rbind]; rewrite Hqt; cbn [rbind]; rewrite Hdt; cbn [rbind].
    rewrite Hfb; cbn [rbind]; rewrite Hqb; cbn [rbind]; rewrite Hdb; cbn [rbind].
    rewrite !py_range_nonpos by lia; reflexivity.
Qed.

Lemma compute_partitions_below_one_witness :
  (-3 < 1)%Z /\
  cli_check (-3) = Some "You must have at least 1 output layer"%string /\
  compute_partitions (-3) (ftile 0 100 0 100) = Ok [].
Proof.
  split; [lia|].
  destruct (compute_partitions_below_one (-3) (ftile 0 100 0 100) ltac:(lia)) as (H1 & _ & H3).
  split; [exact H1|].
  apply H3; [lia|vm_compute; reflexivity].
Defined.
(** ** Memoisation of the scheme *)

Lemma emit_all_spec (logs : list event) (w : world) :
  fold_right (fun e m => emit e ;; m) (ret tt) logs w
  = (Ok tt, mk_world (w_fs w) (w_trace w ++ logs) (w_part w)).
Proof.
  revert w; induction logs as [|e rest IH]; intros [fs tr p]; simpl.
  - now rewrite app_nil_r.
  - unfold bind at 1, emit at 1; simpl; rewrite IH; simpl.
    now rewrite <- app_assoc.
Qed.

Lemma create_partitions_built (w : world) (l : ogr_layer) (ps : list tile) :
  pl_layer (w_part w) = Some l -> pl_partitions (w_part w) = Some ps ->
  create_partitions w = (Ok tt, w).
Proof.
  intros Hl Hp; unfold create_partitions, bind, get_part; simpl.
  now rewrite Hl, Hp.
Qed.

(** C9: once [layer_names] (hence [create_partitions]) has succeeded on a
    partition object with its layer set, a second [create_partitions]
    changes nothing and records no [GetExtent] call, and a second
    [layer_names] returns the same identifiers in the same order. *)
Theorem layer_names_memoized (w w1 : world) (l : ogr_layer) (ks : list tile_id) :
  pl_layer (w_part w) = Some l ->
  layer_names w = (Ok ks, w1) ->
  create_partitions w1 = (Ok tt, w1) /\ layer_names w1 = (Ok ks, w1).
Proof.
  intros Hl H.
  destruct w as [fs tr [lay c parts]]; simpl in Hl; subst lay.
  destruct parts as [ps|].
  - assert (Hc : create_partitions (mk_world fs tr (mk_latlon (Some l) c (Some ps)))
                 = (Ok tt, mk_world fs tr (mk_latlon (Some l) c (Some ps))))
      by (now apply (create_partitions_built _ l ps)).
    unfold layer_names, bind at 1 in H; rewrite Hc in H.
    assert (Hw : w1 = mk_world fs tr (mk_latlon (Some l) c (Some ps))).
    { unfold get_part, ret, raise, bind in H; destruct ps; simpl in H; congruence. }
    subst w1; split; [exact Hc|].
    unfold layer_names, bind at 1; rewrite Hc.
    unfold get_part, ret, raise, bind in H |- *; destruct ps; simpl in H |- *; congruence.
  - unfold layer_names, create_partitions, bind, get_part, emit, put_part, raise, ret in H;
      simpl in H.
    destruct (compute_partitions c (l_extent l)) as [ps|e] eqn:Hcp; [|discriminate].
    set (w2 := mk_world fs (tr ++ [EvGetExtent]) (mk_latlon (Some l) c (Some ps))).
    assert (Hc : create_partitions w2 = (Ok tt, w2))
      by (now apply (create_partitions_built _ l ps)).
    assert (Hw : w1 = w2).
    { unfold w2; destruct ps; simpl in H; congruence. }
    subst w1; split; [exact Hc|].
    unfold layer_names, bind at 1; rewrite Hc.
    unfold get_part, ret, raise, bind; destruct ps; simpl in H |- *; congruence.
Qed.

Lemma layer_names_memoized_witness :
  let w := mk_world [] [] (mk_latlon (Some (mk_layer "roads" (ftile 0 100 0 100) [])) 4 None) in
  create_partitions (snd (layer_names w)) = (Ok tt, snd (layer_names w)) /\
  layer_names (snd (layer_names w)) = (Ok (map (mk_tile_id "roads")
     [(ftile 0 50 0 50); (ftile 50 100 0 50); (ftile 0 50 50 100); (ftile 50 100 50 100)]),
     snd (layer_names w)).
Proof.
  intros w.
  apply (layer_names_memoized w (snd (layer_names w)) (mk_layer "roads" (ftile 0 100 0 100) []));
    [reflexivity|].
  vm_compute; reflexivity.
Defined.

(** C10: after the scheme of a partition object has been built, [set_layer]
    with another layer keeps the stored rectangles: [create_partitions]
    does nothing, [layer_names] pairs the old rectangles with the new
    layer's name, and each generator step classifies the new layer's
    features against the old rectangles under the new name. *)
Theorem set_layer_keeps_rectangles (w : world) (l l' : ogr_layer) (ps : list tile) :
  pl_layer (w_part w) = Some l ->
  pl_partitions (w_part w) = Some ps ->
  let w2 := mk_world (w_fs w) (w_trace w) (set_layer l' (w_part w)) in
  create_partitions w2 = (Ok tt, w2) /\
  layer_names w2 = (Ok (map (partition_to_layer_name l') ps), w2) /\
  (forall fidx f, nth_error (l_features l') fidx = Some f ->
     fst (gen_item fidx w2) =
       match snd (classify l' ps f) with
       | Ok key => Ok key
       | Raise e => Raise e
       end).
Proof.
  intros Hl Hp w2.
  assert (Hc : create_partitions w2 = (Ok tt, w2)).
  { apply (create_partitions_built _ l' ps); unfold w2, set_layer; simpl; auto. }
  split; [exact Hc|split].
  - unfold layer_names, bind at 1; rewrite Hc.
    unfold get_part, ret, bind, w2, set_layer; simpl; rewrite Hp.
    destruct ps; reflexivity.
  - intros fidx f Hf.
    unfold gen_item, bind at 1, get_part, w2, set_layer; simpl; rewrite Hp, Hf.
    destruct (f_envelope f) eqn:He;
      destruct (classify l' ps f) as [logs r] eqn:Hcl;
      unfold bind at 1; rewrite emit_all_spec; simpl;
      destruct r as [key|e]; reflexivity.
Qed.

Lemma set_layer_keeps_rectangles_witness :
  let w := mk_world [] [] (mk_latlon (Some (mk_layer "a" (ftile 0 10 0 10) [])) 1
                            (Some [(ftile 0 10 0 10)])) in
  let l' := mk_layer "b" (ftile 0 100 0 100) [mk_feature (Some (ftile 60 60 60 60))] in
  let w2 := mk_world (w_fs w) (w_trace w) (set_layer l' (w_part w)) in
  create_partitions w2 = (Ok tt, w2) /\
  layer_names w2 = (Ok [mk_tile_id "b" (ftile 0 10 0 10)], w2) /\
  fst (gen_item 0 w2) = Ok (Some (mk_tile_id "b" (ftile 0 10 0 10))).
Proof.
  cbv zeta.
  destruct (set_layer_keeps_rectangles
              (mk_world [] [] (mk_latlon (Some (mk_layer "a" (ftile 0 10 0 10) [])) 1
                                 (Some [(ftile 0 10 0 10)])))
              (mk_layer "a" (ftile 0 10 0 10) [])
              (mk_layer "b" (ftile 0 100 0 100) [mk_feature (Some (ftile 60 60 60 60))])
              [(ftile 0 10 0 10)] eq_refl eq_refl) as [H1 [H2 H3]].
  split; [exact H1|split; [exact H2|]].
  rewrite (H3 0%nat (mk_feature (Some (ftile 60 60 60 60))) eq_refl).
  vm_compute; reflexivity.
Defined.

(** ** An existing output directory *)

Lemma path_exists_dir (name : string) (w : world) :
  In (PDir name) (w_fs w) -> path_exists (PDir name) w = (Ok true, w).
Proof.
  intros Hin; unfold path_exists; f_equal; f_equal.
  apply existsb_exists; exists (PDir name); split; [exact Hin|].
  simpl; apply String.eqb_refl.
Qed.

Lemma layer_partition_dir_exists (l : ogr_layer) (name : string) (w : world) :
  In (PDir name) (w_fs w) ->
  layer_partition l name w =
    (Ok [], mk_world (w_fs w) (w_trace w ++ [EvLog LError (name ++ " already exists")])
                     (w_part w)).
Proof.
  intros Hin; unfold layer_partition, bind at 1; rewrite (path_exists_dir name w Hin).
  reflexivity.
Qed.

(** C8: when the output directory [name] of a source already exists,
    [Source.partition] returns no identifier, logs one error per layer,
    and leaves the file system (and the partition object) unchanged. *)
Theorem source_partition_dir_exists (layers : list ogr_layer) (name : string) (w : world) :
  In (PDir name) (w_fs w) ->
  source_partition layers name w =
    (Ok [], mk_world (w_fs w)
              (w_trace w ++ repeat (EvLog LError (name ++ " already exists")) (List.length layers))
              (w_part w)).
Proof.
  revert w; induction layers as [|l rest IH]; intros w Hin; simpl.
  - unfold ret; destruct w; simpl; now rewrite app_nil_r.
  - unfold bind at 1; rewrite (layer_partition_dir_exists l name w Hin).
    unfold bind at 1; rewrite IH by exact Hin; simpl.
    now rewrite <- app_assoc.
Qed.

Lemma source_partition_dir_exists_witness :
  In (PDir "out/a") [PDir "out/a"] /\
  source_partition [mk_layer "roads" (ftile 0 100 0 100) [mk_feature None]] "out/a"
    (mk_world [PDir "out/a"] [] (new_latlon 4))
  = (Ok [], mk_world [PDir "out/a"] [EvLog LError "out/a already exists"] (new_latlon 4)).
Proof.
  split; [now left|].
  apply (source_partition_dir_exists [mk_layer "roads" (ftile 0 100 0 100) [mk_feature None]]
           "out/a" (mk_world [PDir "out/a"] [] (new_latlon 4))).
  now left.
Defined.

(** ** The driver's phases *)

Lemma frepr_eqb_refl (a : spec_float) : frepr_eqb a a = true.
Proof.
  destruct a as [s|s| |s m e]; simpl; try apply eqb_reflx; [reflexivity|].
  apply Qeq_bool_iff; reflexivity.
Qed.

Lemma frepr_eqb_sym (a b : spec_float) : frepr_eqb a b = frepr_eqb b a.
Proof.
  destruct a as [s|s| |s m e]; destruct b as [s'|s'| |s' m' e']; simpl; try reflexivity;
    try (destruct s, s'; reflexivity).
  apply eq_true_iff_eq; rewrite !Qeq_bool_iff; split; intros H; now symmetry.
Qed.

Lemma frepr_eqb_trans (a b c : spec_float) :
  frepr_eqb a b = true -> frepr_eqb b c = true -> frepr_eqb a c = true.
Proof.
  destruct a as [s|s| |s m e]; destruct b as [s'|s'| |s' m' e'];
    destruct c as [s''|s''| |s'' m'' e'']; simpl; try discriminate; try reflexivity;
    try (destruct s, s', s''; simpl; congruence).
  rewrite !Qeq_bool_iff; intros H1 H2; rewrite H1; exact H2.
Qed.

Lemma tile_id_eqb_refl (k : tile_id) : tile_id_eqb k k = true.
Proof.
  destruct k as [n [[[a b] c] e]]; unfold tile_id_eqb, tile_eqb; simpl.
  now rewrite String.eqb_refl, !frepr_eqb_refl.
Qed.

Lemma tile_id_eqb_sym (a b : tile_id) : tile_id_eqb a b = tile_id_eqb b a.
Proof.
  unfold tile_id_eqb, tile_eqb.
  rewrite String.eqb_sym, (frepr_eqb_sym (t_minX _)), (frepr_eqb_sym (t_maxX _)),
    (frepr_eqb_sym (t_minY _)), (frepr_eqb_sym (t_maxY _)).
  reflexivity.
Qed.

Lemma tile_id_eqb_trans (a b c : tile_id) :
  tile_id_eqb a b = true -> tile_id_eqb b c = true -> tile_id_eqb a c = true.
Proof.
  unfold tile_id_eqb, tile_eqb; rewrite !andb_true_iff, !String.eqb_eq.
  intros [S1 (((A1 & A2) & A3) & A4)] [S2 (((B1 & B2) & B3) & B4)].
  split; [congruence|].
  repeat split; eapply frepr_eqb_trans; eauto.
Qed.

Lemma dict_set_lookup_self (k : tile_id) (v : nat) (d : dict) :
  exists h, dict_lookup k (dict_set k v d) = Some h.
Proof.
  induction d as [|[k' v'] rest IH]; simpl.
  - rewrite tile_id_eqb_refl; eauto.
  - destruct (tile_id_eqb k k') eqn:E; simpl; rewrite E; eauto.
Qed.

Lemma dict_set_lookup_keep (k k2 : tile_id) (v : nat) (d : dict) (h : nat) :
  dict_lookup k d = Some h -> exists h', dict_lookup k (dict_set k2 v d) = Some h'.
Proof.
  induction d as [|[k' v'] rest IH]; simpl; [discriminate|].
  intros Hl.
  destruct (tile_id_eqb k2 k'); simpl; destruct (tile_id_eqb k k'); eauto.
Qed.

Lemma create_outputs_spec (dir : string) (keys : list tile_id) :
  forall h d w, exists d' ev w',
    create_outputs dir h keys d w = (Ok d', w') /\
    w_trace w' = w_trace w ++ ev /\ w_part w' = w_part w /\
    Forall (fun e => is_feature_event e = false) ev /\
    (forall k, In k keys ->
       (exists h', In (EvCreateDS h' dir k) ev) /\ exists h', dict_lookup k d' = Some h') /\
    (forall k h0, dict_lookup k d = Some h0 -> exists h', dict_lookup k d' = Some h').
Proof.
  induction keys as [|k rest IH]; intros h d w.
  - exists d, [], w; simpl; rewrite app_nil_r.
    split; [reflexivity|]; split; [reflexivity|]; split; [reflexivity|].
    split; [constructor|]; split; [intros k0 []|eauto].
  - set (w1 := if existsb (path_eqb (PFile dir k)) (w_fs w)
               then mk_world (filter (fun q => negb (path_eqb (PFile dir k) q)) (w_fs w))
                             (w_trace w ++ [EvRemove dir k]) (w_part w)
               else w).
    set (pre := if existsb (path_eqb (PFile dir k)) (w_fs w)
                then [EvRemove dir k] else []).
    set (w2 := mk_world (w_fs w1 ++ [PFile dir k]) (w_trace w1 ++ [EvCreateDS h dir k])
                        (w_part w1)).
    assert (Hstep : create_outputs dir h (k :: rest) d w
                    = create_outputs dir (S h) rest (dict_set k h d) w2).
    { unfold w2, w1; simpl; unfold bind at 1, path_exists; simpl.
      destruct (existsb (path_eqb (PFile dir k)) (w_fs w)); reflexivity. }
    assert (Htr1 : w_trace w1 = w_trace w ++ pre /\ w_part w1 = w_part w).
    { unfold w1, pre; destruct (existsb (path_eqb (PFile dir k)) (w_fs w));
        simpl; auto using app_nil_r. }
    destruct Htr1 as [Htr1 Hp1].
    destruct (IH (S h) (dict_set k h d) w2)
      as (d' & ev & w' & Hrun & Htr & Hp & Hev & Hkeys & Hkeep).
    exists d', (pre ++ EvCreateDS h dir k :: ev), w'.
    split; [now rewrite Hstep|].
    split; [rewrite Htr; unfold w2; simpl; rewrite Htr1; now rewrite <- !app_assoc|].
    split; [rewrite Hp; unfold w2; simpl; exact Hp1|].
    split.
    { apply Forall_app; split; [unfold pre; destruct (existsb _ _); repeat constructor|].
      constructor; [reflexivity|exact Hev]. }
    split.
    + intros k0 [<-|Hin].
      * split; [exists h; apply in_or_app; right; now left|].
        destruct (dict_set_lookup_self k h d) as [h1 Hh1]; eauto.
      * destruct (Hkeys k0 Hin) as [[h' Hh'] Hl]; split; [|exact Hl].
        exists h'; apply in_or_app; right; now right.
    + intros k0 h0 Hl.
      destruct (dict_set_lookup_keep k0 k h d h0 Hl) as [h1 Hh1]; eauto.
Qed.

Lemma sync_all_spec (d : dict) : forall w,
  sync_all d w = (Ok tt, mk_world (w_fs w) (w_trace w ++ map (fun kv => EvSync (snd kv)) d)
                                  (w_part w)).
Proof.
  induction d as [|[k0 h] rest IH]; intros [fs tr p]; simpl.
  - now rewrite app_nil_r.
  - unfold bind at 1, emit at 1; simpl; rewrite IH; simpl.
    now rewrite <- app_assoc.
Qed.

Lemma classify_ok (l : ogr_layer) (ps : list tile) (f : ogr_feature) :
  ps <> [] ->
  exists logs key, classify l ps f = (logs, Ok key) /\
    Forall (fun e => exists m, e = EvLog LWarning m) logs /\
    (f_envelope f = None -> key = None) /\
    (f_envelope f <> None -> exists p, In p ps /\ key = Some (partition_to_layer_name l p)).
Proof.
  intros Hne; unfold classify.
  destruct (f_envelope f) as [env|].
  - destruct (rep_point env) as [x y].
    destruct (scan ps x y) as [p|] eqn:Hs.
    + exists [], (Some (partition_to_layer_name l p)).
      split; [reflexivity|split; [constructor|split; [discriminate|]]].
      intros _; exists p; split; [apply (scan_some_in _ _ _ _ Hs)|reflexivity].
    + destruct (py_last ps) as [p|e] eqn:Hl.
      * exists [], (Some (partition_to_layer_name l p)).
        split; [reflexivity|split; [constructor|split; [discriminate|]]].
        intros _; exists p; split; [exact (py_last_in _ _ Hl)|reflexivity].
      * rewrite (py_last_last ps (ftile 0 0 0 0) Hne) in Hl; discriminate.
  - exists [EvLog LWarning "Found a NULL geometry"], None.
    split; [reflexivity|split; [repeat constructor; eauto|split; [reflexivity|]]].
    intros H; now contradiction H.
Qed.

Lemma gen_item_spec (w : world) (l : ogr_layer) (c : Z) (ps : list tile) (fidx : nat)
    (f : ogr_feature) (logs : list event) (key : option tile_id) :
  w_part w = mk_latlon (Some l) c (Some ps) ->
  nth_error (l_features l) fidx = Some f ->
  classify l ps f = (logs, Ok key) ->
  gen_item fidx w = (Ok key, mk_world (w_fs w) (w_trace w ++ logs ++ [EvYield fidx]) (w_part w)).
Proof.
  intros Hp Hf Hc.
  unfold gen_item, bind at 1, get_part; rewrite Hp; simpl; rewrite Hf.
  assert (Hrun : (let '(logs0, r) := classify l ps f in
                  fold_right (fun e m => emit e ;; m) (ret tt) logs0 ;;
                  match r with
                  | Raise e => raise e
                  | Ok key0 => emit (EvYield fidx) ;; ret key0
                  end) w
                 = (Ok key, mk_world (w_fs w) (w_trace w ++ logs ++ [EvYield fidx]) (w_part w))).
  { rewrite Hc; unfold bind at 1; rewrite emit_all_spec; simpl.
    unfold bind, emit, ret; simpl; now rewrite <- app_assoc. }
  rewrite Hp in Hrun; destruct (f_envelope f); exact Hrun.
Qed.

Lemma feed_spec (l : ogr_layer) (c : Z) (ps : list tile) (d : dict) (fidxs : list nat) :
  ps <> [] ->
  (forall p, In p ps -> exists h, dict_lookup (partition_to_layer_name l p) d = Some h) ->
  (forall fidx, In fidx fidxs -> (fidx < List.length (l_features l))%nat) ->
  forall w, w_part w = mk_latlon (Some l) c (Some ps) ->
  feed d fidxs w =
    (Ok tt, mk_world (w_fs w) (w_trace w ++ flat_map (feature_events l ps d) fidxs)
                     (w_part w)).
Proof.
  intros Hne Hd.
  induction fidxs as [|fidx rest IH]; intros Hbound w Hp; simpl.
  - destruct w; simpl; now rewrite app_nil_r.
  - assert (Hlt : (fidx < List.length (l_features l))%nat) by (apply Hbound; now left).
    destruct (nth_error (l_features l) fidx) as [f|] eqn:Hf;
      [|apply nth_error_None in Hf; lia].
    destruct (classify_ok l ps f Hne) as (logs & key & Hc & _ & Hnull & Hkey).
    unfold bind at 1; rewrite (gen_item_spec w l c ps fidx f logs key Hp Hf Hc).
    unfold feature_events at 1; rewrite Hf, Hc.
    assert (IH' := fun w' => IH (fun i Hi => Hbound i (or_intror Hi)) w').
    destruct key as [k|].
    + destruct Hkey as (p & Hin & [= ->]); [intros He; specialize (Hnull He); discriminate|].
      destruct (Hd p Hin) as [h Hh]; rewrite Hh.
      unfold bind at 1, emit; simpl; rewrite IH' by (simpl; exact Hp); simpl.
      now rewrite <- !app_assoc.
    + unfold bind at 1, ret; simpl; rewrite IH' by (simpl; exact Hp); simpl.
      now rewrite <- !app_assoc.
Qed.

Lemma bind_ok {A B} (m : M A) (k : A -> M B) (w w' : world) (a : A) :
  m w = (Ok a, w') -> bind m k w = k a w'.
Proof. intros H; unfold bind; now rewrite H. Qed.

Lemma latlon_call_start_built (w : world) (l : ogr_layer) (ps : list tile) :
  pl_layer (w_part w) = Some l -> pl_partitions (w_part w) = Some ps ->
  latlon_call_start w = (Ok (List.length (l_features l)), w).
Proof.
  intros Hl Hp; unfold latlon_call_start.
  rewrite (bind_ok _ _ _ _ _ (create_partitions_built w l ps Hl Hp)).
  unfold bind, get_part; simpl; now rewrite Hl.
Qed.

Lemma path_exists_dir_absent (name : string) (w : world) :
  ~ In (PDir name) (w_fs w) -> path_exists (PDir name) w = (Ok false, w).
Proof.
  intros Hn; unfold path_exists.
  destruct (existsb (path_eqb (PDir name)) (w_fs w)) eqn:E; [|reflexivity].
  apply existsb_exists in E; destruct E as [[d|d k] [Hin Heq]]; simpl in Heq;
    [|discriminate].
  apply String.eqb_eq in Heq; subst d; contradiction.
Qed.

Lemma layer_names_fresh (w : world) (l : ogr_layer) (c : Z) (ps : list tile) :
  w_part w = mk_latlon (Some l) c None ->
  compute_partitions c (l_extent l) = Ok ps ->
  layer_names w = (Ok (map (partition_to_layer_name l) ps),
                   mk_world (w_fs w) (w_trace w ++ [EvGetExtent]) (mk_latlon (Some l) c (Some ps))).
Proof.
  intros Hp Hc.
  unfold layer_names, create_partitions, bind, get_part, emit, put_part, ret, raise.
  rewrite Hp; simpl; rewrite Hc; simpl.
  destruct ps; reflexivity.
Qed.

(** The whole trace of [Layer.partition] on a fresh output directory, for a
    fresh partition object with [count >= 1] whose scheme is [ps]: the
    [mkdir], the [GetExtent] of the scheme's construction, the creation of
    one data source per tile (no feature event), then one block of
    [feature_events] per feature in index order, then the syncs. *)
Lemma layer_partition_trace (l : ogr_layer) (name : string) (w : world) (ps : list tile) :
  ~ In (PDir name) (w_fs w) ->
  pl_partitions (w_part w) = None ->
  (1 <= pl_count (w_part w))%Z ->
  compute_partitions (pl_count (w_part w)) (l_extent l) = Ok ps ->
  exists d ev post w',
    layer_partition l name w = (Ok (map fst d), w') /\
    w_trace w' = w_trace w ++ [EvMkdir name; EvGetExtent] ++ ev
                 ++ flat_map (feature_events l ps d) (seq 0 (List.length (l_features l)))
                 ++ post /\
    Forall (fun e => is_feature_event e = false) ev /\
    (forall p, In p ps -> exists h, In (EvCreateDS h name (partition_to_layer_name l p)) ev) /\
    post = map (fun kv => EvSync (snd kv)) d /\
    (forall p, In p ps -> exists h, dict_lookup (partition_to_layer_name l p) d = Some h).
Proof.
  intros Hdir Hnone Hc Hps.
  destruct w as [fs tr [lay c parts]]; simpl in Hnone, Hc, Hps |- *; subst parts.
  pose proof (compute_partitions_nonempty c (l_extent l) ps Hc Hps) as Hne.
  unfold layer_partition.
  erewrite bind_ok by (apply path_exists_dir_absent; exact Hdir); cbv beta iota.
  erewrite bind_ok by reflexivity.
  erewrite bind_ok by reflexivity.
  erewrite bind_ok by reflexivity.
  erewrite bind_ok by (apply layer_names_fresh; [reflexivity|exact Hps]).
  cbn [w_fs w_trace w_part set_layer pl_count pl_partitions pl_layer] in *.
  match goal with
  | |- context [bind (create_outputs name 0 ?ks []) _ ?w3] =>
    destruct (create_outputs_spec name ks 0 [] w3)
      as (d & ev & w4 & Hrun & Htr & Hp & Hev & Hkeys & _)
  end.
  erewrite bind_ok by exact Hrun.
  simpl in Htr, Hp.
  erewrite bind_ok by (apply (latlon_call_start_built w4 l ps); rewrite Hp; reflexivity).
  assert (Hd : forall p, In p ps ->
                 exists h, dict_lookup (partition_to_layer_name l p) d = Some h)
    by (intros p Hin; apply (Hkeys _ (in_map _ _ _ Hin))).
  erewrite bind_ok
    by (apply (feed_spec l c ps d);
        [exact Hne|exact Hd|intros i Hi; apply in_seq in Hi; lia|exact Hp]).
  erewrite bind_ok by apply sync_all_spec.
  unfold ret.
  exists d, ev, (map (fun kv => EvSync (snd kv)) d).
  eexists.
  split; [reflexivity|].
  split; [simpl; rewrite Htr; now rewrite <- !app_assoc|].
  split; [exact Hev|].
  split.
  - intros p Hin; destruct (Hkeys _ (in_map _ _ _ Hin)) as [[h Hh] _].
    exists h; exact Hh.
  - split; [reflexivity|exact Hd].
Qed.

(** When the scheme cannot be computed, [Layer.partition] on a fresh
    output directory stops in [layer_names] with the exception of
    [create_partitions], after the [mkdir] and the [GetExtent] and before
    any data source is created or any feature is read. *)
Lemma layer_partition_scheme_raises (l : ogr_layer) (name : string) (w : world) (e : py_exn) :
  ~ In (PDir name) (w_fs w) ->
  pl_partitions (w_part w) = None ->
  compute_partitions (pl_count (w_part w)) (l_extent l) = Raise e ->
  layer_partition l name w =
    (Raise e, mk_world (w_fs w ++ [PDir name]) (w_trace w ++ [EvMkdir name; EvGetExtent])
                       (set_layer l (w_part w))).
Proof.
  intros Hdir Hnone Hps.
  destruct w as [fs tr [lay c parts]]; simpl in Hnone, Hps |- *; subst parts.
  unfold layer_partition.
  erewrite bind_ok by (apply path_exists_dir_absent; exact Hdir); cbv beta iota.
  cbv [bind mkdir get_part put_part set_layer layer_names create_partitions emit raise ret
       w_fs w_trace w_part pl_layer pl_partitions pl_count].
  rewrite Hps; now rewrite <- app_assoc.
Qed.

Lemma feature_events_assigned (l : ogr_layer) (ps : list tile) (d : dict) (i : nat)
    (f : ogr_feature) :
  ps <> [] ->
  (forall p, In p ps -> exists h, dict_lookup (partition_to_layer_name l p) d = Some h) ->
  nth_error (l_features l) i = Some f -> f_envelope f <> None ->
  exists h, feature_events l ps d i = [EvYield i; EvCreateFeature h i].
Proof.
  intros Hne Hd Hf Henv.
  destruct (classify_ok l ps f Hne) as (logs & key & Hc & _ & _ & Hkey).
  destruct (Hkey Henv) as (p & Hin & ->).
  destruct (Hd p Hin) as [h Hh].
  assert (Hlogs : logs = []).
  { unfold classify in Hc; destruct (f_envelope f) as [env|]; [|now contradiction Henv].
    destruct (rep_point env); destruct (scan ps _ _); [congruence|].
    destruct (py_last ps); congruence. }
  subst logs; exists h; unfold feature_events; now rewrite Hf, Hc, Hh.
Qed.

Lemma feature_events_null (l : ogr_layer) (ps : list tile) (d : dict) (i : nat)
    (f : ogr_feature) :
  nth_error (l_features l) i = Some f -> f_envelope f = None ->
  feature_events l ps d i = [EvLog LWarning "Found a NULL geometry"; EvYield i].
Proof.
  intros Hf Henv; unfold feature_events, classify; now rewrite Hf, Henv.
Qed.

(** C4, counterexample: on a layer of two features with [count == 1],
    the data source of the tile is created and the first feature is
    written before the second feature is classified. *)
Lemma layer_partition_not_two_phase :
  ~ writes_after_classification
      (w_trace (snd (layer_partition
         (mk_layer "roads" (ftile 0 100 0 100)
            [mk_feature (Some (ftile 10 10 10 10)); mk_feature (Some (ftile 60 80 70 90))])
         "out/roads" (mk_world [] [] (new_latlon 1))))).
Proof.
  intros H.
  assert (Hlt : (5 < 4)%nat).
  { apply (H 4%nat 5%nat (EvCreateFeature 0 0) 1%nat); vm_compute; reflexivity. }
  lia.
Qed.

(** C4 (amended): on a fresh output directory and with a fresh partition
    object of [count >= 1] whose scheme is [ps], [Layer.partition] first
    creates the directory, reads the extent to build the scheme and
    creates the data source of every tile (no feature is classified
    meanwhile); then, feature after feature in index order, it classifies
    the feature and at once writes it to its tile (a NULL geometry only
    yields a warning); no feature mapping is built; the data sources are
    synced at the end. *)
Theorem layer_partition_interleaved (l : ogr_layer) (name : string) (w : world)
    (ps : list tile) :
  ~ In (PDir name) (w_fs w) ->
  pl_partitions (w_part w) = None ->
  (1 <= pl_count (w_part w))%Z ->
  compute_partitions (pl_count (w_part w)) (l_extent l) = Ok ps ->
  exists d ev post w',
    layer_partition l name w = (Ok (map fst d), w') /\
    w_trace w' = w_trace w ++ [EvMkdir name; EvGetExtent] ++ ev
                 ++ flat_map (feature_events l ps d) (seq 0 (List.length (l_features l)))
                 ++ post /\
    Forall (fun e => is_feature_event e = false) ev /\
    (forall p, In p ps -> exists h, In (EvCreateDS h name (partition_to_layer_name l p)) ev) /\
    post = map (fun kv => EvSync (snd kv)) d /\
    (forall i f, nth_error (l_features l) i = Some f -> f_envelope f <> None ->
       exists h, feature_events l ps d i = [EvYield i; EvCreateFeature h i]) /\
    (forall i f, nth_error (l_features l) i = Some f -> f_envelope f = None ->
       feature_events l ps d i = [EvLog LWarning "Found a NULL geometry"; EvYield i]).
Proof.
  intros Hdir Hnone Hc Hps.
  pose proof (compute_partitions_nonempty _ _ ps Hc Hps) as Hne.
  destruct (layer_partition_trace l name w ps Hdir Hnone Hc Hps)
    as (d & ev & post & w' & Hrun & Htr & Hev & Hds & Hpost & Hd).
  exists d, ev, post, w'.
  repeat (split; [eassumption|]).
  split.
  - intros i f Hf Henv; exact (feature_events_assigned l ps d i f Hne Hd Hf Henv).
  - intros i f Hf Henv; exact (feature_events_null l ps d i f Hf Henv).
Qed.

Lemma layer_partition_interleaved_witness :
  let L := mk_layer "roads" (ftile 0 100 0 100)
             [mk_feature (Some (ftile 10 20 10 20)); mk_feature (Some (ftile 60 80 70 90))] in
  let PS := [ftile 0 50 0 50; ftile 50 100 0 50; ftile 0 50 50 100; ftile 50 100 50 100] in
  compute_partitions 4 (ftile 0 100 0 100) = Ok PS /\
  exists d ev post w',
    layer_partition L "out/roads" (mk_world [] [] (new_latlon 4)) = (Ok (map fst d), w') /\
    w_trace w' = [EvMkdir "out/roads"; EvGetExtent] ++ ev
                 ++ flat_map (feature_events L PS d) (seq 0 2) ++ post /\
    (exists h, feature_events L PS d 0 = [EvYield 0; EvCreateFeature h 0]) /\
    (exists h, feature_events L PS d 1 = [EvYield 1; EvCreateFeature h 1]).
Proof.
  intros L PS.
  assert (Hps : compute_partitions 4 (ftile 0 100 0 100) = Ok PS) by (vm_compute; reflexivity).
  split; [exact Hps|].
  destruct (layer_partition_interleaved L "out/roads" (mk_world [] [] (new_latlon 4)) PS
              (fun H => H) eq_refl ltac:(simpl; lia) Hps)
    as (d & ev & post & w' & Hrun & Htr & _ & _ & _ & Hgeo & _).
  exists d, ev, post, w'.
  split; [exact Hrun|]; split; [exact Htr|].
  split; [apply (Hgeo 0%nat (mk_feature (Some (ftile 10 20 10 20))))
         |apply (Hgeo 1%nat (mk_feature (Some (ftile 60 80 70 90))))];
    (reflexivity || discriminate).
Defined.

Lemma in_feature_events_write (l : ogr_layer) (ps : list tile) (d : dict) (j h k : nat) :
  In (EvCreateFeature h k) (feature_events l ps d j) ->
  k = j /\ exists g, nth_error (l_features l) j = Some g /\ f_envelope g <> None.
Proof.
  unfold feature_events.
  destruct (nth_error (l_features l) j) as [g|] eqn:Hg; [|intros []].
  unfold classify.
  destruct (f_envelope g) as [env|] eqn:He.
  - destruct (rep_point env).
    assert (Hgen : forall key logs, logs = [] ->
              In (EvCreateFeature h k)
                (logs ++ EvYield j :: match dict_lookup key d with
                                      | Some h0 => [EvCreateFeature h0 j] | None => [] end) ->
              k = j).
    { intros key logs -> Hin; simpl in Hin.
      destruct Hin as [Hin|Hin]; [discriminate|].
      destruct (dict_lookup key d); [|destruct Hin].
      destruct Hin as [Hin|[]]; congruence. }
    destruct (scan ps _ _); [|destruct (py_last ps)];
      try (intros Hin; split; [exact (Hgen _ [] eq_refl Hin)|exists g; split; [reflexivity|congruence]]).
    intros [].
  - simpl; intros [H|[H|[]]]; discriminate.
Qed.

(** C6: a feature with a NULL geometry is classified as unassigned with a
    warning, and [Layer.partition] (on a fresh output directory, with a
    fresh partition object of [count >= 1]) never writes it to any output.
    When the tile scheme is computed, the call succeeds, logs the warning
    and still writes every feature with a geometry; when the computation
    of the scheme raises, the call raises before reading any feature. *)
Theorem null_geometry_dropped (l : ogr_layer) (name : string) (w : world) (i : nat)
    (f : ogr_feature) :
  ~ In (PDir name) (w_fs w) ->
  pl_partitions (w_part w) = None ->
  (1 <= pl_count (w_part w))%Z ->
  (forall h, ~ In (EvCreateFeature h i) (w_trace w)) ->
  nth_error (l_features l) i = Some f -> f_envelope f = None ->
  (forall ps, classify l ps f = ([EvLog LWarning "Found a NULL geometry"], Ok None)) /\
  (forall ps, compute_partitions (pl_count (w_part w)) (l_extent l) = Ok ps ->
   exists keys w',
    layer_partition l name w = (Ok keys, w') /\
    In (EvLog LWarning "Found a NULL geometry") (w_trace w') /\
    (forall h, ~ In (EvCreateFeature h i) (w_trace w')) /\
    (forall j g, j <> i -> nth_error (l_features l) j = Some g -> f_envelope g <> None ->
       exists h, In (EvCreateFeature h j) (w_trace w'))) /\
  (forall e, compute_partitions (pl_count (w_part w)) (l_extent l) = Raise e ->
   exists w',
    layer_partition l name w = (Raise e, w') /\
    (forall h, ~ In (EvCreateFeature h i) (w_trace w'))).
Proof.
  intros Hdir Hnone Hc Hfresh Hf Henv.
  split; [intros ps'; unfold classify; now rewrite Henv|].
  split.
  2:{ intros e He.
      eexists; split; [exact (layer_partition_scheme_raises l name w e Hdir Hnone He)|].
      intros h Hin; simpl in Hin; apply in_app_or in Hin.
      destruct Hin as [Hin|[Hin|[Hin|[]]]]; [exact (Hfresh h Hin)|discriminate|discriminate]. }
  intros ps Hps.
  pose proof (compute_partitions_nonempty _ _ ps Hc Hps) as Hne.
  destruct (layer_partition_trace l name w ps Hdir Hnone Hc Hps)
    as (d & pre & post & w' & Hrun & Htr & Hpre & _ & Hpost & Hd).
  assert (Hi : In i (seq 0 (List.length (l_features l)))).
  { apply in_seq; split; [lia|]; apply nth_error_Some; congruence. }
  exists (map fst d), w'.
  split; [exact Hrun|].
  split.
  { rewrite Htr; apply in_or_app; right; simpl; right; right.
    apply in_or_app; right; apply in_or_app; left.
    apply in_flat_map; exists i; split; [exact Hi|].
    rewrite (feature_events_null l ps d i f Hf Henv); now left. }
  split.
  - intros h Hin; rewrite Htr in Hin.
    apply in_app_or in Hin; destruct Hin as [Hin|Hin]; [exact (Hfresh h Hin)|].
    simpl in Hin; destruct Hin as [Hin|[Hin|Hin]]; [discriminate|discriminate|].
    apply in_app_or in Hin; destruct Hin as [Hin|Hin].
    { rewrite Forall_forall in Hpre; specialize (Hpre _ Hin); discriminate. }
    apply in_app_or in Hin; destruct Hin as [Hin|Hin].
    + apply in_flat_map in Hin; destruct Hin as (j & _ & Hin).
      destruct (in_feature_events_write l ps d j h i Hin) as [-> (g & Hg & Hgenv)].
      rewrite Hf in Hg; injection Hg as <-; contradiction.
    + rewrite Hpost in Hin; apply in_map_iff in Hin; destruct Hin as (kv & Heq & _).
      discriminate.
  - intros j g Hji Hg Hgenv.
    destruct (feature_events_assigned l ps d j g Hne Hd Hg Hgenv) as [h Hh].
    exists h; rewrite Htr; apply in_or_app; right; simpl; right; right.
    apply in_or_app; right; apply in_or_app; left.
    apply in_flat_map; exists j; split.
    + apply in_seq; split; [lia|]; apply nth_error_Some; congruence.
    + rewrite Hh; right; now left.
Qed.

Lemma null_geometry_dropped_witness :
  let l := mk_layer "roads" (ftile 0 100 0 100)
             [mk_feature None; mk_feature (Some (ftile 10 20 10 20))] in
  (forall ps, classify l ps (mk_feature None)
              = ([EvLog LWarning "Found a NULL geometry"], Ok None)) /\
  (forall ps, compute_partitions 4 (ftile 0 100 0 100) = Ok ps ->
   exists keys w',
    layer_partition l "out/roads" (mk_world [] [] (new_latlon 4)) = (Ok keys, w') /\
    In (EvLog LWarning "Found a NULL geometry") (w_trace w') /\
    (forall h, ~ In (EvCreateFeature h 0) (w_trace w')) /\
    (forall j g, j <> 0%nat -> nth_error (l_features l) j = Some g -> f_envelope g <> None ->
       exists h, In (EvCreateFeature h j) (w_trace w'))) /\
  (forall e, compute_partitions 4 (ftile 0 100 0 100) = Raise e ->
   exists w',
    layer_partition l "out/roads" (mk_world [] [] (new_latlon 4)) = (Raise e, w') /\
    (forall h, ~ In (EvCreateFeature h 0) (w_trace w'))) /\
  compute_partitions 4 (ftile 0 100 0 100)
    = Ok [ftile 0 50 0 50; ftile 50 100 0 50; ftile 0 50 50 100; ftile 50 100 50 100].
Proof.
  intros l.
  destruct (null_geometry_dropped l "out/roads" (mk_world [] [] (new_latlon 4)) 0
              (mk_feature None) (fun H => H) eq_refl ltac:(simpl; lia) (fun h H => H)
              eq_refl eq_refl) as (A & B & C).
  split; [exact A|split; [exact B|split; [exact C|vm_compute; reflexivity]]].
Defined.

(** * Further properties of the partitioner *)

(** ** Geometry of the tile scheme *)

(** X1: the tiles of a scheme never overlap under the membership test of
    [__call__]: whatever the rounding of the float edges, the column edges
    [minX + x * dt] are monotone in [x] and the two rows meet at the one
    float [ymid], so a point lies in at most one tile. *)
Theorem compute_partitions_disjoint (n : Z) (ext : tile) (ps : list tile) :
  compute_partitions n ext = Ok ps ->
  forall i j ti tj x y,
    nth_error ps i = Some ti -> nth_error ps j = Some tj ->
    in_partition ti x y = true -> in_partition tj x y = true -> i = j.
Proof.
  destruct ext as [[[minX maxX] minY] maxY]; intros H i j ti tj x y Hi Hj Hti Htj.
  destruct (Z.eq_dec n 1) as [->|H1].
  { simpl in H; injection H as <-.
    destruct i as [|[|i]]; destruct j as [|[|j]]; simpl in Hi, Hj; congruence. }
  destruct (Z.eq_dec n 2) as [->|H2].
  { simpl in H; injection H as <-.
    apply in_partition_iff in Hti; apply in_partition_iff in Htj.
    destruct i as [|[|[|i]]]; destruct j as [|[|[|j]]]; simpl in Hi, Hj;
      try congruence; exfalso;
      injection Hi as <-; injection Hj as <-; simpl in Hti, Htj;
      destruct Hti as (A1 & A2 & _); destruct Htj as (B1 & B2 & _);
      [exact (flt_fle_absurd _ _ B1 A2)|exact (flt_fle_absurd _ _ A1 B2)]. }
  destruct (compute_partitions_grid n minX maxX minY maxY ps H1 H2 H)
    as (half & top & bottom & dt & db & tops & bots & _ & _ & _ & Ht & Hb & ->).
  destruct (nth_error_app_cases _ _ _ _ Hi) as [[Li Ni]|[Li Ni]];
  destruct (nth_error_app_cases _ _ _ _ Hj) as [[Lj Nj]|[Lj Nj]].
  - exact (row_disjoint _ _ _ _ _ _ _ _ _ _ _ _ Ht Ni Nj Hti Htj).
  - exfalso.
    destruct (row_bounds _ _ _ _ _ _ _ Ht (nth_error_In _ _ Ni)) as [_ Ei].
    destruct (row_bounds _ _ _ _ _ _ _ Hb (nth_error_In _ _ Nj)) as [Ej _].
    apply in_partition_iff in Hti; apply in_partition_iff in Htj.
    rewrite Ei in Hti; rewrite Ej in Htj.
    exact (flt_fle_absurd _ _ (proj1 (proj2 (proj2 Htj))) (proj2 (proj2 (proj2 Hti)))).
  - exfalso.
    destruct (row_bounds _ _ _ _ _ _ _ Hb (nth_error_In _ _ Ni)) as [Ei _].
    destruct (row_bounds _ _ _ _ _ _ _ Ht (nth_error_In _ _ Nj)) as [_ Ej].
    apply in_partition_iff in Hti; apply in_partition_iff in Htj.
    rewrite Ei in Hti; rewrite Ej in Htj.
    exact (flt_fle_absurd _ _ (proj1 (proj2 (proj2 Hti))) (proj2 (proj2 (proj2 Htj)))).
  - pose proof (row_disjoint _ _ _ _ _ _ _ _ _ _ _ _ Hb Ni Nj Hti Htj); lia.
Qed.

Lemma compute_partitions_disjoint_witness :
  compute_partitions 4 (ftile 0 100 0 100)
    = Ok [ftile 0 50 0 50; ftile 50 100 0 50; ftile 0 50 50 100; ftile 50 100 50 100] /\
  (forall i j ti tj x y,
    nth_error [ftile 0 50 0 50; ftile 50 100 0 50; ftile 0 50 50 100; ftile 50 100 50 100] i
      = Some ti ->
    nth_error [ftile 0 50 0 50; ftile 50 100 0 50; ftile 0 50 50 100; ftile 50 100 50 100] j
      = Some tj ->
    in_partition ti x y = true -> in_partition tj x y = true -> i = j).
Proof.
  split; [vm_compute; reflexivity|].
  apply (compute_partitions_disjoint 4 (ftile 0 100 0 100)); vm_compute; reflexivity.
Defined.

(** ** Where the fallback catches features *)

Lemma scan_snoc_excluded (pre : list tile) (lt : tile) (x y : spec_float) :
  Forall (fun q => in_partition q x y = false) pre ->
  scan (pre ++ [lt]) x y = if in_partition lt x y then Some lt else None.
Proof.
  induction 1 as [|q pre Hq _ IH]; simpl.
  - now destruct (in_partition lt x y).
  - now rewrite Hq.
Qed.

Lemma py_last_snoc (pre : list tile) (lt : tile) : py_last (pre ++ [lt]) = Ok lt.
Proof. unfold py_last; now rewrite rev_app_distr. Qed.

Lemma classify_excluded_last (l : ogr_layer) (pre : list tile) (lt : tile)
    (f : ogr_feature) (env : tile) :
  f_envelope f = Some env ->
  Forall (fun q => in_partition q (fst (rep_point env)) (snd (rep_point env)) = false) pre ->
  classify l (pre ++ [lt]) f = ([], Ok (Some (partition_to_layer_name l lt))).
Proof.
  intros He Hpre; unfold classify; rewrite He.
  destruct (rep_point env) as [x y]; simpl in Hpre.
  rewrite (scan_snoc_excluded _ _ _ _ Hpre).
  destruct (in_partition lt x y); [reflexivity|now rewrite py_last_snoc].
Qed.

(** X2: with one output layer the scheme is the extent itself, and every
    feature with a geometry is assigned to it, also when its
    representative point lies outside the extent or on its left or bottom
    edge (the fallback catches it). *)
Theorem classify_single_tile (l : ogr_layer) (ext : tile) (f : ogr_feature) (env : tile) :
  f_envelope f = Some env ->
  exists ps, compute_partitions 1 ext = Ok ps /\
    classify l ps f = ([], Ok (Some (partition_to_layer_name l ext))).
Proof.
  intros He; destruct ext as [[[a b] c] d].
  exists [(a, b, c, d)]; split; [reflexivity|].
  exact (classify_excluded_last l [] (a, b, c, d) f env He (Forall_nil _)).
Qed.

Lemma classify_single_tile_witness :
  f_envelope (mk_feature (Some (ftile 500 600 500 600))) = Some (ftile 500 600 500 600) /\
  exists ps, compute_partitions 1 (ftile 0 100 0 100) = Ok ps /\
    classify (mk_layer "roads" (ftile 0 100 0 100) []) ps (mk_feature (Some (ftile 500 600 500 600)))
    = ([], Ok (Some (partition_to_layer_name (mk_layer "roads" (ftile 0 100 0 100) [])
                                             (ftile 0 100 0 100)))).
Proof.
  split; [reflexivity|].
  apply (classify_single_tile (mk_layer "roads" (ftile 0 100 0 100) []) (ftile 0 100 0 100)
           (mk_feature (Some (ftile 500 600 500 600))) (ftile 500 600 500 600)).
  reflexivity.
Defined.

(** X3: with two output layers, when the split abscissa [maxX / 2] (a
    float division) is not right of [minX] (an extent with
    [maxX <= 2 * minX], e.g. longitudes 100 to 120), the first tile
    contains no point and every feature with a geometry is assigned to the
    second tile [(maxX / 2, maxX, minY, maxY)]. *)
Theorem classify_two_tiles_left_empty (l : ogr_layer) (minX maxX minY maxY : spec_float)
    (f : ogr_feature) (env : tile) :
  fle (fdiv maxX f_two) minX = true -> f_envelope f = Some env ->
  exists ps, compute_partitions 2 (minX, maxX, minY, maxY) = Ok ps /\
    classify l ps f
    = ([], Ok (Some (partition_to_layer_name l (fdiv maxX f_two, maxX, minY, maxY)))).
Proof.
  intros Hs He.
  exists [(minX, fdiv maxX f_two, minY, maxY); (fdiv maxX f_two, maxX, minY, maxY)].
  split; [reflexivity|].
  apply (classify_excluded_last l [(minX, fdiv maxX f_two, minY, maxY)] _ f env He).
  constructor; [|constructor].
  destruct (in_partition _ _ _) eqn:E; [|reflexivity].
  apply in_partition_iff in E; simpl in E; destruct E as (E1 & E2 & _).
  exfalso; exact (flt_fle_absurd _ _ E1 (fle_trans _ _ _ E2 Hs)).
Qed.

Lemma classify_two_tiles_left_empty_witness :
  (fle (fdiv (py_float 120) f_two) (py_float 100) = true /\
   f_envelope (mk_feature (Some (ftile 101 103 0 2))) = Some (ftile 101 103 0 2)) /\
  exists ps, compute_partitions 2 (ftile 100 120 0 10) = Ok ps /\
    classify (mk_layer "roads" (ftile 100 120 0 10) []) ps (mk_feature (Some (ftile 101 103 0 2)))
    = ([], Ok (Some (partition_to_layer_name (mk_layer "roads" (ftile 100 120 0 10) [])
                       (fdiv (py_float 120) f_two, py_float 120, py_float 0, py_float 10)))).
Proof.
  split; [split; [vm_compute; reflexivity|reflexivity]|].
  apply (classify_two_tiles_left_empty (mk_layer "roads" (ftile 100 120 0 10) [])
           (py_float 100) (py_float 120) (py_float 0) (py_float 10)
           (mk_feature (Some (ftile 101 103 0 2))) (ftile 101 103 0 2));
    [vm_compute|]; reflexivity.
Defined.

(** ** Which features reach the output *)

Lemma written_app (t1 t2 : list event) : written (t1 ++ t2) = written t1 ++ written t2.
Proof.
  induction t1 as [|e t1 IH]; [reflexivity|].
  destruct e; simpl; rewrite ?IH; reflexivity.
Qed.

Lemma written_no_feature_event (tr : list event) :
  Forall (fun e => is_feature_event e = false) tr -> written tr = [].
Proof.
  induction 1 as [|e tr He _ IH]; [reflexivity|].
  destruct e; simpl in He |- *; congruence.
Qed.

Lemma written_flat_map (g : nat -> list event) (xs : list nat) :
  written (flat_map g xs) = flat_map (fun i => written (g i)) xs.
Proof.
  induction xs as [|x xs IH]; [reflexivity|].
  simpl; now rewrite written_app, IH.
Qed.

Lemma filter_flat_map (p : nat -> bool) (xs : list nat) :
  filter p xs = flat_map (fun i => if p i then [i] else []) xs.
Proof.
  induction xs as [|x xs IH]; [reflexivity|].
  simpl; rewrite IH; now destruct (p x).
Qed.

Lemma flat_map_ext_on {A B} (f g : A -> list B) (xs : list A) :
  (forall x, In x xs -> f x = g x) -> flat_map f xs = flat_map g xs.
Proof.
  induction xs as [|x xs IH]; intros H; [reflexivity|].
  simpl; rewrite (H x (or_introl eq_refl)), IH; [reflexivity|].
  intros y Hy; apply H; now right.
Qed.

(** X7: on a fresh output directory and with a fresh partition object of
    count [>= 1], [Layer.partition] writes every feature that has a
    geometry exactly once and no other feature, in the order of the
    feature indices, when the tile scheme is computed; when the
    computation of the scheme raises, the call raises and writes
    nothing. *)
Theorem layer_partition_writes_each_once (l : ogr_layer) (name : string) (w : world) :
  ~ In (PDir name) (w_fs w) ->
  pl_partitions (w_part w) = None ->
  (1 <= pl_count (w_part w))%Z ->
  (forall ps, compute_partitions (pl_count (w_part w)) (l_extent l) = Ok ps ->
   exists ks w', layer_partition l name w = (Ok ks, w') /\
    written (w_trace w') =
      written (w_trace w) ++ filter (has_geometry l) (seq 0 (List.length (l_features l)))) /\
  (forall e, compute_partitions (pl_count (w_part w)) (l_extent l) = Raise e ->
   exists w', layer_partition l name w = (Raise e, w') /\
    written (w_trace w') = written (w_trace w)).
Proof.
  intros Hdir Hnone Hc; split.
  2:{ intros e He.
      eexists; split; [exact (layer_partition_scheme_raises l name w e Hdir Hnone He)|].
      simpl; rewrite written_app; now rewrite app_nil_r. }
  intros ps Hps.
  pose proof (compute_partitions_nonempty _ _ ps Hc Hps) as Hne.
  destruct (layer_partition_trace l name w ps Hdir Hnone Hc Hps)
    as (d & pre & post & w' & Hrun & Htr & Hpre & _ & Hpost & Hd).
  exists (map fst d), w'; split; [exact Hrun|].
  rewrite Htr, !written_app, (written_no_feature_event _ Hpre).
  assert (Hs : written post = []).
  { rewrite Hpost; clear; induction d as [|kv d IH]; [reflexivity|exact IH]. }
  rewrite Hs, app_nil_r, written_flat_map, filter_flat_map; simpl.
  f_equal; apply flat_map_ext_on; intros i Hi; apply in_seq in Hi.
  destruct (nth_error (l_features l) i) as [f|] eqn:Hf;
    [|apply nth_error_None in Hf; lia].
  unfold has_geometry; rewrite Hf.
  destruct (f_envelope f) as [env|] eqn:He.
  - destruct (feature_events_assigned l ps d i f Hne Hd Hf ltac:(congruence)) as [h ->].
    reflexivity.
  - now rewrite (feature_events_null l ps d i f Hf He).
Qed.

Lemma layer_partition_writes_each_once_witness :
  let L := mk_layer "roads" (ftile 0 100 0 100)
             [mk_feature (Some (ftile 10 20 10 20)); mk_feature None;
              mk_feature (Some (ftile 60 70 60 70))] in
  let W := mk_world [] [] (new_latlon 4) in
  compute_partitions 4 (ftile 0 100 0 100)
    = Ok [ftile 0 50 0 50; ftile 50 100 0 50; ftile 0 50 50 100; ftile 50 100 50 100] /\
  exists ks w', layer_partition L "out" W = (Ok ks, w') /\
    written (w_trace w') = [0%nat; 2%nat].
Proof.
  intros L W.
  assert (Hps : compute_partitions 4 (ftile 0 100 0 100)
    = Ok [ftile 0 50 0 50; ftile 50 100 0 50; ftile 0 50 50 100; ftile 50 100 50 100])
    by (vm_compute; reflexivity).
  split; [exact Hps|].
  destruct (layer_partition_writes_each_once L "out" W (fun H => H) eq_refl ltac:(simpl; lia))
    as [Hok _].
  exact (Hok _ Hps).
Defined.

(** ** The identifiers returned by [Layer.partition] *)

Lemma bind_inv {A B} (m : M A) (k : A -> M B) (w w' : world) (r : B) :
  bind m k w = (Ok r, w') -> exists a w1, m w = (Ok a, w1) /\ k a w1 = (Ok r, w').
Proof.
  unfold bind; destruct (m w) as [[a|e] w1]; [eauto|discriminate].
Qed.

Ltac peel H :=
  apply bind_inv in H; destruct H as (? & ? & ? & H); cbv beta in H.

Lemma in_dict_set_keys (k : tile_id) (v : nat) (d : dict) (k2 : tile_id) :
  In k2 (map fst (dict_set k v d)) -> In k2 (map fst d) \/ k2 = k.
Proof.
  induction d as [|[k' v'] d IH]; simpl.
  - intros [<-|[]]; now right.
  - destruct (tile_id_eqb k k'); simpl; [tauto|].
    intros [<-|H]; [tauto|destruct (IH H); tauto].
Qed.

Lemma dict_set_distinct (k : tile_id) (v : nat) (d : dict) :
  keys_distinct (map fst d) -> keys_distinct (map fst (dict_set k v d)).
Proof.
  induction d as [|[k' v'] d IH]; simpl.
  - intros _; split; [constructor|exact I].
  - intros [Hk' Hd].
    destruct (tile_id_eqb k k') eqn:E; simpl; [tauto|].
    split; [|exact (IH Hd)].
    apply Forall_forall; intros k2 Hk2.
    destruct (in_dict_set_keys k v d k2 Hk2) as [Hin| ->].
    + exact (proj1 (Forall_forall _ _) Hk' k2 Hin).
    + now rewrite tile_id_eqb_sym.
Qed.

Lemma create_outputs_distinct (dir : string) (keys : list tile_id) :
  forall h d w d' w', create_outputs dir h keys d w = (Ok d', w') ->
  keys_distinct (map fst d) -> keys_distinct (map fst d').
Proof.
  induction keys as [|k rest IH]; intros h d w d' w' H Hd; simpl in H.
  - unfold ret in H; congruence.
  - peel H; peel H; peel H.
    exact (IH _ _ _ _ _ H (dict_set_distinct k h d Hd)).
Qed.

(** X8: whatever the state, the identifiers returned by [Layer.partition]
    are pairwise distinct as strings: tiles with equal bounds (for instance
    the zero-width tiles of a narrow extent) share one key of the dict,
    hence one output file and one entry of the result. *)
Theorem layer_partition_keys_distinct (l : ogr_layer) (name : string) (w w' : world)
    (ks : list tile_id) :
  layer_partition l name w = (Ok ks, w') -> keys_distinct ks.
Proof.
  unfold layer_partition; intros H.
  peel H; destruct x.
  - peel H; unfold ret in H; injection H as <- _; exact I.
  - peel H; peel H; peel H; peel H.
    apply bind_inv in H; destruct H as (d & w5 & Hco & H); cbv beta in H.
    peel H; peel H; peel H.
    unfold ret in H; injection H as <- _.
    exact (create_outputs_distinct _ _ _ _ _ _ _ Hco I).
Qed.

Lemma layer_partition_keys_distinct_witness :
  let L := mk_layer "roads" (ftile 0 1 0 100)
             [mk_feature (Some (ftile 0 1 20 30)); mk_feature (Some (ftile 0 1 70 80))] in
  let W := mk_world [] [] (new_latlon 4) in
  layer_partition L "out" W
    = (Ok [mk_tile_id "roads" (ftile 0 0 0 50); mk_tile_id "roads" (ftile 0 0 50 100)],
       snd (layer_partition L "out" W)) /\
  keys_distinct [mk_tile_id "roads" (ftile 0 0 0 50); mk_tile_id "roads" (ftile 0 0 50 100)].
Proof.
  intros L W.
  assert (E : layer_partition L "out" W
              = (Ok [mk_tile_id "roads" (ftile 0 0 0 50); mk_tile_id "roads" (ftile 0 0 50 100)],
                 snd (layer_partition L "out" W))) by (vm_compute; reflexivity).
  split; [exact E|].
  exact (layer_partition_keys_distinct L "out" W _ _ E).
Defined.

(** ** [Source.partition] over several layers *)

Lemma keeps_ret {A} (a : A) : keeps_fs (ret a).
Proof. intros w r w' H; unfold ret in H; congruence. Qed.

Lemma keeps_raise {A} (e : py_exn) : keeps_fs (@raise A e).
Proof. intros w r w' H; unfold raise in H; congruence. Qed.

Lemma keeps_emit (e : event) : keeps_fs (emit e).
Proof. intros w r w' H; unfold emit in H; injection H as _ <-; reflexivity. Qed.

Lemma keeps_get : keeps_fs get_part.
Proof. intros w r w' H; unfold get_part in H; congruence. Qed.

Lemma keeps_put (p : latlon) : keeps_fs (put_part p).
Proof. intros w r w' H; unfold put_part in H; injection H as _ <-; reflexivity. Qed.

Lemma keeps_bind {A B} (m : M A) (k : A -> M B) :
  keeps_fs m -> (forall a, keeps_fs (k a)) -> keeps_fs (bind m k).
Proof.
  intros Hm Hk w r w' H; unfold bind in H.
  destruct (m w) as [[a|e] w1] eqn:E.
  - rewrite (Hk a _ _ _ H); exact (Hm _ _ _ E).
  - injection H as _ <-; exact (Hm _ _ _ E).
Qed.

Lemma keeps_emit_all (logs : list event) :
  keeps_fs (fold_right (fun e m => emit e ;; m) (ret tt) logs).
Proof.
  induction logs as [|e logs IH]; simpl; [apply keeps_ret|].
  apply keeps_bind; [apply keeps_emit|intros _; exact IH].
Qed.

Ltac keeps :=
  repeat first
    [ apply keeps_bind; [|intros ?; cbv beta]
    | apply keeps_ret | apply keeps_raise | apply keeps_emit | apply keeps_get
    | apply keeps_put | apply keeps_emit_all
    | match goal with |- keeps_fs (match ?x with _ => _ end) => destruct x end ].

Lemma keeps_create_partitions : keeps_fs create_partitions.
Proof. unfold create_partitions; keeps. Qed.

Lemma keeps_layer_names : keeps_fs layer_names.
Proof. unfold layer_names; keeps; apply keeps_create_partitions. Qed.

Lemma keeps_latlon_call_start : keeps_fs latlon_call_start.
Proof. unfold latlon_call_start; keeps; apply keeps_create_partitions. Qed.

Lemma keeps_gen_item (fidx : nat) : keeps_fs (gen_item fidx).
Proof. unfold gen_item; keeps. Qed.

Lemma keeps_feed (d : dict) (fidxs : list nat) : keeps_fs (feed d fidxs).
Proof.
  induction fidxs as [|fidx rest IH]; simpl; keeps; try apply keeps_gen_item; exact IH.
Qed.

Lemma keeps_sync_all (d : dict) : keeps_fs (sync_all d).
Proof. induction d as [|[k h] d IH]; simpl; keeps; exact IH. Qed.

Lemma keeps_fs_ok {A} (m : M A) (w w' : world) (a : A) (p : path) :
  keeps_fs m -> m w = (Ok a, w') -> In p (w_fs w) -> In p (w_fs w').
Proof. intros Hk H Hin; now rewrite (Hk _ _ _ H). Qed.

Lemma create_outputs_keeps_dir (dir dir' : string) (keys : list tile_id) :
  forall h d w d' w', create_outputs dir h keys d w = (Ok d', w') ->
  In (PDir dir') (w_fs w) -> In (PDir dir') (w_fs w').
Proof.
  induction keys as [|k rest IH]; intros h d w d' w' H Hin; simpl in H.
  - unfold ret in H; congruence.
  - peel H; peel H; peel H.
    apply (IH _ _ _ _ _ H).
    match goal with
    | Hc : create_ds _ _ _ _ = _ |- _ => unfold create_ds in Hc; injection Hc as _ <-
    end; simpl; apply in_or_app; left.
    match goal with
    | Hp : path_exists _ _ = _, Hb : (if ?b then _ else _) _ = _ |- _ =>
      unfold path_exists in Hp; injection Hp as _ <-; destruct b
    end.
    + match goal with
      | Hr : remove_file _ _ _ = _ |- _ => unfold remove_file in Hr; injection Hr as _ <-
      end; simpl; apply filter_In; split; [exact Hin|reflexivity].
    + match goal with
      | Hr : ret _ _ = _ |- _ => unfold ret in Hr; injection Hr as _ <-
      end; exact Hin.
Qed.

(** After a successful [Layer.partition], its output directory exists. *)
Lemma layer_partition_leaves_dir (l : ogr_layer) (name : string) (w w1 : world)
    (ks : list tile_id) :
  layer_partition l name w = (Ok ks, w1) -> In (PDir name) (w_fs w1).
Proof.
  unfold layer_partition; intros H.
  apply bind_inv in H; destruct H as (b & w0 & Hb & H); cbv beta in H.
  unfold path_exists in Hb; injection Hb as Eb <-.
  destruct b.
  - peel H; unfold ret in H; injection H as _ <-.
    match goal with Hc : emit _ _ = _ |- _ => unfold emit in Hc; injection Hc as _ <- end.
    simpl; apply existsb_exists in Eb.
    destruct Eb as [[d|d k] [Hin Heq]]; simpl in Heq; [|discriminate].
    apply String.eqb_eq in Heq; now subst d.
  - apply bind_inv in H; destruct H as (u & w2 & Hm & H); cbv beta in H.
    unfold mkdir in Hm; injection Hm as _ Ew2.
    assert (Hin : In (PDir name) (w_fs w2)) by (rewrite <- Ew2; simpl; apply in_or_app; right; now left).
    clear Ew2.
    apply bind_inv in H; destruct H as (a3 & w3 & S3 & H); cbv beta in H.
    pose proof (keeps_fs_ok _ _ _ _ _ keeps_get S3 Hin) as Hin3.
    apply bind_inv in H; destruct H as (a4 & w4 & S4 & H); cbv beta in H.
    pose proof (keeps_fs_ok _ _ _ _ _ (keeps_put _) S4 Hin3) as Hin4.
    apply bind_inv in H; destruct H as (a5 & w5 & S5 & H); cbv beta in H.
    pose proof (keeps_fs_ok _ _ _ _ _ keeps_layer_names S5 Hin4) as Hin5.
    apply bind_inv in H; destruct H as (a6 & w6 & S6 & H); cbv beta in H.
    pose proof (create_outputs_keeps_dir _ _ _ _ _ _ _ _ S6 Hin5) as Hin6.
    apply bind_inv in H; destruct H as (a7 & w7 & S7 & H); cbv beta in H.
    pose proof (keeps_fs_ok _ _ _ _ _ keeps_latlon_call_start S7 Hin6) as Hin7.
    apply bind_inv in H; destruct H as (a8 & w8 & S8 & H); cbv beta in H.
    pose proof (keeps_fs_ok _ _ _ _ _ (keeps_feed _ _) S8 Hin7) as Hin8.
    apply bind_inv in H; destruct H as (a9 & w9 & S9 & H); cbv beta in H.
    pose proof (keeps_fs_ok _ _ _ _ _ (keeps_sync_all _) S9 Hin8) as Hin9.
    unfold ret in H; injection H as _ <-; exact Hin9.
Qed.

Lemma source_partition_rest_skipped (layers : list ogr_layer) (name : string) :
  forall w, In (PDir name) (w_fs w) ->
  source_partition layers name w =
    (Ok [], mk_world (w_fs w)
                     (w_trace w ++ map (fun _ => EvLog LError (name ++ " already exists")) layers)
                     (w_part w)).
Proof.
  induction layers as [|l rest IH]; intros w Hin; simpl.
  - destruct w; unfold ret; simpl; now rewrite app_nil_r.
  - rewrite (bind_ok _ _ _ _ _ (layer_partition_dir_exists l name w Hin)); cbv beta.
    rewrite (bind_ok _ _ _ _ _
               (IH (mk_world (w_fs w) (w_trace w ++ [EvLog LError (name ++ " already exists")])
                             (w_part w)) Hin)).
    unfold ret; simpl; now rewrite <- app_assoc.
Qed.

(** X9: [Source.partition] gives every layer of a source the same output
    directory [name]; once the first layer has been partitioned the
    directory exists, so every further layer only logs
    ["<name> already exists"] and contributes nothing: the result is the
    first layer's identifiers. *)
Theorem source_partition_first_layer_only (l : ogr_layer) (rest : list ogr_layer)
    (name : string) (w w1 : world) (ks : list tile_id) :
  layer_partition l name w = (Ok ks, w1) ->
  source_partition (l :: rest) name w =
    (Ok ks, mk_world (w_fs w1)
                     (w_trace w1 ++ map (fun _ => EvLog LError (name ++ " already exists")) rest)
                     (w_part w1)).
Proof.
  intros H; simpl.
  rewrite (bind_ok _ _ _ _ _ H).
  rewrite (bind_ok _ _ _ _ _ (source_partition_rest_skipped rest name w1
                                (layer_partition_leaves_dir l name w w1 ks H))).
  unfold ret; now rewrite app_nil_r.
Qed.

Lemma source_partition_first_layer_only_witness :
  let L1 := mk_layer "roads" (ftile 0 100 0 100) [mk_feature (Some (ftile 10 20 10 20))] in
  let L2 := mk_layer "rivers" (ftile 0 100 0 100) [mk_feature (Some (ftile 60 70 60 70))] in
  let W := mk_world [] [] (new_latlon 1) in
  layer_partition L1 "out" W
    = (Ok [mk_tile_id "roads" (ftile 0 100 0 100)], snd (layer_partition L1 "out" W)) /\
  source_partition [L1; L2] "out" W =
    (Ok [mk_tile_id "roads" (ftile 0 100 0 100)],
     mk_world (w_fs (snd (layer_partition L1 "out" W)))
              (w_trace (snd (layer_partition L1 "out" W)) ++
               map (fun _ => EvLog LError ("out" ++ " already exists")) [L2])
              (w_part (snd (layer_partition L1 "out" W)))).
Proof.
  intros L1 L2 W.
  assert (E : layer_partition L1 "out" W
              = (Ok [mk_tile_id "roads" (ftile 0 100 0 100)], snd (layer_partition L1 "out" W)))
    by (vm_compute; reflexivity).
  split; [exact E|].
  exact (source_partition_first_layer_only L1 [L2] "out" W _ _ E).
Defined.

(** ** The input file filter of [main] *)

Lemma dotplus_ext_iff (s : string) : forall b,
  dotplus_ext b s = true <->
  exists stem ext, s = (stem ++ "." ++ ext)%string /\ (b = true \/ stem <> EmptyString) /\
    newline_free stem = true /\ (ext = "shp"%string \/ ext = "fgb"%string).
Proof.
  induction s as [|c rest IH]; intros b; cbn [dotplus_ext].
  - rewrite orb_false_r; split.
    + intros H; apply andb_true_iff in H; destruct H as [_ H]; simpl in H; discriminate.
    + intros (stem & ext & E & _); destruct stem; discriminate.
  - rewrite orb_true_iff, andb_true_iff, andb_true_iff, orb_true_iff, !String.eqb_eq, IH.
    split.
    + intros [[-> [E|E]]|[Hc (stem & ext & -> & _ & Hn & He)]].
      * exists EmptyString, "shp"%string; injection E as -> ->; auto.
      * exists EmptyString, "fgb"%string; injection E as -> ->; auto.
      * exists (String c stem), ext; simpl; rewrite Hc, Hn; repeat split; auto.
        right; discriminate.
    + intros (stem & ext & E & Hb & Hn & He).
      destruct stem as [|c' stem].
      * destruct Hb as [->|Hb]; [|now contradiction Hb].
        left; split; [reflexivity|].
        destruct He as [->| ->]; [left|right]; exact E.
      * simpl in E, Hn; injection E as -> E.
        apply andb_true_iff in Hn; destruct Hn as [Hc Hn].
        right; split; [exact Hc|].
        exists stem, ext; auto.
Qed.

(** X10: [main] keeps a file name exactly when it is a non-empty name
    without newline followed by [.shp] or [.fgb]: the extension is
    case-sensitive, the stem may contain further dots, and the bare names
    [.shp] and [.fgb] are skipped. *)
Theorem shape_file_fullmatch_iff (file : string) :
  shape_file_fullmatch file = true <->
  exists stem ext, file = (stem ++ "." ++ ext)%string /\ stem <> EmptyString /\
    newline_free stem = true /\ (ext = "shp"%string \/ ext = "fgb"%string).
Proof.
  unfold shape_file_fullmatch; rewrite dotplus_ext_iff.
  split; intros (stem & ext & E & Hb & Hn & He); exists stem, ext;
    (split; [exact E|split; [|split; [exact Hn|exact He]]]).
  - destruct Hb as [Hb|Hb]; [discriminate|exact Hb].
  - right; exact Hb.
Qed.

(** ** The output files behind the returned identifiers *)

Lemma existsb_file_intro (dir : string) (k : tile_id) (fs : list path) (p : path) :
  In p fs -> path_eqb (PFile dir k) p = true -> existsb (path_eqb (PFile dir k)) fs = true.
Proof. intros Hin Hp; apply existsb_exists; eauto. Qed.

Lemma create_outputs_files (dir : string) (keys : list tile_id) :
  forall h d w d' w', create_outputs dir h keys d w = (Ok d', w') ->
  (forall k, In k (map fst d) -> existsb (path_eqb (PFile dir k)) (w_fs w) = true) ->
  forall k, In k (map fst d') -> existsb (path_eqb (PFile dir k)) (w_fs w') = true.
Proof.
  induction keys as [|k0 rest IH]; intros h d w d' w' H Hd; simpl in H.
  - unfold ret in H; injection H as <- <-; exact Hd.
  - apply bind_inv in H; destruct H as (b & w1 & S1 & H); cbv beta in H.
    unfold path_exists in S1; injection S1 as _ <-.
    apply bind_inv in H; destruct H as (u & w2 & S2 & H); cbv beta in H.
    assert (Hkeep : forall q, In q (w_fs w) -> path_eqb (PFile dir k0) q = false ->
                              In q (w_fs w2)).
    { intros q Hq Hne; destruct b.
      - unfold remove_file in S2; injection S2 as _ <-; cbn [w_fs].
        apply filter_In; split; [exact Hq|].
        change (negb (path_eqb (PFile dir k0) q) = true); now rewrite Hne.
      - unfold ret in S2; injection S2 as _ <-; exact Hq. }
    apply bind_inv in H; destruct H as (u' & w3 & S3 & H); cbv beta in H.
    unfold create_ds in S3; injection S3 as _ <-.
    apply (IH _ _ _ _ _ H); intros k Hk; simpl.
    rewrite existsb_app, orb_true_iff.
    destruct (tile_id_eqb k k0) eqn:Ek.
    + right; simpl; now rewrite String.eqb_refl, Ek.
    + left.
      destruct (in_dict_set_keys k0 h d k Hk) as [Hin| ->];
        [|now rewrite tile_id_eqb_refl in Ek].
      pose proof (Hd k Hin) as Hex; apply existsb_exists in Hex.
      destruct Hex as (p & Hp & Hpe).
      apply (existsb_file_intro dir k _ p); [|exact Hpe].
      apply Hkeep; [exact Hp|].
      destruct p as [d0|d0 k']; [reflexivity|]; simpl in Hpe |- *.
      apply andb_true_iff in Hpe; destruct Hpe as [Hdir Hkk'].
      apply String.eqb_eq in Hdir; subst d0; rewrite String.eqb_refl; simpl.
      destruct (tile_id_eqb k0 k') eqn:E'; [|reflexivity].
      rewrite tile_id_eqb_sym in E'.
      rewrite (tile_id_eqb_trans k k' k0 Hkk' E') in Ek; discriminate.
Qed.

(** X11: every identifier returned by [Layer.partition] names an output
    file [Path(name) / f"{key}.fgb"] that exists when the call returns
    (the file [main] later opens for the project), also when two tiles
    share one identifier and the file was removed and created again. *)
Theorem layer_partition_files_exist (l : ogr_layer) (name : string) (w w' : world)
    (ks : list tile_id) :
  layer_partition l name w = (Ok ks, w') ->
  forall k, In k ks -> existsb (path_eqb (PFile name k)) (w_fs w') = true.
Proof.
  unfold layer_partition; intros H.
  apply bind_inv in H; destruct H as (b & w0 & _ & H); cbv beta in H.
  destruct b.
  - peel H; unfold ret in H; injection H as <- _; intros k [].
  - peel H; peel H; peel H; peel H.
    apply bind_inv in H; destruct H as (d & w6 & S6 & H); cbv beta in H.
    apply bind_inv in H; destruct H as (a7 & w7 & S7 & H); cbv beta in H.
    apply bind_inv in H; destruct H as (a8 & w8 & S8 & H); cbv beta in H.
    apply bind_inv in H; destruct H as (a9 & w9 & S9 & H); cbv beta in H.
    unfold ret in H; injection H as <- <-.
    rewrite (keeps_sync_all _ _ _ _ S9), (keeps_feed _ _ _ _ _ S8),
      (keeps_latlon_call_start _ _ _ S7).
    exact (create_outputs_files _ _ _ _ _ _ _ S6 (fun k Hk => match Hk with end)).
Qed.

Lemma layer_partition_files_exist_witness :
  let L := mk_layer "roads" (ftile 0 1 0 100)
             [mk_feature (Some (ftile 0 1 20 30)); mk_feature (Some (ftile 0 1 70 80))] in
  let W := mk_world [] [] (new_latlon 4) in
  layer_partition L "out" W
    = (Ok [mk_tile_id "roads" (ftile 0 0 0 50); mk_tile_id "roads" (ftile 0 0 50 100)],
       snd (layer_partition L "out" W)) /\
  forall k, In k [mk_tile_id "roads" (ftile 0 0 0 50); mk_tile_id "roads" (ftile 0 0 50 100)] ->
    existsb (path_eqb (PFile "out" k)) (w_fs (snd (layer_partition L "out" W))) = true.
Proof.
  intros L W.
  assert (E : layer_partition L "out" W
              = (Ok [mk_tile_id "roads" (ftile 0 0 0 50); mk_tile_id "roads" (ftile 0 0 50 100)],
                 snd (layer_partition L "out" W))) by (vm_compute; reflexivity).
  split; [exact E|].
  exact (layer_partition_files_exist L "out" W _ _ E).
Defined.
